(** * instagram-downloader: the job life cycle of [main_web.py]

    A shallow embedding of the web front end of the downloader: the
    per-client rate limiter, the URL validation, the [/start] handler, the
    download worker with its failure classification, the progress stream
    of [/events], the [/download] handler and the janitor sweep.

    Conventions of the embedding.
    - Python [str] is [string]; characters are code points below 256 and
      [str.lower] is the ASCII case map (the patterns the program matches
      against are ASCII).
    - [time.time()] values are whole seconds in [Z].
    - A Python [dict] used as a table is a [gmap]; a job [dict] with a fixed
      set of optional keys is a record with [option] fields.
    - A block run under [with jobs_lock] is one atomic step on the job table.
    - The file system is the ideal one: a listed entry can be inspected and
      removed. *)

From Stdlib Require Import ZArith QArith String Ascii.
From stdpp Require Import base gmap strings list pretty.

Local Open Scope Z_scope.
Local Open Scope stdpp_scope.

(** ** Python strings *)

Module Str.

Definition lower_char (c : ascii) : ascii :=
  let n := Ascii.nat_of_ascii c in
  if ((65 <=? n)%nat && (n <=? 90)%nat)%bool
  then Ascii.ascii_of_nat (n + 32) else c.

(** [s.lower()] *)
Fixpoint lower (s : string) : string :=
  match s with
  | EmptyString => EmptyString
  | String c s' => String (lower_char c) (lower s')
  end.

(** [s.startswith(p)] *)
Fixpoint startswith (s p : string) {struct p} : bool :=
  match p, s with
  | EmptyString, _ => true
  | String _ _, EmptyString => false
  | String a p', String b s' => bool_decide (a = b) && startswith s' p'
  end.

(** [s.endswith(p)] *)
Fixpoint endswith (s p : string) : bool :=
  bool_decide (s = p) ||
  match s with
  | EmptyString => false
  | String _ s' => endswith s' p
  end.

(** [p in s] *)
Fixpoint contains (s p : string) : bool :=
  startswith s p ||
  match s with
  | EmptyString => false
  | String _ s' => contains s' p
  end.

(** Truth value of a string: [bool(s)]. *)
Definition truthy (s : string) : bool :=
  match s with EmptyString => false | String _ _ => true end.

(** Truth value of an optional string ([None] is false). *)
Definition truthy_opt (o : option string) : bool :=
  match o with Some s => truthy s | None => false end.

(** [a or b] on optional strings. *)
Definition or_else (a b : option string) : option string :=
  if truthy_opt a then a else b.

(** Characters removed by [str.strip()] (those below 256). *)
Definition is_space (c : ascii) : bool :=
  let n := Ascii.nat_of_ascii c in
  ((9 <=? n)%nat && (n <=? 13)%nat) || ((28 <=? n)%nat && (n <=? 32)%nat)
  || (n =? 133)%nat || (n =? 160)%nat.

Fixpoint lstrip (s : string) : string :=
  match s with
  | EmptyString => EmptyString
  | String c s' => if is_space c then lstrip s' else s
  end.

(** [s.strip()] *)
Definition strip (s : string) : string :=
  String.rev (lstrip (String.rev (lstrip s))).

(** [s.split(',')[0]] *)
Fixpoint before_comma (s : string) : string :=
  match s with
  | EmptyString => EmptyString
  | String c s' =>
      if bool_decide (c = ","%char) then EmptyString
      else String c (before_comma s')
  end.

(** [posixpath.join(a, b)] *)
Definition path_join (a b : string) : string :=
  if startswith b "/" then b
  else if bool_decide (a = EmptyString) || endswith a "/" then a +:+ b
  else a +:+ "/" +:+ b.

Fixpoint after_last_slash (s acc : string) : string :=
  match s with
  | EmptyString => acc
  | String c s' =>
      if bool_decide (c = "/"%char) then after_last_slash s' s'
      else after_last_slash s' acc
  end.

(** [posixpath.basename(p)] *)
Definition basename (p : string) : string := after_last_slash p p.

End Str.

(** ** Configuration read from the environment at start-up *)

Record Config := mkConfig {
  API_KEY : option string;
  RATE_LIMIT_COUNT : Z;
  RATE_LIMIT_WINDOW : Z;
  RATE_LIMIT_CONCURRENT : Z;
  BASE_DOWNLOAD_DIR : string
}.

(** The values used when no environment variable is set. *)
Definition default_config : Config :=
  {| API_KEY := None;
     RATE_LIMIT_COUNT := 5;
     RATE_LIMIT_WINDOW := 60 * 60;
     RATE_LIMIT_CONCURRENT := 3;
     BASE_DOWNLOAD_DIR := "/app/downloads" |}.

(** ** Job records *)

Inductive Status := queued | running | ready | error.

Global Instance Status_eq_dec : EqDecision Status.
Proof. solve_decision. Defined.

Definition status_str (s : Status) : string :=
  match s with
  | queued => "queued"
  | running => "running"
  | ready => "ready"
  | error => "error"
  end.

(** The [progress] entry of a job: the literal dictionaries the program
    stores there. *)
Inductive Progress :=
  | ProgQueued
  | ProgStarted
  | ProgDownloading (downloaded : Z) (total : option Z)
                    (percent : option Q) (eta : option Z)
  | ProgFinished
  | ProgError (message : option string).

Record Job := mkJob {
  job_id : string;
  job_status : Status;
  job_progress : Progress;
  job_created_at : Z;
  job_format : string;
  job_url : string;
  job_ip : string;
  job_proxy : bool;
  job_temp_dir : option string;
  job_filepath : option string;
  job_filename : option string;
  (** [None]: key not set; [Some None]: set to [None]. *)
  job_size : option (option Z);
  job_error : option string
}.

Definition with_status (s : Status) (j : Job) : Job :=
  mkJob (job_id j) s (job_progress j) (job_created_at j) (job_format j)
    (job_url j) (job_ip j) (job_proxy j) (job_temp_dir j) (job_filepath j)
    (job_filename j) (job_size j) (job_error j).

Definition with_progress (p : Progress) (j : Job) : Job :=
  mkJob (job_id j) (job_status j) p (job_created_at j) (job_format j)
    (job_url j) (job_ip j) (job_proxy j) (job_temp_dir j) (job_filepath j)
    (job_filename j) (job_size j) (job_error j).

Definition with_temp_dir (d : string) (j : Job) : Job :=
  mkJob (job_id j) (job_status j) (job_progress j) (job_created_at j)
    (job_format j) (job_url j) (job_ip j) (job_proxy j) (Some d)
    (job_filepath j) (job_filename j) (job_size j) (job_error j).

Definition with_filepath (p : string) (j : Job) : Job :=
  mkJob (job_id j) (job_status j) (job_progress j) (job_created_at j)
    (job_format j) (job_url j) (job_ip j) (job_proxy j) (job_temp_dir j)
    (Some p) (job_filename j) (job_size j) (job_error j).

Definition with_filename (n : string) (j : Job) : Job :=
  mkJob (job_id j) (job_status j) (job_progress j) (job_created_at j)
    (job_format j) (job_url j) (job_ip j) (job_proxy j) (job_temp_dir j)
    (job_filepath j) (Some n) (job_size j) (job_error j).

Definition with_size (sz : option Z) (j : Job) : Job :=
  mkJob (job_id j) (job_status j) (job_progress j) (job_created_at j)
    (job_format j) (job_url j) (job_ip j) (job_proxy j) (job_temp_dir j)
    (job_filepath j) (job_filename j) (Some sz) (job_error j).

Definition with_error (e : string) (j : Job) : Job :=
  mkJob (job_id j) (job_status j) (job_progress j) (job_created_at j)
    (job_format j) (job_url j) (job_ip j) (job_proxy j) (job_temp_dir j)
    (job_filepath j) (job_filename j) (job_size j) (Some e).

(** The global [jobs] and [rate_limit] dictionaries. *)
Abbreviation Jobs := (gmap string Job).
Abbreviation RateLimit := (gmap string (list Z)).

(** ** Rate limiter *)

(** [check_rate_limit(ip)], with [now] the value of [time.time()]. *)
Definition check_rate_limit (cfg : Config) (now : Z) (ip : string)
    (rate_limit : RateLimit) : bool * RateLimit :=
  let times := default [] (rate_limit !! ip) in
  let times := filter (λ t, now - t < RATE_LIMIT_WINDOW cfg) times in
  if bool_decide (RATE_LIMIT_COUNT cfg ≤ Z.of_nat (length times))
  then (false, rate_limit)
  else (true, <[ip := times ++ [now]]> rate_limit).

Definition is_active (ip : string) (j : Job) : bool :=
  bool_decide (job_ip j = ip) &&
  (bool_decide (job_status j = queued) || bool_decide (job_status j = running)).

(** [check_concurrent_limit(ip)] *)
Definition check_concurrent_limit (cfg : Config) (ip : string) (jobs : Jobs) : bool :=
  let count :=
    foldl (λ count j, if is_active ip j then count + 1 else count) 0
          (map_to_list jobs).*2 in
  bool_decide (count < RATE_LIMIT_CONCURRENT cfg).

(** ** Exceptions and lock-protected blocks *)

(** The exception classes the program can meet, as far as its [except]
    clauses tell them apart.  [SystemExit] stands for the classes that derive
    from [BaseException] but not from [Exception]. *)
Inductive ExnClass :=
  | KeyError | FileNotFoundError | DownloadError | OtherException | SystemExit.

Global Instance ExnClass_eq_dec : EqDecision ExnClass.
Proof. solve_decision. Defined.

(** An exception: its class and [str(e)]. *)
Record Exn := mkExn { exn_class : ExnClass; exn_text : string }.

Inductive ExceptClause := ExceptException | ExceptFileNotFoundError.

(** Does [except clause] catch an exception of class [c]? *)
Definition catches (clause : ExceptClause) (c : ExnClass) : bool :=
  match clause with
  | ExceptException => negb (bool_decide (c = SystemExit))
  | ExceptFileNotFoundError => bool_decide (c = FileNotFoundError)
  end.

(** The clauses of a [try] statement are tried in order: the first one that
    matches handles the exception. *)
Fixpoint select_clause {A} (clauses : list (ExceptClause * A)) (e : Exn) : option A :=
  match clauses with
  | [] => None
  | (clause, h) :: rest =>
      if catches clause (exn_class e) then Some h else select_clause rest e
  end.

(** A status assignment [jobs[job_id]['status'] = s] that took effect. *)
Inductive Event := StatusWrite (id : string) (s : Status).

(** Code that works on the job table: it returns the table as it leaves it
    (assignments made before an exception stay), the status assignments it
    made, and either the exception it raised or its value. *)
Definition Block (A : Type) : Type := Jobs → Jobs * list Event * (Exn + A).

Definition ret {A} (a : A) : Block A := λ js, (js, [], inr a).

Definition raise {A} (e : Exn) : Block A := λ js, (js, [], inl e).

Definition bind {A B} (m : Block A) (k : A → Block B) : Block B := λ js,
  match m js with
  | (js1, ev1, inl e) => (js1, ev1, inl e)
  | (js1, ev1, inr a) =>
      match k a js1 with (js2, ev2, r) => (js2, ev1 ++ ev2, r) end
  end.

Declare Scope block_scope.
Delimit Scope block_scope with block.
Notation "x <- m ;; k" := (bind m (λ x, k))
  (at level 100, m at next level, right associativity) : block_scope.
Notation "m ;; k" := (bind m (λ _, k))
  (at level 100, right associativity) : block_scope.
Local Open Scope block_scope.

(** [try: m  except c1: h1  except c2: h2 ...] *)
Definition try_except {A} (m : Block A)
    (clauses : list (ExceptClause * (Exn → Block A))) : Block A := λ js,
  match m js with
  | (js1, ev1, inl e) =>
      match select_clause clauses e with
      | Some h => match h e js1 with (js2, ev2, r) => (js2, ev1 ++ ev2, r) end
      | None => (js1, ev1, inl e)
      end
  | r => r
  end.

(** [jobs[job_id][key] = value]: a [KeyError] when the job is not in the
    table. *)
Definition setitem (id : string) (f : Job → Job) (evs : list Event) : Block unit :=
  λ js,
  match js !! id with
  | None => (js, [], inl (mkExn KeyError id))
  | Some j => (<[id := f j]> js, evs, inr tt)
  end.

Definition set_status (id : string) (s : Status) : Block unit :=
  setitem id (with_status s) [StatusWrite id s].

(** ** Progress hook *)

(** The dictionary [d] that the engine passes to a progress hook. *)
Record HookInfo := mkHookInfo {
  d_status : option string;
  d_total_bytes : option Z;
  d_total_bytes_estimate : option Z;
  d_downloaded_bytes : option Z;
  d_eta : option Z;
  d_errmsg : option string
}.

Definition truthy_num (o : option Z) : bool :=
  match o with Some n => negb (n =? 0) | None => false end.

(** [yt_progress_hook(job_id)(d)]; the quotient is the exact one. *)
Definition yt_progress_hook (id : string) (d : HookInfo) : Block unit := λ js,
  match js !! id with
  | None => (js, [], inr tt)
  | Some job =>
      if bool_decide (d_status d = Some "downloading") then
        let total :=
          if truthy_num (d_total_bytes d) then d_total_bytes d
          else d_total_bytes_estimate d in
        let downloaded := default 0 (d_downloaded_bytes d) in
        let percent :=
          match total with
          | Some t =>
              if negb (t =? 0)
              then Some (((inject_Z downloaded / inject_Z t) * inject_Z 100)%Q)
              else None
          | None => None
          end in
        (<[id := with_progress
                   (ProgDownloading downloaded total percent (d_eta d)) job]> js,
         [], inr tt)
      else if bool_decide (d_status d = Some "finished") then
        (<[id := with_progress ProgFinished job]> js, [], inr tt)
      else if bool_decide (d_status d = Some "error") then
        (<[id := with_progress (ProgError (d_errmsg d)) job]> js, [], inr tt)
      else (js, [], inr tt)
  end.

(** ** Download worker *)

Definition temp_dir_of (cfg : Config) (id : string) : string :=
  Str.path_join (BASE_DOWNLOAD_DIR cfg) id.

(** The first locked block of [run_download_job]. *)
Definition mark_running (cfg : Config) (id : string) : Block unit :=
  setitem id (with_temp_dir (temp_dir_of cfg id)) [] ;;
  set_status id running ;;
  setitem id (with_progress ProgStarted) [].

Definition final_ext (fmt : string) : string :=
  if bool_decide (fmt = "audio") then "mp3" else "mp4".

Definition login_keywords : list string :=
  ["login"; "403"; "forbidden"; "private"; "authentication";
   "login_required"; "not authorized"; "please sign in"].

Definition LOGIN_REQUIRED_TEXT : string :=
  "Instagram requires login for this content. Unable to download without authentication.".
Definition DOWNLOAD_FAILED_TEXT : string :=
  "Failed to download media. The URL may be private or invalid.".
Definition FFMPEG_MISSING_TEXT : string :=
  "ffmpeg not found or not executable. Please install ffmpeg.".
Definition UNEXPECTED_TEXT : string :=
  "Unexpected error during download.".
Definition OUTPUT_MISSING_TEXT : string :=
  "Download finished but output file not found.".
Definition SERVER_ERROR_TEXT : string :=
  "Server error while processing the download.".

(** [any(k in msg.lower() for k in login_keywords)] *)
Definition mentions_login (msg : string) : bool :=
  existsb (λ k, Str.contains (Str.lower msg) k) login_keywords.

(** A locked block that records a failure. *)
Definition set_error (id : string) (text : string) : Block unit :=
  set_status id error ;;
  setitem id (with_error text) [].

(** The three [except] clauses after the engine call, in source order. *)
Definition engine_clauses (id : string) : list (ExceptClause * (Exn → Block bool)) :=
  [ (ExceptException, λ de,
       let msg := exn_text de in
       let err_text :=
         if mentions_login msg then LOGIN_REQUIRED_TEXT else DOWNLOAD_FAILED_TEXT in
       set_error id err_text ;; ret false);
    (ExceptFileNotFoundError, λ fe,
       set_error id FFMPEG_MISSING_TEXT ;; ret false);
    (ExceptException, λ e,
       set_error id UNEXPECTED_TEXT ;; ret false) ].

(** The inner loop of the search for the produced file. *)
Fixpoint scan_files (root : string) (files : list string) (ext : string)
    (produced : option string) : option string :=
  match files with
  | [] => produced
  | f :: files' =>
      if Str.endswith (Str.lower f) ext then Some (Str.path_join root f)
      else scan_files root files' ext produced
  end.

(** The search over [os.walk(temp_dir)], given as its (root, files) pairs. *)
Fixpoint walk_search (walk : list (string * list string)) (ext : string)
    (produced : option string) : option string :=
  match walk with
  | [] => produced
  | (root, files) :: walk' =>
      let produced := scan_files root files ext produced in
      if Str.truthy_opt produced then produced
      else walk_search walk' ext produced
  end.

(** The last locked block: the job becomes ready. *)
Definition set_ready (id : string) (produced : string) (getsize : option Z) : Block unit :=
  set_status id ready ;;
  setitem id (with_filepath produced) [] ;;
  setitem id (with_filename (Str.basename produced)) [] ;;
  setitem id (with_size getsize) [].

(** What the environment answers during one run of the worker: an exception
    raised while the options are built (if any), the exception raised in
    the inner [try], that is by the engine call [extract_info] (if any),
    the listing of [os.walk(temp_dir)] as its (root, files) pairs and the
    result of [os.path.getsize] ([None] when it raises). *)
Record EngineRun := mkEngineRun {
  run_setup : option Exn;
  run_engine : option Exn;
  run_walk : list (string * list string);
  run_getsize : option Z
}.

Definition raise_if (o : option Exn) : Block unit :=
  match o with Some e => raise e | None => ret tt end.

(** [run_download_job] from the engine call on: the outer [try] statement.
    It is one step on the table: at most one of its locked blocks changes
    the table, because a block that raises [KeyError] has changed nothing. *)
Definition finish_download_job (id fmt : string) (env : EngineRun) : Block unit :=
  try_except
    (raise_if (run_setup env) ;;
     continue <- try_except (raise_if (run_engine env) ;; ret true)
                            (engine_clauses id) ;;
     if negb continue then ret tt else
     let produced := walk_search (run_walk env) (final_ext fmt) None in
     if negb (Str.truthy_opt produced) then set_error id OUTPUT_MISSING_TEXT
     else set_ready id (default EmptyString produced) (run_getsize env))
    [ (ExceptException, λ e, set_error id SERVER_ERROR_TEXT) ].

(** ** Janitor *)

(** An entry of the download root, as the janitor sees it. *)
Record FsEntry := mkFsEntry { mtime : Z; is_dir : bool }.

(** The download root: its entries by name. *)
Abbreviation Root := (gmap string FsEntry).

(** [os.listdir(BASE_DOWNLOAD_DIR)] *)
Definition listdir (root : Root) : list string := (map_to_list root).*1.

(** [shutil.rmtree(path, ignore_errors=True)] and [os.remove(path)] on an
    entry of the root. *)
Definition rmtree (name : string) (root : Root) : Root := delete name root.
Definition os_remove (name : string) (root : Root) : Root := delete name root.

(** [j.get('temp_dir') == path or j.get('filepath', '').startswith(path)] *)
Definition job_under (path : string) (j : Job) : bool :=
  bool_decide (job_temp_dir j = Some path)
  || Str.startswith (default EmptyString (job_filepath j)) path.

(** The locked block of the janitor: the loop over [list(jobs.items())]. *)
Definition prune_jobs (path : string) (jobs : Jobs) : Jobs :=
  foldl (λ js item, if job_under path item.2 then delete item.1 js else js)
        jobs (map_to_list jobs).

(** One iteration of the loop over the listing.  A name that is no longer
    there makes [getmtime] raise, which the loop ignores. *)
Definition sweep_entry (cfg : Config) (cutoff : Z) (st : Root * Jobs)
    (name : string) : Root * Jobs :=
  let path := Str.path_join (BASE_DOWNLOAD_DIR cfg) name in
  match st.1 !! name with
  | None => st
  | Some e =>
      if bool_decide (mtime e < cutoff) then
        let root := if is_dir e then rmtree name st.1 else os_remove name st.1 in
        (root, prune_jobs path st.2)
      else st
  end.

(** One pass of the loop of [background_cleaner], at time [now]. *)
Definition background_cleaner_sweep (cfg : Config) (now : Z)
    (root : Root) (jobs : Jobs) : Root * Jobs :=
  let cutoff := now - 30 * 60 in
  foldl (sweep_entry cfg cutoff) (root, jobs) (listdir root).

(** Job identifiers are [uuid.uuid4().hex]: 32 hexadecimal digits. *)
Definition is_hex_digit (c : ascii) : bool :=
  let n := Ascii.nat_of_ascii c in
  ((48 <=? n)%nat && (n <=? 57)%nat) || ((97 <=? n)%nat && (n <=? 102)%nat).

Fixpoint all_hex (s : string) : bool :=
  match s with
  | EmptyString => true
  | String c s' => is_hex_digit c && all_hex s'
  end.

Definition is_uuid_hex (s : string) : bool :=
  bool_decide (String.length s = 32%nat) && all_hex s.

(** ** Requests *)

(** The fields of [urlparse(url)] that the program reads. *)
Record ParseResult := mkParseResult {
  scheme : string;
  netloc : string;
  path : string
}.

(** A [POST /start] request: the JSON body and the headers read. *)
Record Request := mkRequest {
  req_url : option string;
  req_format : option string;
  req_proxy : option string;
  req_api_key : option string;
  req_header_api_key : option string;
  req_forwarded_for : option string;
  req_remote_addr : option string
}.

(** [get_client_ip()] *)
Definition get_client_ip (req : Request) : string :=
  if Str.truthy_opt (req_forwarded_for req)
  then Str.strip (Str.before_comma (default EmptyString (req_forwarded_for req)))
  else default "unknown" (Str.or_else (req_remote_addr req) (Some "unknown")).

Inductive Response :=
  | JobStarted (id : string)
  | ErrorResponse (code : Z) (message : string).

(** Arguments of a worker thread. *)
Record ThreadArgs := mkThreadArgs {
  arg_job_id : string;
  arg_url : string;
  arg_fmt : string;
  arg_proxy : option string
}.

(** The locked block of [start]: the new record. *)
Definition create_job (id url fmt ip : string) (proxy : option string)
    (created_at : Z) : Block unit := λ js,
  (<[id := {| job_id := id; job_status := queued; job_progress := ProgQueued;
              job_created_at := created_at; job_format := fmt; job_url := url;
              job_ip := ip; job_proxy := Str.truthy_opt proxy;
              job_temp_dir := None; job_filepath := None; job_filename := None;
              job_size := None; job_error := None |}]> js,
   [StatusWrite id queued], inr tt).

(** The result of a handler call: the response, the two tables, the status
    assignments made and the thread started, if any. *)
Record Handled := mkHandled {
  response : Response;
  jobs_after : Jobs;
  rate_limit_after : RateLimit;
  writes : list Event;
  spawned : option ThreadArgs
}.

(** ** Readers of the job table *)

Inductive DownloadResponse :=
  | JobNotFound
  | FileNotReady
  | SendFile (filepath filename : string).

(** [download(job_id)] *)
Definition download (id : string) (jobs : Jobs) : DownloadResponse :=
  match jobs !! id with
  | None => JobNotFound
  | Some job =>
      if negb (bool_decide (job_status job = ready))
         || negb (Str.truthy_opt (job_filepath job))
      then FileNotReady
      else
        let filepath := default EmptyString (job_filepath job) in
        SendFile filepath
          (default (Str.basename filepath)
             (Str.or_else (job_filename job) (Some (Str.basename filepath))))
  end.

(** The dictionary that [events] serialises. *)
Inductive Payload :=
  | PayloadUnknown
  | PayloadJob (status : Status) (progress : Progress)
               (err filename : option string) (size : option Z).

Definition poll_payload (id : string) (jobs : Jobs) : Payload :=
  match jobs !! id with
  | None => PayloadUnknown
  | Some job =>
      PayloadJob (job_status job) (job_progress job)
        (if bool_decide (job_status job = error) then job_error job else None)
        (job_filename job)
        (mjoin (job_size job))
  end.

(** [payload.get('status') in ('ready', 'error', 'unknown')] *)
Definition payload_terminal (p : Payload) : bool :=
  match p with
  | PayloadUnknown => true
  | PayloadJob s _ _ _ _ => bool_decide (s = ready) || bool_decide (s = error)
  end.

(** *** [json.dumps] *)

Definition dquote : string := String "034"%char EmptyString.
Definition newline : string := String "010"%char EmptyString.
Definition backslash : string := String "092"%char EmptyString.

Definition hex_digit (n : nat) : ascii :=
  if (n <? 10)%nat then Ascii.ascii_of_nat (48 + n)
  else Ascii.ascii_of_nat (87 + n).

(** One character of a string, escaped as [json.dumps] does by default. *)
Definition json_escape_char (c : ascii) : string :=
  let n := Ascii.nat_of_ascii c in
  if bool_decide (c = "034"%char) then backslash +:+ dquote
  else if bool_decide (c = "092"%char) then backslash +:+ backslash
  else if bool_decide (c = "010"%char) then backslash +:+ "n"
  else if bool_decide (c = "013"%char) then backslash +:+ "r"
  else if bool_decide (c = "009"%char) then backslash +:+ "t"
  else if bool_decide (c = "012"%char) then backslash +:+ "f"
  else if bool_decide (c = "008"%char) then backslash +:+ "b"
  else if ((32 <=? n)%nat && (n <=? 126)%nat)%bool then String c EmptyString
  else backslash +:+ "u00" +:+
       String (hex_digit (n / 16)) (String (hex_digit (n mod 16)) EmptyString).

Fixpoint json_escape (s : string) : string :=
  match s with
  | EmptyString => EmptyString
  | String c s' => json_escape_char c +:+ json_escape s'
  end.

Definition json_str (s : string) : string := dquote +:+ json_escape s +:+ dquote.

Definition json_opt {A} (f : A → string) (o : option A) : string :=
  match o with Some a => f a | None => "null" end.

Definition json_int (z : Z) : string := pretty z.

Fixpoint json_fields (fields : list (string * string)) : string :=
  match fields with
  | [] => EmptyString
  | [(k, v)] => json_str k +:+ ": " +:+ v
  | (k, v) :: rest => json_str k +:+ ": " +:+ v +:+ ", " +:+ json_fields rest
  end.

Definition json_obj (fields : list (string * string)) : string :=
  "{" +:+ json_fields fields +:+ "}".

(** ** The handlers and the threads, over the library functions

    [urlparse] is [urllib.parse.urlparse] ([None] when it raises) and
    [float_repr] is the text [json.dumps] writes for a float; the program
    is embedded over every behaviour of the two. *)

Section Program.

Context (urlparse : string → option ParseResult).
Context (float_repr : Q → string).

(** [is_valid_instagram_url(url)] *)
Definition is_valid_instagram_url (url : string) : bool :=
  match urlparse url with
  | None => false
  | Some parsed =>
      if negb (bool_decide (scheme parsed = "http")
               || bool_decide (scheme parsed = "https")) then false
      else
        let host := Str.lower (netloc parsed) in
        if negb (bool_decide (host = "instagram.com")
                 || Str.endswith host ".instagram.com") then false
        else
          let path := Str.lower (path parsed) in
          if existsb (λ p, Str.startswith path p) ["/reel/"; "/reels/"; "/p/"; "/tv/"]
          then true
          else if Str.contains path "/reel" || Str.contains path "/reels"
                  || Str.contains path "/p/" || Str.contains path "/tv/"
          then true
          else false
  end.

(** [start()], given the request, the two values of [time.time()] it
    reads and the value of [uuid.uuid4().hex]. *)
Definition start (cfg : Config) (req : Request) (now created_at : Z)
    (uuid : string) (jobs : Jobs) (rate_limit : RateLimit) : Handled :=
  let reject code message :=
    mkHandled (ErrorResponse code message) jobs rate_limit [] None in
  let url := req_url req in
  let fmt := default "mp4" (req_format req) in
  let key := Str.or_else (req_header_api_key req) (req_api_key req) in
  if Str.truthy_opt (API_KEY cfg)
     && (negb (Str.truthy_opt key) || negb (bool_decide (key = API_KEY cfg)))
  then reject 401 "Invalid or missing API key"
  else if negb (Str.truthy_opt url)
          || negb (is_valid_instagram_url (default EmptyString url))
  then reject 400 "Invalid Instagram URL"
  else
    let url := default EmptyString url in
    let ip := get_client_ip req in
    match check_rate_limit cfg now ip rate_limit with
    | (false, _) => reject 429 "Rate limit exceeded"
    | (true, rate_limit) =>
        let job_id := uuid in
        let proxy := req_proxy req in
        match create_job job_id url fmt ip proxy created_at jobs with
        | (jobs, evs, _) =>
            mkHandled (JobStarted job_id) jobs rate_limit evs
              (Some (mkThreadArgs job_id url fmt proxy))
        end
    end.

(** *** The threads *)

(** Where a worker thread stands. *)
Inductive WorkerPC :=
  | Spawned (args : ThreadArgs)
  | InEngine (fmt : string)
  | Exited.

(** The shared state and the worker threads, by job identifier. *)
Record World := mkWorld {
  jobs : Jobs;
  rate_limit : RateLimit;
  threads : gmap string WorkerPC
}.

Definition initial_world : World := mkWorld ∅ ∅ ∅.

(** The atomic steps of the system. *)
Inductive Action :=
  | AStart (req : Request) (now created_at : Z) (uuid : string)
  | AWorkerBegin (id : string) (makedirs_ok : bool)
  | AHook (id : string) (d : HookInfo)
  | AWorkerFinish (id : string) (env : EngineRun)
  | AJanitorPrune (path : string).

(** One step.  [uuid4] never returns an identifier twice: a request that
    would is not a step.  A worker step is taken only by a thread that
    stands at it. *)
Definition exec (cfg : Config) (w : World) (a : Action) : World * list Event :=
  match a with
  | AStart req now created_at uuid =>
      if bool_decide (is_Some (threads w !! uuid)) then (w, []) else
      let h := start cfg req now created_at uuid (jobs w) (rate_limit w) in
      (mkWorld (jobs_after h) (rate_limit_after h)
         (match spawned h with
          | Some args => <[arg_job_id args := Spawned args]> (threads w)
          | None => threads w
          end),
       writes h)
  | AWorkerBegin id makedirs_ok =>
      match threads w !! id with
      | Some (Spawned args) =>
          if makedirs_ok then
            match mark_running cfg id (jobs w) with
            | (js, evs, inr _) =>
                (mkWorld js (rate_limit w)
                   (<[id := InEngine (arg_fmt args)]> (threads w)), evs)
            | (js, evs, inl _) =>
                (mkWorld js (rate_limit w) (<[id := Exited]> (threads w)), evs)
            end
          else (mkWorld (jobs w) (rate_limit w) (<[id := Exited]> (threads w)), [])
      | _ => (w, [])
      end
  | AHook id d =>
      match threads w !! id with
      | Some (InEngine _) =>
          match yt_progress_hook id d (jobs w) with
          | (js, evs, _) => (mkWorld js (rate_limit w) (threads w), evs)
          end
      | _ => (w, [])
      end
  | AWorkerFinish id env =>
      match threads w !! id with
      | Some (InEngine fmt) =>
          match finish_download_job id fmt env (jobs w) with
          | (js, evs, _) =>
              (mkWorld js (rate_limit w) (<[id := Exited]> (threads w)), evs)
          end
      | _ => (w, [])
      end
  | AJanitorPrune path =>
      (mkWorld (prune_jobs path (jobs w)) (rate_limit w) (threads w), [])
  end.

(** A run of the system from the empty tables: the world reached and the
    status assignments made, in order. *)
Definition run_from (cfg : Config) (start_at : World * list Event)
    (acts : list Action) : World * list Event :=
  foldl (λ st a, match exec cfg st.1 a with (w, evs) => (w, st.2 ++ evs) end)
        start_at acts.

Definition run (cfg : Config) (acts : list Action) : World * list Event :=
  run_from cfg (initial_world, []) acts.

(** The status values assigned to the record of job [id], in order. *)
Fixpoint status_writes (id : string) (trace : list Event) : list Status :=
  match trace with
  | [] => []
  | StatusWrite id' s :: trace' =>
      if bool_decide (id' = id) then s :: status_writes id trace'
      else status_writes id trace'
  end.

(** *** The event stream *)

Definition json_progress (p : Progress) : string :=
  match p with
  | ProgQueued => json_obj [("status", json_str "queued")]
  | ProgStarted => json_obj [("status", json_str "started")]
  | ProgDownloading downloaded total percent eta =>
      json_obj [("status", json_str "downloading");
                ("downloaded", json_int downloaded);
                ("total", json_opt json_int total);
                ("percent", json_opt float_repr percent);
                ("eta", json_opt json_int eta)]
  | ProgFinished => json_obj [("status", json_str "finished")]
  | ProgError message =>
      json_obj [("status", json_str "error");
                ("message", json_opt json_str message)]
  end.

(** [json.dumps(payload)] *)
Definition json_dumps (p : Payload) : string :=
  match p with
  | PayloadUnknown => json_obj [("status", json_str "unknown")]
  | PayloadJob s progress err filename size =>
      json_obj [("status", json_str (status_str s));
                ("progress", json_progress progress);
                ("error", json_opt json_str err);
                ("filename", json_opt json_str filename);
                ("size", json_opt json_int size)]
  end.

(** The text sent for one snapshot. *)
Definition sse_chunk (s : string) : string :=
  "data: " +:+ s +:+ newline +:+ newline.

(** The generator of [events(job_id)], run over the tables it finds at
    its successive polls.  It returns the chunks it yields and whether it
    has left its loop; with no poll left it is still waiting. *)
Fixpoint gen (id : string) (last : option string) (polls : list Jobs)
    : list string * bool :=
  match polls with
  | [] => ([], false)
  | js :: polls' =>
      let payload := poll_payload id js in
      let s := json_dumps payload in
      let changed := negb (bool_decide (Some s = last)) in
      let out := if changed then [sse_chunk s] else [] in
      let last := if changed then Some s else last in
      if payload_terminal payload then (out, true)
      else match gen id last polls' with
           | (rest, closed) => (out ++ rest, closed)
           end
  end.

Definition events (id : string) (polls : list Jobs) : list string * bool :=
  gen id None polls.

End Program.

(** ** Serving a sequence of admission checks *)

(** The checks of a list of requests, each with the time it is made at and
    its client, run one after the other: the answers and the final table. *)
Fixpoint serve (cfg : Config) (rl : RateLimit) (reqs : list (Z * string))
    : list bool * RateLimit :=
  match reqs with
  | [] => ([], rl)
  | (now, ip) :: reqs' =>
      match check_rate_limit cfg now ip rl with
      | (ok, rl') =>
          match serve cfg rl' reqs' with
          | (oks, rl'') => (ok :: oks, rl'')
          end
      end
  end.

(** How many of the requests of client [ip] were accepted. *)
Fixpoint accepted_of (ip : string) (reqs : list (Z * string)) (oks : list bool) : nat :=
  match reqs, oks with
  | (_, ip') :: reqs', ok :: oks' =>
      (if bool_decide (ip' = ip) && ok then 1 else 0)%nat + accepted_of ip reqs' oks'
  | _, _ => 0%nat
  end.

(** ** Notions used in the statements *)

(** No list on record is longer than the ceiling. *)
Definition within_ceiling (cfg : Config) (rl : RateLimit) : Prop :=
  ∀ ip times, rl !! ip = Some times →
    Z.of_nat (length times) ≤ RATE_LIMIT_COUNT cfg.

(** A walk [queued], [running], then [ready] or [error], or a beginning of
    one. *)
Definition status_walk (l : list Status) : Prop :=
  l `prefix_of` [queued; running; ready] ∨ l `prefix_of` [queued; running; error].

Definition terminal (s : Status) : Prop := s = ready ∨ s = error.

(** A record that is ready names its file. *)
Definition ready_has_file (j : Job) : Prop :=
  job_status j = ready →
  ∃ p, job_filepath j = Some p ∧ Str.truthy p = true ∧
       job_filename j = Some (Str.basename p) ∧ is_Some (job_size j).

(** [msg] contains [k], letter case apart. *)
Definition contains_ignoring_case (msg k : string) : Prop :=
  ∃ pre mid post, msg = pre +:+ mid +:+ post ∧ Str.lower mid = Str.lower k.

(** The record a job has once it is ready. *)
Definition ready_job (produced : string) (getsize : option Z) (j : Job) : Job :=
  with_size getsize
    (with_filename (Str.basename produced)
       (with_filepath produced (with_status ready j))).

(** The engine call with its three [except] clauses, as it stands in
    [finish_download_job]. *)
Definition engine_try (id : string) (env : EngineRun) : Block bool :=
  try_except (raise_if (run_engine env) ;; ret true) (engine_clauses id).

(** What a worker can leave behind when it finds the record [j] of its job:
    nothing, a failure, or a result. *)
Definition finish_outcome (id : string) (js : Jobs) (j : Job)
    (res : Jobs * list Event * (Exn + unit)) : Prop :=
  (∃ r, res = (js, [], r)) ∨
  (∃ text, res = (<[id := with_error text (with_status error j)]> js,
                  [StatusWrite id error], inr tt)) ∨
  (∃ produced getsize, Str.truthy produced = true ∧
     res = (<[id := ready_job produced getsize j]> js,
            [StatusWrite id ready], inr tt)).

(** What the status assignments to the record of a job must be, given
    where the worker of the job stands. *)
Definition thread_history (pc : option WorkerPC) (l : list Status) : Prop :=
  match pc with
  | None => l = []
  | Some (Spawned _) => l = [queued]
  | Some (InEngine _) => l = [queued; running]
  | Some Exited => l ≠ [] ∧ status_walk l
  end.

(** The error text contains one of the login keywords, letter case apart. *)
Definition is_login_error (msg : string) : Prop :=
  ∃ k, k ∈ login_keywords ∧ contains_ignoring_case msg k.

(** The job table holds only records that name their file when ready. *)
Definition ready_jobs_have_file (js : Jobs) : Prop :=
  ∀ id j, js !! id = Some j → ready_has_file j.

(** The number of records of client [ip] that are queued or running. *)
Definition active_jobs (ip : string) (js : Jobs) : nat :=
  length (filter (λ j, is_active ip j = true) (map_to_list js).*2).

(** The host is [instagram.com] or a subdomain of it. *)
Definition instagram_host (host : string) : Prop :=
  host = "instagram.com" ∨ ∃ sub, host = sub +:+ ".instagram.com".

(** The path has a post, reel or tv marker. *)
Definition instagram_path (path : string) : Prop :=
  ∃ k, k ∈ ["/reel"; "/reels"; "/p/"; "/tv/"] ∧
       ∃ pre post, path = pre +:+ k +:+ post.

(** A URL that fails the test of [is_valid_instagram_url] on its [netloc]
    or on its path.  The test reads the whole lower-cased [netloc] of the
    parsed URL, user information and port included, not the host name in
    it.  A URL that cannot be parsed fails as well. *)
Definition netloc_or_path_fails (urlparse : string → option ParseResult)
    (url : string) : Prop :=
  ∀ parsed, urlparse url = Some parsed →
    ¬ instagram_host (Str.lower (netloc parsed)) ∨
    ¬ instagram_path (Str.lower (path parsed)).

(** The request passes the key check of [start]: no key is configured, or
    the key sent, in the header or else in the body, is the configured
    one. *)
Definition api_key_accepted (cfg : Config) (req : Request) : Prop :=
  Str.truthy_opt (API_KEY cfg) = false ∨
  (Str.truthy_opt (Str.or_else (req_header_api_key req) (req_api_key req)) = true ∧
   Str.or_else (req_header_api_key req) (req_api_key req) = API_KEY cfg).

(** No two neighbours of the list are equal. *)
Fixpoint no_repeat (l : list string) : Prop :=
  match l with
  | a :: l' => match l' with b :: _ => a ≠ b | [] => True end ∧ no_repeat l'
  | [] => True
  end.

(** What a poll of the table finds when the stream must end: no record of
    the job, or a record that is ready or failed. *)
Definition observed_terminal (id : string) (js : Jobs) : Prop :=
  js !! id = None ∨
  ∃ j, js !! id = Some j ∧ (job_status j = ready ∨ job_status j = error).

(** An entry of the root that a sweep with this cutoff removes. *)
Definition old_entry (root : Root) (cutoff : Z) (name : string) : Prop :=
  ∃ e, root !! name = Some e ∧ mtime e < cutoff.

(** The record [j] belongs to the entry [name] of the root: the entry is
    its working directory, and its result, if any, lies in it. *)
Definition job_in_entry (cfg : Config) (name : string) (j : Job) : Prop :=
  job_temp_dir j = Some (temp_dir_of cfg name) ∧
  (job_filepath j = None ∨
   ∃ rest, job_filepath j = Some (temp_dir_of cfg name +:+ "/" +:+ rest)).

(** The root holds working directories of jobs only. *)
Definition holds_job_dirs (root : Root) : Prop :=
  ∀ name, is_Some (root !! name) → is_uuid_hex name = true.

(** The directory part that [path_join] puts before a relative name. *)
Definition dir_prefix (a : string) : string :=
  if bool_decide (a = EmptyString) || Str.endswith a "/" then a else a +:+ "/".

(** ** Library functions, for running the program on examples

    The properties below hold for every [urlparse] and every [float_repr].
    To run the program on concrete requests, [urlparse_model] splits a URL
    as [urllib.parse.urlparse] does for URLs without control characters,
    brackets or a malformed scheme, and [float_repr_model] writes a
    non-negative number with one decimal. *)

Fixpoint split_at (stop : ascii → bool) (s : string) : string * string :=
  match s with
  | EmptyString => (EmptyString, EmptyString)
  | String c s' =>
      if stop c then (EmptyString, s)
      else match split_at stop s' with (a, b) => (String c a, b) end
  end.

Definition is_letter (c : ascii) : bool :=
  let n := Ascii.nat_of_ascii c in
  ((65 <=? n)%nat && (n <=? 90)%nat) || ((97 <=? n)%nat && (n <=? 122)%nat).

Definition is_scheme_char (c : ascii) : bool :=
  let n := Ascii.nat_of_ascii c in
  is_letter c || ((48 <=? n)%nat && (n <=? 57)%nat)
  || bool_decide (c = "+"%char) || bool_decide (c = "-"%char)
  || bool_decide (c = "."%char).

Fixpoint all_chars (p : ascii → bool) (s : string) : bool :=
  match s with
  | EmptyString => true
  | String c s' => p c && all_chars p s'
  end.

Definition split_scheme (url : string) : string * string :=
  match split_at (λ c, bool_decide (c = ":"%char)) url with
  | (String c pre, String _ rest) =>
      if is_letter c && all_chars is_scheme_char pre
      then (Str.lower (String c pre), rest) else (EmptyString, url)
  | _ => (EmptyString, url)
  end.

Definition split_netloc (rest : string) : string * string :=
  match rest with
  | String "/" (String "/" rest') =>
      split_at (λ c, bool_decide (c = "/"%char) || bool_decide (c = "?"%char)
                     || bool_decide (c = "#"%char)) rest'
  | _ => (EmptyString, rest)
  end.

(** The path without the parameters of its last segment. *)
Fixpoint strip_params (s : string) : string :=
  match s with
  | EmptyString => EmptyString
  | String c s' =>
      if Str.contains s' "/" then String c (strip_params s')
      else if bool_decide (c = ";"%char) then EmptyString
      else String c (strip_params s')
  end.

Definition urlparse_model (url : string) : option ParseResult :=
  match split_scheme url with
  | (sch, rest) =>
      match split_netloc rest with
      | (net, rest) =>
          let p := (split_at (λ c, bool_decide (c = "?"%char)
                                   || bool_decide (c = "#"%char)) rest).1 in
          Some (mkParseResult sch net (strip_params p))
      end
  end.

Definition float_repr_model (q : Q) : string :=
  let tenths := (Qnum q * 10) / Z.pos (Qden q) in
  pretty (tenths / 10) +:+ "." +:+ pretty (tenths mod 10).

(** ** Sample requests and runs *)

Definition sample_request (url : string) (ip : string) : Request :=
  {| req_url := Some url; req_format := None; req_proxy := None;
     req_api_key := None; req_header_api_key := None;
     req_forwarded_for := None; req_remote_addr := Some ip |}.

Definition reel_url : string := "https://www.instagram.com/reel/Cabc123/".

Definition sample_id : string := "0123456789abcdef0123456789abcdef".

Definition sample_env_ok : EngineRun :=
  {| run_setup := None; run_engine := None;
     run_walk := [("/app/downloads/0123456789abcdef0123456789abcdef", ["Cabc123.mp4"])];
     run_getsize := Some 1048576 |}.

(** A job from its submission to its result. *)
Definition sample_actions : list Action :=
  [ AStart (sample_request reel_url "10.0.0.1") 100 100 sample_id;
    AWorkerBegin sample_id true;
    AHook sample_id (mkHookInfo (Some "downloading") (Some 200) None (Some 50) (Some 3) None);
    AWorkerFinish sample_id sample_env_ok ].

(** The engine fails because the [ffmpeg] binary cannot be started. *)
Definition sample_env_no_ffmpeg : EngineRun :=
  {| run_setup := None;
     run_engine := Some (mkExn FileNotFoundError
                           "[Errno 2] No such file or directory: 'ffmpeg'");
     run_walk := [];
     run_getsize := None |}.

(** The engine is refused by the server. *)
Definition sample_env_forbidden : EngineRun :=
  {| run_setup := None;
     run_engine := Some (mkExn DownloadError
                           "ERROR: [Instagram] Cabc123: HTTP Error 403 Forbidden");
     run_walk := [];
     run_getsize := None |}.

(** Three submissions of one client, none of them taken up by its worker. *)
Definition three_starts : list Action :=
  [ AStart (sample_request reel_url "10.0.0.1") 100 100 "00000000000000000000000000000001";
    AStart (sample_request reel_url "10.0.0.1") 101 101 "00000000000000000000000000000002";
    AStart (sample_request reel_url "10.0.0.1") 102 102 "00000000000000000000000000000003" ].

Definition fourth_id : string := "00000000000000000000000000000004".

(** A deployment with [INSTAWEB_API_KEY] set. *)
Definition keyed_config : Config :=
  {| API_KEY := Some "s3cret";
     RATE_LIMIT_COUNT := 5;
     RATE_LIMIT_WINDOW := 60 * 60;
     RATE_LIMIT_CONCURRENT := 3;
     BASE_DOWNLOAD_DIR := "/app/downloads" |}.

Definition foreign_url : string := "https://example.com/foo".

Definition old_id : string := "aaaaaaaaaaaaaaaaaaaaaaaaaaaaaaaa".
Definition young_id : string := "bbbbbbbbbbbbbbbbbbbbbbbbbbbbbbbb".

Definition sample_root : Root :=
  {[ old_id := mkFsEntry 0 true; young_id := mkFsEntry 9000 true ]}.

Definition sample_job (id : string) (s : Status) (filepath : option string) : Job :=
  {| job_id := id; job_status := s; job_progress := ProgStarted;
     job_created_at := 0; job_format := "mp4"; job_url := reel_url;
     job_ip := "10.0.0.1"; job_proxy := false;
     job_temp_dir := Some (temp_dir_of default_config id);
     job_filepath := filepath;
     job_filename := Str.basename <$> filepath;
     job_size := (λ _, Some 7) <$> filepath; job_error := None |}.

Definition sample_jobs : Jobs :=
  {[ old_id := sample_job old_id ready
                 (Some (temp_dir_of default_config old_id +:+ "/" +:+ "Cold.mp4"));
     young_id := sample_job young_id running None ]}.

(** Five requests of one client within five seconds, and one of another. *)
Definition burst : list (Z * string) :=
  [ (0, "10.0.0.1"); (1, "10.0.0.1"); (2, "10.0.0.2");
    (2, "10.0.0.1"); (3, "10.0.0.1"); (4, "10.0.0.1") ].

(** A job whose worker is inside the engine call. *)
Definition engine_actions : list Action :=
  [ AStart (sample_request reel_url "10.0.0.1") 100 100 sample_id;
    AWorkerBegin sample_id true ].

(** A root with a stray old file whose name begins the name of a working
    directory, and the finished job of that directory. *)
Definition stray_root : Root :=
  {[ "b" := mkFsEntry 0 false; young_id := mkFsEntry 9000 true ]}.

Definition stray_jobs : Jobs :=
  {[ young_id := sample_job young_id ready
                   (Some (temp_dir_of default_config young_id +:+ "/" +:+ "Cnew.mp4")) ]}.

(** A deployment whose ceiling is zero. *)
Definition closed_config : Config :=
  {| API_KEY := None;
     RATE_LIMIT_COUNT := 0;
     RATE_LIMIT_WINDOW := 60 * 60;
     RATE_LIMIT_CONCURRENT := 3;
     BASE_DOWNLOAD_DIR := "/app/downloads" |}.

(** A table with two running jobs of one client and one of another. *)
Definition busy_jobs : Jobs :=
  {[ old_id := sample_job old_id running None;
     young_id := sample_job young_id running None;
     sample_id := with_status running
                    (mkJob sample_id queued ProgQueued 0 "mp4" reel_url "10.0.0.2"
                       false None None None None None) ]}.

(** The last character of a string. *)
Fixpoint last_char (s : string) : option ascii :=
  match s with
  | EmptyString => None
  | String c EmptyString => Some c
  | String _ s' => last_char s'
  end.

(** The record that [start] makes for an accepted request. *)
Definition new_job (req : Request) (url : string) (created_at : Z)
    (uuid : string) : Job :=
  {| job_id := uuid; job_status := queued; job_progress := ProgQueued;
     job_created_at := created_at;
     job_format := default "mp4" (req_format req);
     job_url := url; job_ip := get_client_ip req;
     job_proxy := Str.truthy_opt (req_proxy req);
     job_temp_dir := None; job_filepath := None; job_filename := None;
     job_size := None; job_error := None |}.

(** The listing has a file whose lower-cased name ends with [ext]. *)
Definition listing_has (ext : string) (walk : list (string * list string)) : Prop :=
  ∃ root files f, (root, files) ∈ walk ∧ f ∈ files ∧
                  Str.endswith (Str.lower f) ext = true.

(** The job an action of a worker belongs to. *)
Definition worker_of (a : Action) : option string :=
  match a with
  | AWorkerBegin id _ | AHook id _ | AWorkerFinish id _ => Some id
  | AStart _ _ _ _ | AJanitorPrune _ => None
  end.

(** The texts a failed job can carry. *)
Definition error_texts : list string :=
  [LOGIN_REQUIRED_TEXT; DOWNLOAD_FAILED_TEXT; OUTPUT_MISSING_TEXT; SERVER_ERROR_TEXT].

(** What holds of the record [j] of job [id], given where the worker of
    the job stands. *)
Definition record_ok (cfg : Config) (pc : option WorkerPC) (id : string)
    (j : Job) : Prop :=
  job_id j = id ∧
  (is_Some (job_error j) ↔ job_status j = error) ∧
  (is_Some (job_filepath j) ↔ job_status j = ready) ∧
  (∀ t, job_error j = Some t → t ∈ error_texts) ∧
  match pc with
  | None => False
  | Some (Spawned _) => job_status j = queued ∧ job_temp_dir j = None
  | Some (InEngine _) =>
      job_status j = running ∧ job_temp_dir j = Some (temp_dir_of cfg id)
  | Some Exited => True
  end.

(** As [finish_outcome], with the texts of a failure named. *)
Definition finish_outcome_texts (id : string) (js : Jobs) (j : Job)
    (res : Jobs * list Event * (Exn + unit)) : Prop :=
  (∃ r, res = (js, [], r)) ∨
  (∃ text, text ∈ error_texts ∧
     res = (<[id := with_error text (with_status error j)]> js,
            [StatusWrite id error], inr tt)) ∨
  (∃ produced getsize, Str.truthy produced = true ∧
     res = (<[id := ready_job produced getsize j]> js,
            [StatusWrite id ready], inr tt)).

(** The chunk a client has received last: the last one of [chunks], or
    [before] when there is none. *)
Definition last_received (chunks : list string) (before : option string)
    : option string :=
  match last chunks with Some c => Some c | None => before end.

(** A request like [req], sent with the header [X-Forwarded-For: f]. *)
Definition with_forwarded_for (f : string) (req : Request) : Request :=
  {| req_url := req_url req; req_format := req_format req;
     req_proxy := req_proxy req; req_api_key := req_api_key req;
     req_header_api_key := req_header_api_key req;
     req_forwarded_for := Some f; req_remote_addr := req_remote_addr req |}.

(** ** Cookie files *)

Definition tab : string := String "009"%char EmptyString.

(** [s.split(sep)] for a separator of one character. *)
Fixpoint split_char (sep : ascii) (s : string) : list string :=
  match s with
  | EmptyString => [EmptyString]
  | String c s' =>
      if bool_decide (c = sep) then EmptyString :: split_char sep s'
      else match split_char sep s' with
           | field :: fields => String c field :: fields
           | [] => [String c EmptyString]
           end
  end.

(** The words of [s], with the word that [s] begins with, if any, apart. *)
Fixpoint split_words (s : string) : option string * list string :=
  match s with
  | EmptyString => (None, [])
  | String c s' =>
      let (word, words) := split_words s' in
      if Str.is_space c then (None, option_list word ++ words)
      else (Some (String c (default EmptyString word)), words)
  end.

(** [s.split()] *)
Definition split_whitespace (s : string) : list string :=
  let (word, words) := split_words s in option_list word ++ words.

(** The body of the loop of [_parse_cookie_names] for one line: the name
    that the line adds, if any. *)
Definition cookie_name_of_line (raw : string) : option string :=
  let raw := Str.strip raw in
  if negb (Str.truthy raw) || Str.startswith raw "#" then None
  else
    let parts := if Str.contains raw tab then split_char "009" raw
                 else split_whitespace raw in
    if bool_decide (7 ≤ length parts)%nat then parts !! 5%nat else None.

(** [_parse_cookie_names(path)], on the lines that the file at [path]
    yields; a file that cannot be opened yields none, and one that fails
    while it is read yields the lines before the failure. *)
Definition _parse_cookie_names (lines : list string) : gset string :=
  foldl (λ names raw,
           match cookie_name_of_line raw with
           | Some name => names ∪ {[ name ]}
           | None => names
           end) ∅ lines.

(** [sep.join(fields)] *)
Fixpoint join (sep : string) (fields : list string) : string :=
  match fields with
  | [] => EmptyString
  | [field] => field
  | field :: fields' => field +:+ sep +:+ join sep fields'
  end.

(** Fields that make a line: none has a tab, the first one begins with a
    character that is neither blank nor [#], the last one ends with a
    character that is not blank. *)
Definition line_fields (fields : list string) : Prop :=
  Forall (λ field, all_chars (λ c, negb (bool_decide (c = "009"%char))) field = true)
         fields ∧
  (∃ c rest, head fields = Some (String c rest) ∧
             Str.is_space c = false ∧ c ≠ "#"%char) ∧
  (∃ field c, last fields = Some field ∧ last_char field = Some c ∧
              Str.is_space c = false).

(** The fields of a line of a cookie file in the Netscape format: domain,
    subdomain flag, path, secure flag, expiry, name, value, and possibly
    more. *)
Definition cookie_fields (fields : list string) : Prop :=
  (7 ≤ length fields)%nat ∧ line_fields fields.

Definition sample_cookie_line : string :=
  join tab [".instagram.com"; "TRUE"; "/"; "TRUE"; "1790000000"; "csrftoken"; "abc"]
  +:+ newline.

(** ** The host name of a [netloc]

    [urllib.parse]'s [hostname] of a parse result, which the program does
    not call: the text after the last [@] of the [netloc], up to its first
    colon, or between its brackets if it has any; lower-cased up to a
    [%]. *)

Fixpoint after_last (stop : ascii) (s acc : string) : string :=
  match s with
  | EmptyString => acc
  | String c s' =>
      if bool_decide (c = stop) then after_last stop s' s'
      else after_last stop s' acc
  end.

Definition hostname (netloc : string) : option string :=
  let hostinfo := after_last "@" netloc netloc in
  let host :=
    match (split_at (λ c, bool_decide (c = "["%char)) hostinfo).2 with
    | String _ bracketed =>
        (split_at (λ c, bool_decide (c = "]"%char)) bracketed).1
    | EmptyString => (split_at (λ c, bool_decide (c = ":"%char)) hostinfo).1
    end in
  if Str.truthy host then
    match split_at (λ c, bool_decide (c = "%"%char)) host with
    | (name, zone) => Some (Str.lower name +:+ zone)
    end
  else None.

(** A URL whose host is not Instagram's and whose [netloc] ends like it. *)
Definition port_suffix_url : string := "https://evil.com:80.instagram.com/p/x/".

(** * Properties *)

(** ** Strings *)

Module StrFacts.
Import Str.
Local Arguments String.append !_ _ / : simpl nomatch.

Lemma app_assoc (a b c : string) : (a +:+ b) +:+ c = a +:+ b +:+ c.
Proof. induction a as [|x a IH]; simpl; [done | by rewrite IH]. Qed.

Lemma app_length (a b : string) :
  String.length (a +:+ b) = (String.length a + String.length b)%nat.
Proof. induction a as [|x a IH]; simpl; [done | by rewrite IH]. Qed.

Lemma lower_app (a b : string) : lower (a +:+ b) = lower a +:+ lower b.
Proof. induction a as [|x a IH]; simpl; [done | by rewrite IH]. Qed.

Lemma startswith_spec (s p : string) :
  startswith s p = true ↔ ∃ t, s = p +:+ t.
Proof.
  revert s. induction p as [|a p IH]; intros s; simpl.
  - split; [intros _; by exists s | done].
  - destruct s as [|b s].
    + split; [done | intros [t Ht]; discriminate].
    + rewrite andb_true_iff, bool_decide_eq_true, IH. split.
      * intros [-> [t ->]]. by exists t.
      * intros [t Ht]. injection Ht as -> ->. eauto.
Qed.

Lemma endswith_spec (s p : string) :
  endswith s p = true ↔ ∃ t, s = t +:+ p.
Proof.
  induction s as [|c s IH]; simpl.
  - rewrite orb_false_r, bool_decide_eq_true. split.
    + intros <-. by exists EmptyString.
    + intros [[|x t] Ht]; simpl in Ht; [done | discriminate].
  - rewrite orb_true_iff, bool_decide_eq_true, IH. split.
    + intros [<- | [t ->]]; [by exists EmptyString | by exists (String c t)].
    + intros [[|x t] Ht]; simpl in Ht; [by left |].
      injection Ht as -> ->. right. by exists t.
Qed.

Lemma contains_spec (s p : string) :
  contains s p = true ↔ ∃ a b, s = a +:+ p +:+ b.
Proof.
  induction s as [|c s IH].
  - cbn [contains]. rewrite orb_false_r, startswith_spec. split.
    + intros [t Ht]. by exists EmptyString, t.
    + intros [[|x a] [b Hb]]; simpl in Hb; [by exists b | discriminate].
  - cbn [contains]. rewrite orb_true_iff, startswith_spec, IH. split.
    + intros [[t Ht] | (a & b & ->)]; [by exists EmptyString, t |].
      by exists (String c a), b.
    + intros [[|x a] [b Hb]]; simpl in Hb; [left; by exists b |].
      injection Hb as -> ->. right. by exists a, b.
Qed.

Lemma startswith_app (a s t : string) :
  startswith (a +:+ s) (a +:+ t) = startswith s t.
Proof.
  induction a as [|x a IH]; simpl; [done |].
  by rewrite bool_decide_eq_true_2, IH.
Qed.

(** A string starts with another of the same length only if it is that
    string. *)
Lemma startswith_same_length (a b rest : string) :
  String.length a = String.length b →
  startswith (a +:+ rest) b = true → a = b.
Proof.
  revert b. induction a as [|x a IH]; intros [|y b] Hlen; simpl in *;
    try done.
  rewrite andb_true_iff, bool_decide_eq_true. intros [-> H].
  f_equal. apply IH; [lia | done].
Qed.

Lemma app_inv_tail (a b t : string) : a +:+ t = b +:+ t → a = b.
Proof.
  revert b. induction a as [|x a IH]; intros [|y b] H; simpl in *.
  - done.
  - apply (f_equal String.length) in H. simpl in H.
    rewrite app_length in H. lia.
  - apply (f_equal String.length) in H. simpl in H.
    rewrite app_length in H. lia.
  - injection H as -> H. f_equal. by apply IH.
Qed.

End StrFacts.

(** ** Rate limiter *)

Section RateLimiter.

Context (cfg : Config).

(** The timestamps of [times] that are less than a window older than
    [now]: what the list comprehension of [check_rate_limit] keeps. *)
Local Abbreviation recent now times :=
  (filter (λ t, now - t < RATE_LIMIT_WINDOW cfg) times).
Local Abbreviation stored rl ip := (default [] (rl !! ip)).

Lemma check_rate_limit_rejects now ip (rl : RateLimit) :
  (check_rate_limit cfg now ip rl).1 = false ↔
  RATE_LIMIT_COUNT cfg ≤ Z.of_nat (length (recent now (stored rl ip))).
Proof.
  unfold check_rate_limit. case_bool_decide; simpl; naive_solver.
Qed.

Lemma check_rate_limit_accepts now ip (rl : RateLimit) :
  (check_rate_limit cfg now ip rl).1 = true ↔
  Z.of_nat (length (recent now (stored rl ip))) < RATE_LIMIT_COUNT cfg.
Proof.
  unfold check_rate_limit. case_bool_decide; simpl; split; (done || lia).
Qed.

Lemma check_rate_limit_rejected_table now ip (rl : RateLimit) :
  (check_rate_limit cfg now ip rl).1 = false →
  (check_rate_limit cfg now ip rl).2 = rl.
Proof. unfold check_rate_limit. by case_bool_decide. Qed.

Lemma check_rate_limit_accepted_table now ip (rl : RateLimit) :
  (check_rate_limit cfg now ip rl).1 = true →
  (check_rate_limit cfg now ip rl).2
  = <[ip := recent now (stored rl ip) ++ [now]]> rl.
Proof. unfold check_rate_limit. by case_bool_decide. Qed.

(** Timestamps that are recent at [now] were recent at any earlier time. *)
Lemma recent_earlier now t (times : list Z) :
  t ≤ now → recent now (recent t times) = recent now times.
Proof.
  intros Hle. rewrite list_filter_filter. apply list_filter_iff.
  intros x. lia.
Qed.

(** Within one window that ends at [now], every accepted request of a
    client stays on record. *)
Lemma serve_keeps_accepted now ip reqs : ∀ rl : RateLimit,
  Forall (λ r, r.1 ≤ now ∧ now - r.1 < RATE_LIMIT_WINDOW cfg) reqs →
  (length (recent now (stored rl ip)) + accepted_of ip reqs (serve cfg rl reqs).1
   ≤ length (recent now (stored (serve cfg rl reqs).2 ip)))%nat.
Proof.
  induction reqs as [|[t ip'] reqs IH]; intros rl Hall; simpl.
  - lia.
  - apply Forall_cons in Hall as [[Hle Hwin] Hall]. simpl in Hle, Hwin.
    destruct (check_rate_limit cfg t ip' rl) as [ok rl1] eqn:Hchk.
    specialize (IH rl1 Hall).
    destruct (serve cfg rl1 reqs) as [oks rl2] eqn:Hserve. simpl in *.
    assert (Hok : (check_rate_limit cfg t ip' rl).1 = ok) by by rewrite Hchk.
    assert (Hrl : (check_rate_limit cfg t ip' rl).2 = rl1) by by rewrite Hchk.
    destruct ok.
    + rewrite check_rate_limit_accepted_table in Hrl by done. subst rl1.
      case_bool_decide as Hip; simpl.
      * subst ip'. rewrite lookup_insert_eq in IH. simpl in IH.
        rewrite filter_app, recent_earlier in IH by done.
        rewrite filter_cons_True, length_app in IH by done. simpl in IH. lia.
      * rewrite lookup_insert_ne in IH by done. lia.
    + rewrite check_rate_limit_rejected_table in Hrl by done. subst rl1.
      rewrite andb_false_r. lia.
Qed.

Lemma within_ceiling_empty : within_ceiling cfg ∅.
Proof. intros ip times. by rewrite lookup_empty. Qed.

Lemma check_rate_limit_within_ceiling now ip (rl : RateLimit) :
  within_ceiling cfg rl → within_ceiling cfg (check_rate_limit cfg now ip rl).2.
Proof.
  intros Hrl. unfold check_rate_limit. case_bool_decide as Hc; simpl; [done |].
  intros ip' times. destruct (decide (ip = ip')) as [<- | Hne].
  - rewrite lookup_insert_eq. intros [= <-]. rewrite length_app. simpl. lia.
  - rewrite lookup_insert_ne by done. apply Hrl.
Qed.

End RateLimiter.

(** C3. An admission check drops the timestamps of the client that lie
    before the window, the window being the last [RATE_LIMIT_WINDOW]
    seconds with its far end left out: it keeps those less than a window
    old and drops those whose age has reached the window.  It rejects when
    the ceiling is at most the number kept, and otherwise accepts and
    records the kept timestamps followed by the current one, leaving the
    other clients alone.  Hence: when as many requests of a client as the
    ceiling have been accepted in a window, the next request in that
    window is rejected; and once the window has elapsed since every
    recorded timestamp, the next request is accepted (the ceiling being
    positive). *)
Theorem check_rate_limit_sliding_window (cfg : Config) :
  (∀ now ip (rl : RateLimit),
     let kept := filter (λ t, now - t < RATE_LIMIT_WINDOW cfg) (default [] (rl !! ip)) in
     (∀ t, t ∈ kept ↔ t ∈ default [] (rl !! ip) ∧ ¬ RATE_LIMIT_WINDOW cfg ≤ now - t) ∧
     ((check_rate_limit cfg now ip rl).1 = false ↔
        RATE_LIMIT_COUNT cfg ≤ Z.of_nat (length kept)) ∧
     ((check_rate_limit cfg now ip rl).1 = true →
        (check_rate_limit cfg now ip rl).2 !! ip = Some (kept ++ [now]) ∧
        ∀ ip', ip' ≠ ip → (check_rate_limit cfg now ip rl).2 !! ip' = rl !! ip')) ∧
  (∀ now ip (rl : RateLimit) reqs,
     Forall (λ r, r.1 ≤ now ∧ now - r.1 < RATE_LIMIT_WINDOW cfg) reqs →
     Z.of_nat (accepted_of ip reqs (serve cfg rl reqs).1) = RATE_LIMIT_COUNT cfg →
     (check_rate_limit cfg now ip (serve cfg rl reqs).2).1 = false) ∧
  (∀ now ip (rl : RateLimit),
     0 < RATE_LIMIT_COUNT cfg →
     Forall (λ t, RATE_LIMIT_WINDOW cfg ≤ now - t) (default [] (rl !! ip)) →
     (check_rate_limit cfg now ip rl).1 = true).
Proof.
  split; [|split].
  - intros now ip rl kept. split; [|split].
    + intros t. unfold kept. rewrite list_elem_of_filter. split.
      * intros [H1 H2]. split; [done | lia].
      * intros [H1 H2]. split; [lia | done].
    + apply check_rate_limit_rejects.
    + intros Hok. rewrite check_rate_limit_accepted_table by done. split.
      * by rewrite lookup_insert_eq.
      * intros ip' Hne. by rewrite lookup_insert_ne.
  - intros now ip rl reqs Hall Hn.
    apply check_rate_limit_rejects.
    pose proof (serve_keeps_accepted cfg now ip reqs rl Hall). lia.
  - intros now ip rl Hpos Hold.
    apply check_rate_limit_accepts.
    replace (filter _ _) with (@nil Z); [simpl; lia |].
    symmetry. induction Hold as [|t times Ht Hold IH]; [done |].
    rewrite filter_cons_False by lia. done.
Qed.

(** ** The locked blocks *)

Section Blocks.

Implicit Types (js : Jobs) (id : string) (j : Job).

Local Arguments mentions_login : simpl never.

Lemma setitem_Some id f evs js j :
  js !! id = Some j → setitem id f evs js = (<[id := f j]> js, evs, inr tt).
Proof. unfold setitem. by intros ->. Qed.

Lemma setitem_None id f evs js :
  js !! id = None → setitem id f evs js = (js, [], inl (mkExn KeyError id)).
Proof. unfold setitem. by intros ->. Qed.

Lemma mark_running_Some cfg id js j :
  js !! id = Some j →
  mark_running cfg id js =
    (<[id := with_progress ProgStarted
               (with_status running (with_temp_dir (temp_dir_of cfg id) j))]> js,
     [StatusWrite id running], inr tt).
Proof.
  intros Hj. unfold mark_running, set_status, bind.
  rewrite (setitem_Some _ _ _ _ j) by done.
  erewrite setitem_Some by apply lookup_insert_eq.
  erewrite setitem_Some by apply lookup_insert_eq.
  by rewrite !insert_insert_eq.
Qed.

Lemma mark_running_None cfg id js :
  js !! id = None →
  mark_running cfg id js = (js, [], inl (mkExn KeyError id)).
Proof.
  intros Hj. unfold mark_running, bind. by rewrite setitem_None.
Qed.

Lemma set_error_Some id text js j :
  js !! id = Some j →
  set_error id text js =
    (<[id := with_error text (with_status error j)]> js,
     [StatusWrite id error], inr tt).
Proof.
  intros Hj. unfold set_error, set_status, bind.
  rewrite (setitem_Some _ _ _ _ j) by done.
  erewrite setitem_Some by apply lookup_insert_eq.
  by rewrite !insert_insert_eq.
Qed.

Lemma set_error_None id text js :
  js !! id = None → set_error id text js = (js, [], inl (mkExn KeyError id)).
Proof.
  intros Hj. unfold set_error, set_status, bind. by rewrite setitem_None.
Qed.

Lemma set_ready_Some id produced getsize js j :
  js !! id = Some j →
  set_ready id produced getsize js =
    (<[id := ready_job produced getsize j]> js, [StatusWrite id ready], inr tt).
Proof.
  intros Hj. unfold set_ready, set_status, bind.
  rewrite (setitem_Some _ _ _ _ j) by done.
  do 3 (erewrite setitem_Some by apply lookup_insert_eq).
  by rewrite !insert_insert_eq.
Qed.

Lemma set_ready_None id produced getsize js :
  js !! id = None →
  set_ready id produced getsize js = (js, [], inl (mkExn KeyError id)).
Proof.
  intros Hj. unfold set_ready, set_status, bind. by rewrite setitem_None.
Qed.

Lemma engine_try_None id env js :
  js !! id = None →
  engine_try id env js = (js, [], inr true) ∨
  ∃ e, engine_try id env js = (js, [], inl e).
Proof.
  intros Hj. unfold engine_try, try_except, bind, raise_if.
  destruct (run_engine env) as [[c text]|]; [|by left].
  right. unfold raise.
  destruct c; cbn [select_clause engine_clauses catches exn_class
    bool_decide decide_rel negb]; simpl;
    unfold bind; rewrite ?set_error_None by exact Hj; eauto.
Qed.

Lemma engine_try_Some id env js j :
  js !! id = Some j →
  engine_try id env js = (js, [], inr true) ∨
  (∃ e, engine_try id env js = (js, [], inl e)) ∨
  ∃ text, engine_try id env js =
    (<[id := with_error text (with_status error j)]> js,
     [StatusWrite id error], inr false).
Proof.
  intros Hj. unfold engine_try, try_except, bind, raise_if.
  destruct (run_engine env) as [[c text]|]; [|by left].
  right. unfold raise.
  destruct c; simpl; unfold bind;
    rewrite ?(set_error_Some _ _ _ j) by exact Hj; eauto.
Qed.

Lemma finish_download_job_unfold id fmt env js :
  finish_download_job id fmt env js =
  try_except
    (raise_if (run_setup env) ;;
     continue <- engine_try id env ;;
     if negb continue then ret tt else
     let produced := walk_search (run_walk env) (final_ext fmt) None in
     if negb (Str.truthy_opt produced) then set_error id OUTPUT_MISSING_TEXT
     else set_ready id (default EmptyString produced) (run_getsize env))
    [ (ExceptException, λ e, set_error id SERVER_ERROR_TEXT) ] js.
Proof. done. Qed.

Lemma outer_clause_None id js (e : Exn) :
  js !! id = None →
  ∃ r,
    match select_clause
            [(ExceptException, λ _ : Exn, set_error id SERVER_ERROR_TEXT)] e with
    | Some h => match h e js with (js2, ev2, r) => (js2, [] ++ ev2, r) end
    | None => (js, [], inl e)
    end = (js, [], r).
Proof.
  intros Hj. simpl. destruct (negb _); [|eauto].
  rewrite set_error_None by exact Hj. eauto.
Qed.

Lemma outer_clause_Some id js j (e : Exn) :
  js !! id = Some j →
  finish_outcome id js j
    match select_clause
            [(ExceptException, λ _ : Exn, set_error id SERVER_ERROR_TEXT)] e with
    | Some h => match h e js with (js2, ev2, r) => (js2, [] ++ ev2, r) end
    | None => (js, [], inl e)
    end.
Proof.
  intros Hj. simpl. destruct (negb _); [|left; eauto].
  rewrite (set_error_Some _ _ _ j) by exact Hj. right. left. eauto.
Qed.

(** With the record gone, the worker changes nothing. *)
Lemma finish_download_job_None id fmt env js :
  js !! id = None →
  ∃ r, finish_download_job id fmt env js = (js, [], r).
Proof.
  intros Hj. rewrite finish_download_job_unfold.
  unfold try_except, bind, raise_if.
  destruct (run_setup env) as [e0|]; [by apply outer_clause_None |].
  unfold ret at 1.
  destruct (engine_try_None id env js Hj) as [-> | [e ->]];
    [| by apply outer_clause_None].
  cbn [negb]. destruct (negb (Str.truthy_opt _)).
  - rewrite set_error_None by exact Hj. by apply outer_clause_None.
  - rewrite set_ready_None by exact Hj. by apply outer_clause_None.
Qed.

(** With the record there, the worker makes at most one status
    assignment, [error] or [ready], and a ready record has its file. *)
Lemma finish_download_job_Some id fmt env js j :
  js !! id = Some j →
  finish_outcome id js j (finish_download_job id fmt env js).
Proof.
  intros Hj. rewrite finish_download_job_unfold.
  unfold try_except, bind, raise_if.
  destruct (run_setup env) as [e0|]; [by apply outer_clause_Some |].
  unfold ret at 1.
  destruct (engine_try_Some id env js j Hj) as [-> | [[e ->] | [text ->]]];
    [| by apply outer_clause_Some | right; left; by exists text].
  cbn [negb].
  destruct (walk_search _ _ _) as [p|] eqn:Hp; cbn [Str.truthy_opt negb default].
  - destruct (Str.truthy p) eqn:Htruthy; cbn [negb].
    + rewrite (set_ready_Some _ _ _ _ j) by exact Hj.
      right. right. by exists p, (run_getsize env).
    + rewrite (set_error_Some _ _ _ j) by exact Hj.
      right. left. by exists OUTPUT_MISSING_TEXT.
  - rewrite (set_error_Some _ _ _ j) by exact Hj.
    right. left. by exists OUTPUT_MISSING_TEXT.
Qed.

(** What the first [except] clause does with an exception of the engine. *)
Lemma finish_download_job_engine_error id fmt env js j de :
  js !! id = Some j →
  run_setup env = None →
  run_engine env = Some de →
  exn_class de ≠ SystemExit →
  finish_download_job id fmt env js =
    (<[id := with_error
               (if mentions_login (exn_text de)
                then LOGIN_REQUIRED_TEXT else DOWNLOAD_FAILED_TEXT)
               (with_status error j)]> js,
     [StatusWrite id error], inr tt).
Proof.
  intros Hj Hsetup Hengine Hcls.
  unfold finish_download_job, try_except, bind, raise_if.
  rewrite Hsetup, Hengine. simpl. unfold raise. simpl.
  rewrite bool_decide_eq_false_2 by done. simpl.
  unfold bind. rewrite (set_error_Some _ _ _ j) by done. done.
Qed.

Lemma yt_progress_hook_cases id d js :
  yt_progress_hook id d js = (js, [], inr tt) ∨
  ∃ j p, js !! id = Some j ∧
    yt_progress_hook id d js = (<[id := with_progress p j]> js, [], inr tt).
Proof.
  unfold yt_progress_hook. destruct (js !! id) as [j|]; [|by left].
  repeat case_bool_decide; eauto.
Qed.

Lemma prune_fold_None path (l : list (string * Job)) : ∀ js id,
  js !! id = None →
  foldl (λ js item, if job_under path item.2 then delete item.1 js else js)
        js l !! id = None.
Proof.
  induction l as [|[k j] l IH]; intros js id Hid; simpl; [done |].
  apply IH. destruct (job_under path j); [|done].
  rewrite lookup_delete_None. by right.
Qed.

Lemma prune_fold_keep path (l : list (string * Job)) : ∀ js id,
  (∀ j, (id, j) ∈ l → job_under path j = false) →
  foldl (λ js item, if job_under path item.2 then delete item.1 js else js)
        js l !! id = js !! id.
Proof.
  induction l as [|[k j] l IH]; intros js id Hl; simpl; [done |].
  rewrite IH by (intros j' Hj'; apply Hl; by right).
  destruct (job_under path j) eqn:Hu; [|done].
  apply lookup_delete_ne. intros ->.
  rewrite Hl in Hu by left. done.
Qed.

Lemma prune_fold_drop path (l : list (string * Job)) : ∀ js id j,
  (id, j) ∈ l → job_under path j = true →
  foldl (λ js item, if job_under path item.2 then delete item.1 js else js)
        js l !! id = None.
Proof.
  induction l as [|[k j'] l IH]; intros js id j Hin Hu; simpl.
  - by apply elem_of_nil in Hin.
  - apply elem_of_cons in Hin as [[= <- <-] | Hin]; [|by eapply IH].
    rewrite Hu. apply prune_fold_None, lookup_delete_eq.
Qed.

(** The janitor's block removes exactly the records that match the path. *)
Lemma prune_jobs_lookup path js id :
  prune_jobs path js !! id =
    match js !! id with
    | Some j => if job_under path j then None else Some j
    | None => None
    end.
Proof.
  unfold prune_jobs. destruct (js !! id) as [j|] eqn:Hj.
  - destruct (job_under path j) eqn:Hu.
    + eapply prune_fold_drop; [|done]. by apply elem_of_map_to_list.
    + rewrite prune_fold_keep, Hj; [done |].
      intros j' Hj'. apply elem_of_map_to_list in Hj'. congruence.
  - rewrite prune_fold_keep, Hj; [done |].
    intros j' Hj'. apply elem_of_map_to_list in Hj'. congruence.
Qed.

End Blocks.

(** ** The system *)

Section System.

Context (urlparse : string → option ParseResult).
Context (cfg : Config).

Implicit Types (w : World) (tr : list Event) (id : string).

(** A call of [start] either rejects, and then touches nothing, or makes
    one record, in status [queued], and one thread. *)
Lemma start_cases req now created_at uuid (js : Jobs) (rl : RateLimit) :
  (∃ code message,
      start urlparse cfg req now created_at uuid js rl =
        mkHandled (ErrorResponse code message) js rl [] None) ∨
  (∃ j args,
      start urlparse cfg req now created_at uuid js rl =
        mkHandled (JobStarted uuid) (<[uuid := j]> js)
          (check_rate_limit cfg now (get_client_ip req) rl).2
          [StatusWrite uuid queued] (Some args) ∧
      arg_job_id args = uuid ∧ job_status j = queued ∧
      job_ip j = get_client_ip req ∧
      (check_rate_limit cfg now (get_client_ip req) rl).1 = true).
Proof.
  unfold start.
  destruct (_ && _); [left; eauto |].
  destruct (_ || _); [left; eauto |].
  destruct (check_rate_limit _ _ _ _) as [[] rl']; [|left; eauto].
  right. unfold create_job. eexists _, _. eauto.
Qed.

Lemma run_snoc acts a :
  run urlparse cfg (acts ++ [a]) =
    ((exec urlparse cfg (run urlparse cfg acts).1 a).1,
     (run urlparse cfg acts).2 ++ (exec urlparse cfg (run urlparse cfg acts).1 a).2).
Proof.
  unfold run, run_from. rewrite foldl_app. simpl.
  by destruct (exec _ _ _ _).
Qed.

(** Induction over the runs of the system. *)
Lemma run_invariant (P : World → list Event → Prop) :
  P initial_world [] →
  (∀ w tr a, P w tr →
     P (exec urlparse cfg w a).1 (tr ++ (exec urlparse cfg w a).2)) →
  ∀ acts, P (run urlparse cfg acts).1 (run urlparse cfg acts).2.
Proof.
  intros Hinit Hstep acts. induction acts as [|a acts IH] using rev_ind.
  - exact Hinit.
  - rewrite run_snoc. simpl. by apply Hstep.
Qed.

Lemma status_writes_app id tr1 tr2 :
  status_writes id (tr1 ++ tr2) = status_writes id tr1 ++ status_writes id tr2.
Proof.
  induction tr1 as [|[id' s] tr1 IH]; simpl; [done |].
  case_bool_decide; by rewrite IH.
Qed.

(** *** The history of a job follows its worker *)

Lemma status_walk_queued : status_walk [queued].
Proof. left. by exists [running; ready]. Qed.

Lemma status_walk_running : status_walk [queued; running].
Proof. left. by exists [ready]. Qed.

Lemma status_walk_ready : status_walk [queued; running; ready].
Proof. left. by exists []. Qed.

Lemma status_walk_error : status_walk [queued; running; error].
Proof. right. by exists []. Qed.

Lemma exec_history w tr a :
  (∀ id, thread_history (threads w !! id) (status_writes id tr)) →
  ∀ id, thread_history (threads (exec urlparse cfg w a).1 !! id)
          (status_writes id (tr ++ (exec urlparse cfg w a).2)).
Proof.
  intros Hinv id. specialize (Hinv id) as Hid.
  rewrite status_writes_app.
  destruct a as [req now created_at uuid | id0 ok | id0 d | id0 env | path0];
    cbn [exec].
  - (* start *)
    case_bool_decide as Hused; [simpl; by rewrite app_nil_r |].
    destruct (start_cases req now created_at uuid (jobs w) (rate_limit w))
      as [(code & msg & ->) | (j & args & -> & Hargs & _)]; simpl.
    { by rewrite app_nil_r. }
    rewrite Hargs. destruct (decide (uuid = id)) as [-> | Hne].
    + rewrite lookup_insert_eq, bool_decide_eq_true_2 by done.
      rewrite <- not_eq_None_Some in Hused.
      apply dec_stable in Hused. rewrite Hused in Hid. simpl in Hid.
      by rewrite Hid.
    + rewrite lookup_insert_ne, bool_decide_eq_false_2 by done.
      by rewrite app_nil_r.
  - (* the worker begins *)
    destruct (threads w !! id0) as [[args | fmt |]|] eqn:Hpc;
      try (simpl; by rewrite app_nil_r).
    destruct ok; cycle 1.
    { simpl. rewrite app_nil_r. destruct (decide (id0 = id)) as [-> | Hne].
      - rewrite lookup_insert_eq. rewrite Hpc in Hid. simpl in *.
        rewrite Hid. split; [done | apply status_walk_queued].
      - by rewrite lookup_insert_ne. }
    destruct (jobs w !! id0) as [j|] eqn:Hj.
    + rewrite (mark_running_Some _ _ _ j) by done. simpl.
      destruct (decide (id0 = id)) as [-> | Hne].
      * rewrite lookup_insert_eq, bool_decide_eq_true_2 by done.
        rewrite Hpc in Hid. simpl in *. by rewrite Hid.
      * rewrite lookup_insert_ne, bool_decide_eq_false_2 by done.
        by rewrite app_nil_r.
    + rewrite mark_running_None by done. simpl. rewrite app_nil_r.
      destruct (decide (id0 = id)) as [-> | Hne].
      * rewrite lookup_insert_eq. rewrite Hpc in Hid. simpl in *.
        rewrite Hid. split; [done | apply status_walk_queued].
      * by rewrite lookup_insert_ne.
  - (* a progress hook *)
    destruct (threads w !! id0) as [[args | fmt |]|] eqn:Hpc;
      try (simpl; by rewrite app_nil_r).
    destruct (yt_progress_hook_cases id0 d (jobs w)) as [-> | (j & p & _ & ->)];
      simpl; by rewrite app_nil_r.
  - (* the worker finishes *)
    destruct (threads w !! id0) as [[args | fmt |]|] eqn:Hpc;
      try (simpl; by rewrite app_nil_r).
    assert (Hrun : id0 = id → status_writes id tr = [queued; running]).
    { intros ->. rewrite Hpc in Hid. exact Hid. }
    assert (Hother : id0 ≠ id → ∀ js evs,
      (∀ e, e ∈ evs → ∃ s, e = StatusWrite id0 s) →
      thread_history (threads (mkWorld js (rate_limit w)
                                (<[id0 := Exited]> (threads w))) !! id)
        (status_writes id tr ++ status_writes id evs)).
    { intros Hne js evs Hevs. simpl. rewrite lookup_insert_ne by done.
      replace (status_writes id evs) with (@nil Status);
        [by rewrite app_nil_r |].
      clear -Hne Hevs. induction evs as [|e evs IH]; [done |].
      destruct (Hevs e) as [s ->]; [by left |]. simpl.
      rewrite bool_decide_eq_false_2 by done.
      apply IH. intros e He. apply Hevs. by right. }
    destruct (jobs w !! id0) as [j|] eqn:Hj.
    + destruct (finish_download_job_Some id0 fmt env (jobs w) j Hj)
        as [[r ->] | [[text ->] | (p & sz & _ & ->)]].
      * destruct (decide (id0 = id)) as [-> | Hne].
        -- simpl. rewrite lookup_insert_eq, app_nil_r, Hrun by done.
           split; [done | apply status_walk_running].
        -- apply Hother; [done |]. intros e He. by apply elem_of_nil in He.
      * destruct (decide (id0 = id)) as [-> | Hne].
        -- simpl. rewrite lookup_insert_eq, bool_decide_eq_true_2, Hrun by done.
           split; [done | apply status_walk_error].
        -- apply Hother; [done |]. intros e He.
           apply list_elem_of_singleton in He as ->. eauto.
      * destruct (decide (id0 = id)) as [-> | Hne].
        -- simpl. rewrite lookup_insert_eq, bool_decide_eq_true_2, Hrun by done.
           split; [done | apply status_walk_ready].
        -- apply Hother; [done |]. intros e He.
           apply list_elem_of_singleton in He as ->. eauto.
    + destruct (finish_download_job_None id0 fmt env (jobs w) Hj) as [r ->].
      destruct (decide (id0 = id)) as [-> | Hne].
      * simpl. rewrite lookup_insert_eq, app_nil_r, Hrun by done.
        split; [done | apply status_walk_running].
      * apply Hother; [done |]. intros e He. by apply elem_of_nil in He.
  - (* the janitor *)
    simpl. by rewrite app_nil_r.
Qed.

Lemma run_history acts id :
  thread_history (threads (run urlparse cfg acts).1 !! id)
    (status_writes id (run urlparse cfg acts).2).
Proof.
  revert id.
  apply (run_invariant
           (λ w tr, ∀ id, thread_history (threads w !! id) (status_writes id tr))).
  - intros id. simpl. by rewrite lookup_empty.
  - intros w tr a Hinv. by apply exec_history.
Qed.

End System.

Example sample_run_status_writes :
  status_writes sample_id (run urlparse_model default_config sample_actions).2
  = [queued; running; ready].
Proof. vm_compute. reflexivity. Qed.

Example sample_run_download :
  download sample_id (jobs (run urlparse_model default_config sample_actions).1)
  = SendFile "/app/downloads/0123456789abcdef0123456789abcdef/Cabc123.mp4"
             "Cabc123.mp4".
Proof. vm_compute. reflexivity. Qed.

Lemma status_walk_cases (l : list Status) :
  status_walk l →
  l = [] ∨ l = [queued] ∨ l = [queued; running] ∨
  l = [queued; running; ready] ∨ l = [queued; running; error].
Proof.
  intros [[k Hk] | [k Hk]];
    repeat (destruct l as [|? l]; simplify_eq/=; eauto 10).
Qed.

(** C4. In every run of the system and for every job, the status values
    assigned to the record of the job, in order, are [queued], [running],
    then [ready] or [error], or a beginning of this walk: [ready] and
    [error] do not both occur, and nothing is assigned after [ready] or
    after [error]. *)
Theorem status_writes_walk (urlparse : string → option ParseResult)
    (cfg : Config) (acts : list Action) (id : string) :
  let l := status_writes id (run urlparse cfg acts).2 in
  status_walk l ∧
  ¬ (ready ∈ l ∧ error ∈ l) ∧
  (∀ l1 s l2, l = l1 ++ s :: l2 → terminal s → l2 = []).
Proof.
  intros l.
  assert (Hwalk : status_walk l).
  { pose proof (run_history urlparse cfg acts id) as H. fold l in H.
    destruct (threads _ !! id) as [[| |]|]; simpl in H.
    - rewrite H. left. by exists [running; ready].
    - rewrite H. left. by exists [ready].
    - apply H.
    - rewrite H. left. by exists [queued; running; ready]. }
  split; [done |].
  apply status_walk_cases in Hwalk.
  split.
  - destruct Hwalk as [-> | [-> | [-> | [-> | ->]]]];
      refine (bool_decide_unpack _ _); by vm_compute.
  - intros l1 s l2 Hl [-> | ->];
      destruct Hwalk as [H | [H | [H | [H | H]]]]; rewrite H in Hl;
      repeat (destruct l1 as [|? l1]; simplify_eq/=; try done).
Qed.

Section SystemInvariants.

Context (urlparse : string → option ParseResult).
Context (cfg : Config).

Implicit Types (w : World) (id : string).

Lemma ready_has_file_with_progress p (j : Job) :
  ready_has_file j → ready_has_file (with_progress p j).
Proof. done. Qed.

Lemma ready_has_file_not_ready (j : Job) :
  job_status j ≠ ready → ready_has_file j.
Proof. intros Hne Hr. done. Qed.

Lemma ready_has_file_ready_job produced getsize (j : Job) :
  Str.truthy produced = true → ready_has_file (ready_job produced getsize j).
Proof. intros Ht _. exists produced. simpl. eauto. Qed.

Lemma ready_jobs_have_file_insert (js : Jobs) id (j : Job) :
  ready_jobs_have_file js → ready_has_file j →
  ready_jobs_have_file (<[id := j]> js).
Proof.
  intros Hjs Hj id' j'. destruct (decide (id = id')) as [<- | Hne].
  - rewrite lookup_insert_eq. by intros [= <-].
  - rewrite lookup_insert_ne by done. apply Hjs.
Qed.

(** Every step keeps the job table such that ready records name their
    file. *)
Lemma exec_ready_jobs_have_file w a :
  ready_jobs_have_file (jobs w) →
  ready_jobs_have_file (jobs (exec urlparse cfg w a).1).
Proof.
  intros Hinv.
  destruct a as [req now created_at uuid | id0 ok | id0 d | id0 env | path0];
    cbn [exec].
  - case_bool_decide; [done |].
    destruct (start_cases urlparse cfg req now created_at uuid (jobs w)
                (rate_limit w))
      as [(code & msg & ->) | (j & args & -> & _ & Hq & _)]; simpl; [done |].
    apply ready_jobs_have_file_insert; [done |].
    apply ready_has_file_not_ready. by rewrite Hq.
  - destruct (threads w !! id0) as [[args | fmt |]|]; try done.
    destruct ok; [|done].
    destruct (jobs w !! id0) as [j|] eqn:Hj.
    + rewrite (mark_running_Some _ _ _ j) by done. simpl.
      apply ready_jobs_have_file_insert; [done |].
      by apply ready_has_file_not_ready.
    + by rewrite mark_running_None.
  - destruct (threads w !! id0) as [[args | fmt |]|]; try done.
    destruct (yt_progress_hook_cases id0 d (jobs w)) as [-> | (j & p & Hj & ->)];
      simpl; [done |].
    apply ready_jobs_have_file_insert; [done |].
    apply ready_has_file_with_progress. by eapply Hinv.
  - destruct (threads w !! id0) as [[args | fmt |]|]; try done.
    destruct (jobs w !! id0) as [j|] eqn:Hj.
    + destruct (finish_download_job_Some id0 fmt env (jobs w) j Hj)
        as [[r ->] | [[text ->] | (p & sz & Hp & ->)]]; simpl; [done | |].
      * apply ready_jobs_have_file_insert; [done |].
        by apply ready_has_file_not_ready.
      * apply ready_jobs_have_file_insert; [done |].
        by apply ready_has_file_ready_job.
    + by destruct (finish_download_job_None id0 fmt env (jobs w) Hj) as [r ->].
  - simpl. intros id j. rewrite prune_jobs_lookup.
    destruct (jobs w !! id) as [j'|] eqn:Hj'; [|done].
    destruct (job_under path0 j'); [done |]. intros [= <-]. by eapply Hinv.
Qed.

Lemma run_ready_jobs_have_file acts :
  ready_jobs_have_file (jobs (run urlparse cfg acts).1).
Proof.
  apply (run_invariant urlparse cfg (λ w _, ready_jobs_have_file (jobs w))).
  - intros id j. simpl. by rewrite lookup_empty.
  - intros w _ a. apply exec_ready_jobs_have_file.
Qed.

(** Every step keeps the lists of the rate limiter within the ceiling. *)
Lemma exec_within_ceiling w a :
  within_ceiling cfg (rate_limit w) →
  within_ceiling cfg (rate_limit (exec urlparse cfg w a).1).
Proof.
  intros Hinv.
  destruct a as [req now created_at uuid | id0 ok | id0 d | id0 env | path0];
    cbn [exec].
  - case_bool_decide; [done |].
    destruct (start_cases urlparse cfg req now created_at uuid (jobs w)
                (rate_limit w))
      as [(code & msg & ->) | (j & args & -> & _)]; simpl; [done |].
    by apply check_rate_limit_within_ceiling.
  - destruct (threads w !! id0) as [[args | fmt |]|]; try done.
    destruct ok; [|done]. by destruct (mark_running _ _ _) as [[? ?] []].
  - destruct (threads w !! id0) as [[args | fmt |]|]; try done.
    by destruct (yt_progress_hook _ _ _) as [[? ?] ?].
  - destruct (threads w !! id0) as [[args | fmt |]|]; try done.
    by destruct (finish_download_job _ _ _ _) as [[? ?] ?].
  - done.
Qed.

Lemma run_within_ceiling acts :
  within_ceiling cfg (rate_limit (run urlparse cfg acts).1).
Proof.
  apply (run_invariant urlparse cfg (λ w _, within_ceiling cfg (rate_limit w))).
  - apply within_ceiling_empty.
  - intros w _ a. apply exec_within_ceiling.
Qed.

(** Once the worker of a job has exited, the record of the job is only
    ever removed: no step changes it. *)
Lemma exec_exited w a id :
  threads w !! id = Some Exited →
  threads (exec urlparse cfg w a).1 !! id = Some Exited ∧
  (jobs (exec urlparse cfg w a).1 !! id = jobs w !! id ∨
   jobs (exec urlparse cfg w a).1 !! id = None).
Proof.
  intros Hpc.
  destruct a as [req now created_at uuid | id0 ok | id0 d | id0 env | path0];
    cbn [exec].
  - case_bool_decide as Hused; [by auto |].
    assert (uuid ≠ id) as Hne.
    { intros ->. apply Hused. by rewrite Hpc. }
    destruct (start_cases urlparse cfg req now created_at uuid (jobs w)
                (rate_limit w))
      as [(code & msg & ->) | (j & args & -> & Hargs & _)]; simpl; [by auto |].
    rewrite Hargs, !lookup_insert_ne by done. auto.
  - destruct (threads w !! id0) as [[args | fmt |]|] eqn:Hpc0; try by auto.
    assert (id0 ≠ id) as Hne by congruence.
    destruct ok; [|simpl; rewrite lookup_insert_ne by done; by auto].
    destruct (jobs w !! id0) as [j|] eqn:Hj.
    + rewrite (mark_running_Some _ _ _ j) by done. simpl.
      rewrite !lookup_insert_ne by done. auto.
    + rewrite mark_running_None by done. simpl.
      rewrite !lookup_insert_ne by done. auto.
  - destruct (threads w !! id0) as [[args | fmt |]|] eqn:Hpc0; try by auto.
    assert (id0 ≠ id) as Hne by congruence.
    destruct (yt_progress_hook_cases id0 d (jobs w)) as [-> | (j & p & Hj & ->)];
      simpl; [by auto |].
    rewrite lookup_insert_ne by done. auto.
  - destruct (threads w !! id0) as [[args | fmt |]|] eqn:Hpc0; try by auto.
    assert (id0 ≠ id) as Hne by congruence.
    destruct (jobs w !! id0) as [j|] eqn:Hj.
    + destruct (finish_download_job_Some id0 fmt env (jobs w) j Hj)
        as [[r ->] | [[text ->] | (p & sz & Hp & ->)]]; simpl;
        rewrite ?lookup_insert_ne by done; auto.
    + destruct (finish_download_job_None id0 fmt env (jobs w) Hj) as [r ->].
      simpl. rewrite lookup_insert_ne by done. auto.
  - simpl. split; [done |]. rewrite prune_jobs_lookup.
    destruct (jobs w !! id) as [j|]; [|by auto].
    destruct (job_under path0 j); auto.
Qed.

Lemma run_from_exited acts : ∀ w tr id,
  threads w !! id = Some Exited →
  threads (run_from urlparse cfg (w, tr) acts).1 !! id = Some Exited ∧
  (jobs (run_from urlparse cfg (w, tr) acts).1 !! id = jobs w !! id ∨
   jobs (run_from urlparse cfg (w, tr) acts).1 !! id = None).
Proof.
  induction acts as [|a acts IH]; intros w tr id Hpc; simpl; [by auto |].
  destruct (exec_exited w a id Hpc) as [Hpc' Hjobs].
  destruct (exec urlparse cfg w a) as [w' evs]. simpl in *.
  destruct (IH w' (tr ++ evs) id Hpc') as [Hpc'' Hjobs'].
  split; [done |].
  destruct Hjobs' as [-> | ->]; [|by auto]. done.
Qed.

End SystemInvariants.

(** C5. In every run of the system, a record of the job table whose status
    is [ready] has its file path, its file name (the base name of the path)
    and its size entry: the worker assigns them in the same locked block as
    the status.  Hence [/download] never answers that the file of a ready
    job is not ready, and the snapshot which [/events] takes of a ready job
    names its file. *)
Theorem ready_job_has_result (urlparse : string → option ParseResult)
    (cfg : Config) (acts : list Action) (id : string) (j : Job) :
  jobs (run urlparse cfg acts).1 !! id = Some j →
  job_status j = ready →
  ∃ p, job_filepath j = Some p ∧ p ≠ EmptyString ∧
       job_filename j = Some (Str.basename p) ∧
       is_Some (job_size j) ∧
       download id (jobs (run urlparse cfg acts).1) = SendFile p (Str.basename p) ∧
       poll_payload id (jobs (run urlparse cfg acts).1)
       = PayloadJob ready (job_progress j) None (Some (Str.basename p))
                    (mjoin (job_size j)).
Proof.
  intros Hj Hready.
  destruct (run_ready_jobs_have_file urlparse cfg acts id j Hj Hready)
    as (p & Hp & Htruthy & Hname & Hsize).
  exists p. split; [done |]. split; [by intros -> |].
  split; [done |]. split; [done |]. split.
  - unfold download. rewrite Hj, Hready, Hp, Hname. simpl. rewrite Htruthy. simpl.
    unfold Str.or_else. simpl. by destruct (Str.truthy (Str.basename p)).
  - unfold poll_payload. by rewrite Hj, Hready, Hname.
Qed.

(** C10. A rejected check of the rate limiter returns the table it was
    given: nothing is appended and the pruned list is not stored, so a
    later check answers as if the rejected one had not been made.  In every
    run of the system, no list of the table is longer than the ceiling. *)
Theorem rejected_check_leaves_table (urlparse : string → option ParseResult)
    (cfg : Config) :
  (∀ now ip (rl : RateLimit),
     (check_rate_limit cfg now ip rl).1 = false →
     (check_rate_limit cfg now ip rl).2 = rl ∧
     ∀ now' ip',
       check_rate_limit cfg now' ip' (check_rate_limit cfg now ip rl).2
       = check_rate_limit cfg now' ip' rl) ∧
  (∀ acts ip times,
     rate_limit (run urlparse cfg acts).1 !! ip = Some times →
     Z.of_nat (length times) ≤ RATE_LIMIT_COUNT cfg).
Proof.
  split.
  - intros now ip rl Hrej.
    rewrite (check_rate_limit_rejected_table cfg now ip rl Hrej). done.
  - intros acts ip times. apply run_within_ceiling.
Qed.

(** ** Failure classification *)

Lemma lower_app_inv (s a b : string) :
  Str.lower s = a +:+ b →
  ∃ s1 s2, s = s1 +:+ s2 ∧ Str.lower s1 = a ∧ Str.lower s2 = b.
Proof.
  revert s. induction a as [|x a IH]; intros s Hs.
  - by exists EmptyString, s.
  - destruct s as [|c s]; [discriminate |].
    injection Hs as Hc Hs. destruct (IH s Hs) as (s1 & s2 & -> & H1 & H2).
    exists (String c s1), s2. simpl. by rewrite Hc, H1.
Qed.

Lemma login_keywords_lower (k : string) :
  k ∈ login_keywords → Str.lower k = k.
Proof.
  unfold login_keywords. rewrite !elem_of_cons, elem_of_nil.
  intros [-> | [-> | [-> | [-> | [-> | [-> | [-> | [-> | []]]]]]]]]; reflexivity.
Qed.

(** The test of the first [except] clause is containment of a keyword,
    letter case apart. *)
Lemma mentions_login_spec (msg : string) :
  mentions_login msg = true ↔ is_login_error msg.
Proof.
  unfold mentions_login, is_login_error, contains_ignoring_case.
  rewrite existsb_exists. split.
  - intros (k & Hk & Hc). apply list_elem_of_In in Hk.
    apply StrFacts.contains_spec in Hc as (a & b & Hab).
    apply lower_app_inv in Hab as (pre & rest & -> & _ & Hrest).
    apply lower_app_inv in Hrest as (mid & post & -> & Hmid & _).
    exists k. split; [done |]. exists pre, mid, post.
    split; [done |]. by rewrite (login_keywords_lower k).
  - intros (k & Hk & pre & mid & post & -> & Hmid).
    exists k. split; [by apply list_elem_of_In |].
    apply StrFacts.contains_spec. exists (Str.lower pre), (Str.lower post).
    rewrite !StrFacts.lower_app, Hmid. by rewrite (login_keywords_lower k).
Qed.

Lemma forbidden_is_login_error (pre post : string) :
  is_login_error (pre +:+ "403 Forbidden" +:+ post).
Proof.
  exists "403". split.
  - unfold login_keywords. rewrite !elem_of_cons. auto.
  - exists pre, "403", (" Forbidden" +:+ post). done.
Qed.

(** C7. When the engine call of a job raises an exception (of a class
    derived from [Exception]) whose text contains one of the login
    keywords, letter case apart, and the record of the job is in the table,
    the worker exits leaving the record in status [error] with the
    login-required text, which is not the text of the general failure; from
    then on the record is only ever removed.  A text that contains
    403 Forbidden is such a text. *)
Theorem login_error_text (urlparse : string → option ParseResult)
    (cfg : Config) (w : World) (id fmt : string) (env : EngineRun)
    (de : Exn) (j : Job) :
  threads w !! id = Some (InEngine fmt) →
  jobs w !! id = Some j →
  run_setup env = None →
  run_engine env = Some de →
  exn_class de ≠ SystemExit →
  is_login_error (exn_text de) →
  (∀ pre post, is_login_error (pre +:+ "403 Forbidden" +:+ post)) ∧
  LOGIN_REQUIRED_TEXT ≠ DOWNLOAD_FAILED_TEXT ∧
  let w' := (exec urlparse cfg w (AWorkerFinish id env)).1 in
  let j' := with_error LOGIN_REQUIRED_TEXT (with_status error j) in
  threads w' !! id = Some Exited ∧
  jobs w' !! id = Some j' ∧
  job_status j' = error ∧
  job_error j' = Some LOGIN_REQUIRED_TEXT ∧
  ∀ acts tr,
    jobs (run_from urlparse cfg (w', tr) acts).1 !! id = Some j' ∨
    jobs (run_from urlparse cfg (w', tr) acts).1 !! id = None.
Proof.
  intros Hpc Hj Hsetup Hengine Hcls Hlogin.
  split; [apply forbidden_is_login_error |]. split; [done |].
  apply mentions_login_spec in Hlogin.
  assert (Hw' : (exec urlparse cfg w (AWorkerFinish id env)).1 =
    mkWorld (<[id := with_error LOGIN_REQUIRED_TEXT (with_status error j)]> (jobs w))
            (rate_limit w) (<[id := Exited]> (threads w))).
  { cbn [exec]. rewrite Hpc.
    rewrite (finish_download_job_engine_error id fmt env (jobs w) j de)
      by done.
    by rewrite Hlogin. }
  intros w' j'. subst w'. rewrite Hw'. cbn [threads jobs].
  rewrite !lookup_insert_eq. repeat split; try done.
  intros acts tr.
  edestruct (run_from_exited urlparse cfg acts) as [_ [H | H]];
    [| left; rewrite H | right; exact H].
  - cbn [threads]. apply lookup_insert_eq.
  - cbn [jobs]. apply lookup_insert_eq.
Qed.

(** Whatever the class of an exception of the engine, short of the classes
    outside [Exception], the first clause takes it: the clause for
    [FileNotFoundError] is never reached. *)
Lemma engine_clauses_first (id : string) (e : Exn) :
  exn_class e ≠ SystemExit →
  select_clause (engine_clauses id) e =
    snd <$> head (engine_clauses id).
Proof.
  intros Hcls. simpl. by rewrite bool_decide_eq_false_2.
Qed.

(** C2 (the code departs from the claim).  A job is submitted and its worker
    starts; the engine call raises [FileNotFoundError] because [ffmpeg] is
    missing.  The worker leaves the job in status [error] with the text of
    the general download failure, not with the text for a missing
    [ffmpeg]: the clause [except Exception] stands before the clause
    [except FileNotFoundError] and takes the exception. *)
Theorem missing_ffmpeg_general_text :
  let w := (run urlparse_model default_config
              [ AStart (sample_request reel_url "10.0.0.1") 100 100 sample_id;
                AWorkerBegin sample_id true ]).1 in
  let w' := (exec urlparse_model default_config w
               (AWorkerFinish sample_id sample_env_no_ffmpeg)).1 in
  threads w !! sample_id = Some (InEngine "mp4") ∧
  job_status <$> jobs w' !! sample_id = Some error ∧
  job_error <$> jobs w' !! sample_id = Some (Some DOWNLOAD_FAILED_TEXT) ∧
  DOWNLOAD_FAILED_TEXT ≠ FFMPEG_MISSING_TEXT.
Proof. vm_compute. repeat split; discriminate. Qed.

(** [start] never looks at the job table to decide on its answer. *)
Lemma start_ignores_jobs (urlparse : string → option ParseResult) (cfg : Config)
    (req : Request) (now created_at : Z) (uuid : string)
    (js js' : Jobs) (rl : RateLimit) :
  response (start urlparse cfg req now created_at uuid js rl)
  = response (start urlparse cfg req now created_at uuid js' rl).
Proof.
  unfold start.
  destruct (_ && _); [done |]. destruct (_ || _); [done |].
  by destruct (check_rate_limit _ _ _ _) as [[] ?].
Qed.

(** C1 (the code departs from the claim).  After three submissions of one
    client that are all still queued, [check_concurrent_limit] answers that
    the client is at its cap, yet a fourth submission of the client is
    accepted and makes a fourth queued record: [start] does not call
    [check_concurrent_limit]. *)
Theorem fourth_submission_accepted :
  let ip := "10.0.0.1" in
  let w := (run urlparse_model default_config three_starts).1 in
  let h := start urlparse_model default_config (sample_request reel_url ip)
             103 103 fourth_id (jobs w) (rate_limit w) in
  active_jobs ip (jobs w) = 3%nat ∧
  check_concurrent_limit default_config ip (jobs w) = false ∧
  response h = JobStarted fourth_id ∧
  job_status <$> jobs_after h !! fourth_id = Some queued ∧
  active_jobs ip (jobs_after h) = 4%nat.
Proof. vm_compute. repeat split. Qed.

(** ** URL validation *)

Section Validation.

Context (urlparse : string → option ParseResult).

Lemma instagram_host_spec (host : string) :
  bool_decide (host = "instagram.com") || Str.endswith host ".instagram.com" = true
  ↔ instagram_host host.
Proof.
  unfold instagram_host.
  by rewrite orb_true_iff, bool_decide_eq_true, StrFacts.endswith_spec.
Qed.

Lemma instagram_path_spec (p : string) :
  (existsb (λ k, Str.startswith p k) ["/reel/"; "/reels/"; "/p/"; "/tv/"]
   || (Str.contains p "/reel" || Str.contains p "/reels"
       || Str.contains p "/p/" || Str.contains p "/tv/")) = true
  ↔ instagram_path p.
Proof.
  unfold instagram_path. split.
  - cbn [existsb]. rewrite orb_false_r, !orb_true_iff,
      !StrFacts.startswith_spec, !StrFacts.contains_spec.
    intros [[[t ->] | [[t ->] | [[t ->] | [t ->]]]]
           | [[[(a & b & ->) | (a & b & ->)] | (a & b & ->)] | (a & b & ->)]].
    + exists "/reel". split; [rewrite !elem_of_cons; auto 10 |]. by exists EmptyString, ("/" +:+ t).
    + exists "/reels". split; [rewrite !elem_of_cons; auto 10 |]. by exists EmptyString, ("/" +:+ t).
    + exists "/p/". split; [rewrite !elem_of_cons; auto 10 |]. by exists EmptyString, t.
    + exists "/tv/". split; [rewrite !elem_of_cons; auto 10 |]. by exists EmptyString, t.
    + exists "/reel". split; [rewrite !elem_of_cons; auto 10 |]. by exists a, b.
    + exists "/reels". split; [rewrite !elem_of_cons; auto 10 |]. by exists a, b.
    + exists "/p/". split; [rewrite !elem_of_cons; auto 10 |]. by exists a, b.
    + exists "/tv/". split; [rewrite !elem_of_cons; auto 10 |]. by exists a, b.
  - intros (k & Hk & pre & post & ->).
    rewrite orb_true_iff. right. rewrite !orb_true_iff, !StrFacts.contains_spec.
    rewrite !elem_of_cons, elem_of_nil in Hk.
    destruct Hk as [-> | [-> | [-> | [-> | []]]]]; eauto 10.
Qed.

(** What [is_valid_instagram_url] accepts. *)
Lemma is_valid_instagram_url_spec (url : string) :
  is_valid_instagram_url urlparse url = true ↔
  ∃ parsed, urlparse url = Some parsed ∧
    (scheme parsed = "http" ∨ scheme parsed = "https") ∧
    instagram_host (Str.lower (netloc parsed)) ∧
    instagram_path (Str.lower (path parsed)).
Proof.
  unfold is_valid_instagram_url.
  destruct (urlparse url) as [parsed|]; [|split; [done | by intros (? & ? & _)]].
  split.
  - intros H. exists parsed. split; [done |].
    destruct (bool_decide (scheme parsed = "http")
              || bool_decide (scheme parsed = "https")) eqn:Hscheme;
      [|discriminate]. cbn [negb] in H.
    apply orb_true_iff in Hscheme. rewrite !bool_decide_eq_true in Hscheme.
    split; [done |].
    destruct (bool_decide _ || Str.endswith _ _) eqn:Hhost; [|discriminate].
    cbn [negb] in H. apply instagram_host_spec in Hhost. split; [done |].
    apply instagram_path_spec.
    destruct (existsb _ _); [done |].
    by destruct (_ || _ || _ || _).
  - intros (? & [= <-] & Hscheme & Hhost & Hpath).
    apply instagram_host_spec in Hhost. apply instagram_path_spec in Hpath.
    assert (bool_decide (scheme parsed = "http")
            || bool_decide (scheme parsed = "https") = true) as ->.
    { apply orb_true_iff. rewrite !bool_decide_eq_true. done. }
    rewrite Hhost. cbn [negb].
    destruct (existsb _ _); [done |]. cbn [orb] in Hpath. by rewrite Hpath.
Qed.

Lemma netloc_or_path_fails_invalid (url : string) :
  netloc_or_path_fails urlparse url → is_valid_instagram_url urlparse url = false.
Proof.
  intros Hnot. apply not_true_is_false. rewrite is_valid_instagram_url_spec.
  intros (parsed & Hparsed & _ & Hhost & Hpath).
  destruct (Hnot parsed Hparsed); done.
Qed.

Lemma api_key_accepted_spec (cfg : Config) (req : Request) :
  let key := Str.or_else (req_header_api_key req) (req_api_key req) in
  Str.truthy_opt (API_KEY cfg)
  && (negb (Str.truthy_opt key) || negb (bool_decide (key = API_KEY cfg))) = false
  ↔ api_key_accepted cfg req.
Proof.
  intros key. unfold api_key_accepted. fold key.
  rewrite andb_false_iff, orb_false_iff, !negb_false_iff, bool_decide_eq_true.
  done.
Qed.

End Validation.

(** What [start] does reject.  When the URL of a [POST /start] request
    fails on its whole [netloc] (not [instagram.com], and not ending with
    [.instagram.com]) or on its path (no post, reel or tv marker), or
    cannot be parsed, the request makes no job record, starts no worker and
    leaves the rate limiter alone; the answer is 400 with the invalid-URL
    message when the request passes the key check, and 401 with the key
    message when it does not, since the key is checked first. *)
Lemma invalid_url_rejected (urlparse : string → option ParseResult)
    (cfg : Config) (req : Request) (now created_at : Z) (uuid url : string)
    (js : Jobs) (rl : RateLimit) :
  req_url req = Some url →
  netloc_or_path_fails urlparse url →
  let h := start urlparse cfg req now created_at uuid js rl in
  jobs_after h = js ∧ rate_limit_after h = rl ∧ writes h = [] ∧
  spawned h = None ∧
  (api_key_accepted cfg req →
     response h = ErrorResponse 400 "Invalid Instagram URL") ∧
  (¬ api_key_accepted cfg req →
     response h = ErrorResponse 401 "Invalid or missing API key").
Proof.
  intros Hurl Hnot h. subst h. unfold start.
  pose proof (api_key_accepted_spec cfg req) as Hkey. cbv zeta in Hkey.
  destruct (Str.truthy_opt (API_KEY cfg) && _) eqn:Hguard; simpl.
  - repeat split; try done. intros Hacc. apply Hkey in Hacc. done.
  - rewrite Hurl. simpl.
    rewrite (netloc_or_path_fails_invalid urlparse url Hnot), orb_true_r. simpl.
    repeat split; try done. intros Hacc. destruct Hacc. by apply Hkey.
Qed.

(** C6 (the code departs from the claim).  The URL
    [https://evil.com:80.instagram.com/p/x/] has the host [evil.com], which
    is neither [instagram.com] nor a subdomain of it; only the text after
    the colon of its [netloc] ends with [.instagram.com].  With no API key
    configured, [POST /start] with this URL is not answered 400: it is
    answered with a job, and the job table has the new queued record.
    [is_valid_instagram_url] tests the whole [netloc], not the host name. *)
Theorem port_suffix_url_accepted :
  let req := sample_request port_suffix_url "10.0.0.1" in
  let h := start urlparse_model default_config req 100 100 sample_id ∅ ∅ in
  urlparse_model port_suffix_url
  = Some (mkParseResult "https" "evil.com:80.instagram.com" "/p/x/") ∧
  hostname "evil.com:80.instagram.com" = Some "evil.com" ∧
  ¬ instagram_host "evil.com" ∧
  is_valid_instagram_url urlparse_model port_suffix_url = true ∧
  response h = JobStarted sample_id ∧
  (∀ code message, response h ≠ ErrorResponse code message) ∧
  jobs_after h !! sample_id = Some (new_job req port_suffix_url 100 sample_id) ∧
  spawned h = Some (mkThreadArgs sample_id port_suffix_url "mp4" None).
Proof.
  intros req h.
  split; [vm_compute; reflexivity |].
  split; [vm_compute; reflexivity |].
  split.
  { intros Hhost. apply instagram_host_spec in Hhost.
    vm_compute in Hhost. discriminate. }
  split; [vm_compute; reflexivity |].
  assert (response h = JobStarted sample_id) as Hresp by (vm_compute; reflexivity).
  split; [exact Hresp |].
  split; [intros code message; rewrite Hresp; discriminate |].
  split; [vm_compute; reflexivity | vm_compute; reflexivity].
Qed.

(** ** The event stream *)

Section Events.

Context (float_repr : Q → string).

Local Abbreviation unknown_text := (json_dumps float_repr PayloadUnknown).

Lemma sse_chunk_inj (s s' : string) : sse_chunk s = sse_chunk s' → s = s'.
Proof.
  unfold sse_chunk. intros H. apply String.app_inj in H.
  by apply StrFacts.app_inv_tail in H.
Qed.

Lemma payload_terminal_spec id (js : Jobs) :
  payload_terminal (poll_payload id js) = true ↔ observed_terminal id js.
Proof.
  unfold poll_payload, observed_terminal.
  destruct (js !! id) as [j|]; simpl.
  - rewrite orb_true_iff, !bool_decide_eq_true. split.
    + intros H. right. by exists j.
    + intros [? | (? & [= <-] & H)]; done.
  - split; [by left | done].
Qed.

(** The text of a job never is the text sent for an unknown job. *)
Lemma json_dumps_job_not_unknown s progress err filename size :
  json_dumps float_repr (PayloadJob s progress err filename size) ≠ unknown_text.
Proof.
  unfold json_dumps, json_obj. cbn [json_fields].
  intros H. apply String.app_inj in H.
  rewrite !StrFacts.app_assoc in H.
  do 2 apply String.app_inj in H.
  remember (", " +:+ json_str "progress" +:+ _) as rest eqn:Hrest in H.
  clear Hrest. destruct s; vm_compute in H; discriminate.
Qed.

Lemma poll_nonterminal_not_unknown id (js : Jobs) :
  payload_terminal (poll_payload id js) = false →
  json_dumps float_repr (poll_payload id js) ≠ unknown_text.
Proof.
  destruct (poll_payload id js); [done |].
  intros _. apply json_dumps_job_not_unknown.
Qed.

(** The first chunk of the stream differs from the last one sent. *)
Lemma gen_head id polls : ∀ last c,
  head (gen float_repr id last polls).1 = Some c →
  ∃ s, c = sse_chunk s ∧ Some s ≠ last.
Proof.
  induction polls as [|js polls IH]; intros last c; cbn [gen]; [done |].
  set (s := json_dumps float_repr (poll_payload id js)).
  case_bool_decide as Hsame; cbn [negb].
  - destruct (payload_terminal _); [done |].
    destruct (gen float_repr id last polls) as [rest closed] eqn:Hrest.
    simpl. intros Hc. apply (IH last c). by rewrite Hrest.
  - assert (∀ rest, head ([sse_chunk s] ++ rest) = Some c →
              ∃ s0, c = sse_chunk s0 ∧ Some s0 ≠ last) as Hhead.
    { intros rest [= <-]. exists s. split; [done | congruence]. }
    destruct (payload_terminal _); [apply (Hhead []) |].
    destruct (gen float_repr id (Some s) polls) as [rest closed].
    apply Hhead.
Qed.

Lemma no_repeat_cons (c : string) (l : list string) :
  head l ≠ Some c → no_repeat l → no_repeat (c :: l).
Proof. destruct l as [|b l]; simpl; [done |]. intros H ?. split; congruence. Qed.

(** Neighbouring chunks of the stream differ. *)
Lemma gen_no_repeat id polls : ∀ last,
  no_repeat (gen float_repr id last polls).1.
Proof.
  induction polls as [|js polls IH]; intros last; cbn [gen]; [done |].
  set (s := json_dumps float_repr (poll_payload id js)).
  case_bool_decide as Hsame; cbn [negb].
  - destruct (payload_terminal _); [done |].
    specialize (IH last).
    by destruct (gen float_repr id last polls) as [rest closed].
  - destruct (payload_terminal _); [done |].
    specialize (IH (Some s)).
    pose proof (gen_head id polls (Some s)) as Hhead.
    destruct (gen float_repr id (Some s) polls) as [rest closed].
    simpl in *. apply no_repeat_cons; [|done].
    intros Hc. destruct (Hhead _ Hc) as (s0 & Heq & Hne).
    apply sse_chunk_inj in Heq. congruence.
Qed.

(** The stream has left its loop exactly when one of its polls found the
    job ready, failed or gone. *)
Lemma gen_closed id polls : ∀ last,
  (gen float_repr id last polls).2 = true ↔
  Exists (observed_terminal id) polls.
Proof.
  induction polls as [|js polls IH]; intros last; cbn [gen].
  - split; [done | by intros ?%Exists_nil].
  - rewrite Exists_cons, <- payload_terminal_spec.
    destruct (payload_terminal _) eqn:Hterm.
    + split; [by left | done].
    + match goal with |- context [gen float_repr id ?l polls] =>
        specialize (IH l); destruct (gen float_repr id l polls) as [rest closed]
      end.
      simpl in *. rewrite IH. split; [by right | by intros [? | ?]].
Qed.

(** Nothing is read after the poll that ends the stream. *)
Lemma gen_stops id pre js post : ∀ last,
  observed_terminal id js →
  gen float_repr id last (pre ++ js :: post) = gen float_repr id last (pre ++ [js]).
Proof.
  intros last Hterm. apply payload_terminal_spec in Hterm. revert last.
  induction pre as [|p pre IH]; intros last; cbn [gen app].
  - by rewrite Hterm.
  - destruct (payload_terminal (poll_payload id p)); [done |].
    by rewrite IH.
Qed.

(** When the poll that ends the stream finds no record, the stream ends
    with the text for an unknown job, sent once. *)
Lemma gen_unknown id pre js : ∀ last,
  Forall (λ p, ¬ observed_terminal id p) pre →
  js !! id = None →
  last ≠ Some unknown_text →
  ∃ body,
    gen float_repr id last (pre ++ [js]) = (body ++ [sse_chunk unknown_text], true) ∧
    sse_chunk unknown_text ∉ body.
Proof.
  intros last Hpre Hjs. revert last.
  induction Hpre as [|p pre Hp Hpre IH]; intros last Hlast; cbn [gen app].
  - exists []. unfold poll_payload. rewrite Hjs. cbn [payload_terminal].
    rewrite bool_decide_eq_false_2 by congruence.
    split; [done | apply not_elem_of_nil].
  - rewrite <- payload_terminal_spec in Hp. apply not_true_is_false in Hp.
    rewrite Hp.
    pose proof (poll_nonterminal_not_unknown id p Hp) as Hne.
    set (s := json_dumps float_repr (poll_payload id p)) in *.
    case_bool_decide as Hsame; cbn [negb].
    + destruct (IH last Hlast) as (body & -> & Hbody). by exists body.
    + destruct (IH (Some s)) as (body & -> & Hbody); [congruence |].
      exists (sse_chunk s :: body). split; [done |].
      rewrite not_elem_of_cons. split; [|done].
      intros Heq. apply sse_chunk_inj in Heq. congruence.
Qed.

End Events.

(** C8. The stream of [/events] for a job, run over the tables found at its
    polls: a poll sends its snapshot when, and only when, the text of the
    snapshot differs from the text sent last, so that neighbouring chunks
    of the stream differ; the stream has ended exactly when a poll has
    found the job ready, failed or without a record, and nothing is polled
    after that poll; when that poll finds no record, the stream ends with
    the snapshot of status unknown, which it sends once. *)
Theorem events_stream (float_repr : Q → string) (id : string) :
  (∀ last js rest,
     let s := json_dumps float_repr (poll_payload id js) in
     let tail_of l :=
       if payload_terminal (poll_payload id js) then []
       else (gen float_repr id l rest).1 in
     (Some s = last → (gen float_repr id last (js :: rest)).1 = tail_of last) ∧
     (Some s ≠ last →
        (gen float_repr id last (js :: rest)).1 = sse_chunk s :: tail_of (Some s))) ∧
  (∀ polls, no_repeat (events float_repr id polls).1) ∧
  (∀ polls, (events float_repr id polls).2 = true ↔
            Exists (observed_terminal id) polls) ∧
  (∀ pre js post,
     observed_terminal id js →
     events float_repr id (pre ++ js :: post) = events float_repr id (pre ++ [js])) ∧
  (∀ pre js post,
     Forall (λ p, ¬ observed_terminal id p) pre →
     js !! id = None →
     ∃ body,
       events float_repr id (pre ++ js :: post)
       = (body ++ [sse_chunk (json_dumps float_repr PayloadUnknown)], true) ∧
       sse_chunk (json_dumps float_repr PayloadUnknown) ∉ body).
Proof.
  split; [|split; [|split; [|split]]].
  - intros last js rest s tail_of. subst tail_of. cbn [gen]. fold s.
    split; intros Hs.
    + rewrite bool_decide_eq_true_2 by done. cbn [negb].
      destruct (payload_terminal _); [done |].
      by destruct (gen float_repr id last rest).
    + rewrite bool_decide_eq_false_2 by done. cbn [negb].
      destruct (payload_terminal _); [done |].
      by destruct (gen float_repr id (Some s) rest).
  - intros polls. unfold events. exact (gen_no_repeat float_repr id polls None).
  - intros polls. unfold events. exact (gen_closed float_repr id polls None).
  - intros pre js post Hterm. unfold events.
    exact (gen_stops float_repr id pre js post None Hterm).
  - intros pre js post Hpre Hjs. unfold events.
    rewrite (gen_stops float_repr id pre js post None) by (left; exact Hjs).
    apply (gen_unknown float_repr id pre js None Hpre Hjs). discriminate.
Qed.

(** ** Janitor *)

Section Janitor.

Context (cfg : Config) (cutoff : Z).

Local Abbreviation sweep st names := (foldl (sweep_entry cfg cutoff) st names).
Local Abbreviation path_of name := (Str.path_join (BASE_DOWNLOAD_DIR cfg) name).

Lemma old_entry_cases (root : Root) n :
  old_entry root cutoff n ∨ ¬ old_entry root cutoff n.
Proof.
  unfold old_entry. destruct (root !! n) as [e|]; [|right; by intros (? & ? & _)].
  destruct (decide (mtime e < cutoff)); [left; by exists e |].
  right. intros (? & [= <-] & ?). done.
Qed.

Lemma sweep_entry_root (st : Root * Jobs) x n :
  x ≠ n → (sweep_entry cfg cutoff st x).1 !! n = st.1 !! n.
Proof.
  intros Hne. unfold sweep_entry.
  destruct (st.1 !! x) as [e|]; [|done].
  case_bool_decide; [|done].
  unfold rmtree, os_remove. destruct (is_dir e); simpl;
    by rewrite lookup_delete_ne.
Qed.

Lemma sweep_entry_old (st : Root * Jobs) n :
  old_entry st.1 cutoff n →
  sweep_entry cfg cutoff st n = (delete n st.1, prune_jobs (path_of n) st.2).
Proof.
  intros (e & He & Hold). unfold sweep_entry. rewrite He.
  rewrite bool_decide_eq_true_2 by done.
  unfold rmtree, os_remove. by destruct (is_dir e).
Qed.

Lemma sweep_entry_not_old (st : Root * Jobs) n :
  ¬ old_entry st.1 cutoff n → sweep_entry cfg cutoff st n = st.
Proof.
  intros Hnot. unfold sweep_entry.
  destruct (st.1 !! n) as [e|] eqn:He; [|done].
  rewrite bool_decide_eq_false_2; [done |].
  intros Hold. apply Hnot. by exists e.
Qed.

(** An entry that is not old stays as it is. *)
Lemma sweep_root_keep names : ∀ (st : Root * Jobs) n,
  ¬ old_entry st.1 cutoff n → (sweep st names).1 !! n = st.1 !! n.
Proof.
  induction names as [|x names IH]; intros st n Hnot; simpl; [done |].
  assert ((sweep_entry cfg cutoff st x).1 !! n = st.1 !! n) as Hstep.
  { destruct (decide (x = n)) as [-> | Hne].
    - by rewrite sweep_entry_not_old.
    - by apply sweep_entry_root. }
  rewrite IH; [done |].
  intros (e & He & Hold). apply Hnot. exists e. by rewrite <- Hstep.
Qed.

(** A listed entry that is old is removed. *)
Lemma sweep_root_drop names : ∀ (st : Root * Jobs) n,
  n ∈ names → old_entry st.1 cutoff n → (sweep st names).1 !! n = None.
Proof.
  induction names as [|x names IH]; intros st n Hin Hold; simpl.
  - by apply elem_of_nil in Hin.
  - destruct (decide (x = n)) as [-> | Hne].
    + rewrite sweep_entry_old by done.
      rewrite sweep_root_keep; simpl; [apply lookup_delete_eq |].
      intros (e & He & _). by rewrite lookup_delete_eq in He.
    + apply elem_of_cons in Hin as [-> | Hin]; [done |].
      apply IH; [done |].
      destruct Hold as (e & He & Hold). exists e.
      by rewrite sweep_entry_root.
Qed.

Lemma sweep_entry_old_before (st : Root * Jobs) x n :
  old_entry (sweep_entry cfg cutoff st x).1 cutoff n → old_entry st.1 cutoff n.
Proof.
  intros (e & He & Hold). exists e. split; [|done].
  destruct (decide (x = n)) as [-> | Hne].
  - destruct (old_entry_cases st.1 n) as [Ho | Hn].
    + rewrite sweep_entry_old in He by done. simpl in He.
      by rewrite lookup_delete_eq in He.
    + by rewrite sweep_entry_not_old in He.
  - by rewrite sweep_entry_root in He.
Qed.

(** A sweep only removes records. *)
Lemma sweep_jobs_None names : ∀ (st : Root * Jobs) id,
  st.2 !! id = None → (sweep st names).2 !! id = None.
Proof.
  induction names as [|x names IH]; intros st id Hid; simpl; [done |].
  apply IH. unfold sweep_entry.
  destruct (st.1 !! x) as [e|]; [|done].
  case_bool_decide; [|done]. simpl.
  by rewrite prune_jobs_lookup, Hid.
Qed.

(** A record that matches no old entry stays as it is. *)
Lemma sweep_jobs_keep names : ∀ (st : Root * Jobs) id j,
  (∀ n, n ∈ names → old_entry st.1 cutoff n → job_under (path_of n) j = false) →
  st.2 !! id = Some j → (sweep st names).2 !! id = Some j.
Proof.
  induction names as [|x names IH]; intros st id j Hfree Hj; simpl; [done |].
  apply IH.
  - intros n Hn Hold. apply Hfree; [by right |].
    by eapply sweep_entry_old_before.
  - destruct (old_entry_cases st.1 x) as [Ho | Hn].
    + rewrite sweep_entry_old by done. simpl.
      rewrite prune_jobs_lookup, Hj, Hfree; [done | by left | done].
    + by rewrite sweep_entry_not_old.
Qed.

(** A record that matches a listed old entry is removed. *)
Lemma sweep_jobs_drop names : ∀ (st : Root * Jobs) id j n,
  n ∈ names → old_entry st.1 cutoff n →
  st.2 !! id = Some j → job_under (path_of n) j = true →
  (sweep st names).2 !! id = None.
Proof.
  induction names as [|x names IH]; intros st id j n Hin Hold Hj Hunder; simpl.
  - by apply elem_of_nil in Hin.
  - destruct (decide (x = n)) as [-> | Hne].
    + rewrite sweep_entry_old by done.
      apply sweep_jobs_None. simpl.
      by rewrite prune_jobs_lookup, Hj, Hunder.
    + apply elem_of_cons in Hin as [-> | Hin]; [done |].
      destruct ((sweep_entry cfg cutoff st x).2 !! id) as [j'|] eqn:Hj';
        [|by apply sweep_jobs_None].
      assert (j' = j) as ->.
      { destruct (old_entry_cases st.1 x) as [Ho | Hn].
        - rewrite sweep_entry_old in Hj' by done. simpl in Hj'.
          rewrite prune_jobs_lookup, Hj in Hj'.
          destruct (job_under (path_of x) j); congruence.
        - rewrite sweep_entry_not_old in Hj' by done. congruence. }
      eapply IH; [done | | done | done].
      destruct Hold as (e & He & Hold). exists e.
      by rewrite sweep_entry_root.
Qed.

Lemma listdir_elem (root : Root) n : n ∈ listdir root ↔ is_Some (root !! n).
Proof.
  unfold listdir. rewrite list_elem_of_fmap. split.
  - intros ([k e] & -> & He). apply elem_of_map_to_list in He. by exists e.
  - intros [e He]. exists (n, e). split; [done |]. by apply elem_of_map_to_list.
Qed.

Lemma job_under_spec path (j : Job) :
  job_under path j = true ↔
  job_temp_dir j = Some path ∨
  ∃ rest, default EmptyString (job_filepath j) = path +:+ rest.
Proof.
  unfold job_under.
  by rewrite orb_true_iff, bool_decide_eq_true, StrFacts.startswith_spec.
Qed.

End Janitor.

Lemma is_uuid_hex_length (s : string) :
  is_uuid_hex s = true → String.length s = 32%nat.
Proof.
  unfold is_uuid_hex. rewrite andb_true_iff, bool_decide_eq_true. by intros [? _].
Qed.

Lemma is_uuid_hex_relative (s : string) :
  is_uuid_hex s = true → Str.startswith s "/" = false.
Proof.
  unfold is_uuid_hex. rewrite andb_true_iff. intros [_ Hhex].
  destruct s as [|c s]; [done |]. simpl in *.
  apply andb_true_iff in Hhex as [Hc _].
  rewrite andb_true_r. apply bool_decide_eq_false. intros <-. done.
Qed.

Lemma path_join_relative (a b : string) :
  Str.startswith b "/" = false → Str.path_join a b = dir_prefix a +:+ b.
Proof.
  intros Hb. unfold Str.path_join, dir_prefix. rewrite Hb.
  destruct (_ || _); [done |]. by rewrite StrFacts.app_assoc.
Qed.

(** The record of a working directory matches no other working directory. *)
Lemma job_in_entry_not_under (cfg : Config) (name n : string) (j : Job) :
  is_uuid_hex name = true → is_uuid_hex n = true → n ≠ name →
  job_in_entry cfg name j →
  job_under (Str.path_join (BASE_DOWNLOAD_DIR cfg) n) j = false.
Proof.
  intros Hname Hn Hne [Hdir Hfile].
  apply not_true_is_false. rewrite job_under_spec.
  unfold temp_dir_of in *.
  rewrite !path_join_relative in * by by apply is_uuid_hex_relative.
  set (pre := dir_prefix (BASE_DOWNLOAD_DIR cfg)) in *.
  intros [Hd | [rest Hrest]].
  - rewrite Hdir in Hd. injection Hd as Hd.
    apply String.app_inj in Hd. congruence.
  - assert (Str.startswith (default EmptyString (job_filepath j)) (pre +:+ n) = true)
      as Hstarts by (apply StrFacts.startswith_spec; eauto).
    destruct Hfile as [Hf | [tail Hf]]; rewrite Hf in Hstarts; simpl in Hstarts.
    + apply is_uuid_hex_length in Hn.
      destruct pre; [by destruct n | done].
    + rewrite StrFacts.app_assoc, StrFacts.startswith_app in Hstarts.
      apply StrFacts.startswith_same_length in Hstarts; [congruence |].
      apply is_uuid_hex_length in Hname, Hn. congruence.
Qed.

(** X24. What a sweep of the janitor at time [now] does.  It removes every entry
    of the download root whose modification time is more than thirty
    minutes back, and removes every record whose working directory is such
    an entry or whose result path begins with the path of such an entry.
    An entry that is not older than that stays as it is; and so does its
    record when the root holds working directories of jobs only. *)
Lemma janitor_sweep_effect (cfg : Config) (now : Z) (root : Root) (jobs : Jobs) :
  let cutoff := now - 30 * 60 in
  let root' := (background_cleaner_sweep cfg now root jobs).1 in
  let jobs' := (background_cleaner_sweep cfg now root jobs).2 in
  (∀ name e, root !! name = Some e → mtime e < cutoff → root' !! name = None) ∧
  (∀ name e id j,
     root !! name = Some e → mtime e < cutoff →
     jobs !! id = Some j →
     (job_temp_dir j = Some (Str.path_join (BASE_DOWNLOAD_DIR cfg) name) ∨
      ∃ rest, job_filepath j
              = Some (Str.path_join (BASE_DOWNLOAD_DIR cfg) name +:+ rest)) →
     jobs' !! id = None) ∧
  (∀ name e, root !! name = Some e → cutoff ≤ mtime e → root' !! name = Some e) ∧
  (∀ name e id j,
     holds_job_dirs root →
     root !! name = Some e → cutoff ≤ mtime e →
     jobs !! id = Some j → job_in_entry cfg name j →
     jobs' !! id = Some j).
Proof.
  intros cutoff root' jobs'. subst root' jobs'. unfold background_cleaner_sweep.
  fold cutoff. split; [|split; [|split]].
  - intros name e He Hold.
    apply sweep_root_drop; [apply listdir_elem; by exists e | by exists e].
  - intros name e id j He Hold Hj Hunder.
    eapply sweep_jobs_drop;
      [apply listdir_elem; by exists e | by exists e | exact Hj |].
    apply job_under_spec. destruct Hunder as [? | [rest Hrest]]; [by left |].
    right. exists rest. by rewrite Hrest.
  - intros name e He Hyoung.
    rewrite sweep_root_keep; [done |].
    intros (e' & He' & Hold). simpl in He'. assert (e' = e) by congruence. subst. lia.
  - intros name e id j Hdirs He Hyoung Hj Hin.
    apply sweep_jobs_keep; [|done].
    intros n Hn (e' & He' & Hold). simpl in He'.
    apply job_in_entry_not_under with (name := name); [| | |done].
    + apply Hdirs. by exists e.
    + apply Hdirs. by exists e'.
    + intros ->. assert (e' = e) by congruence. subst. lia.
Qed.

(** C9 (the code departs from the claim).  The download root holds a stray
    old file named [b] and the young working directory of a finished job
    whose name begins with that letter.  A sweep removes the stray file
    and keeps the directory, as it should, but it also removes the record
    of the job: the janitor tests [filepath.startswith(path)] on the
    strings, with no path separator, where for [temp_dir] it tests
    equality. *)
Theorem stray_entry_prunes_young_record :
  let now := 10000 in
  let res := background_cleaner_sweep default_config now stray_root stray_jobs in
  (∃ e, stray_root !! young_id = Some e ∧ now - 30 * 60 ≤ mtime e) ∧
  (∃ j, stray_jobs !! young_id = Some j ∧ job_in_entry default_config young_id j) ∧
  res.1 !! "b" = None ∧
  res.1 !! young_id = stray_root !! young_id ∧
  res.2 !! young_id = None.
Proof.
  split; [|split].
  - exists (mkFsEntry 9000 true). split; [reflexivity | simpl; lia].
  - eexists. split; [reflexivity |]. split; [reflexivity |].
    right. eexists. reflexivity.
  - vm_compute. repeat split.
Qed.

(** * The statements at work on the samples *)

Lemma check_rate_limit_sliding_window_witness :
  (check_rate_limit default_config 5 "10.0.0.1"
     (serve default_config ∅ burst).2).1 = false ∧
  (check_rate_limit default_config 3604 "10.0.0.1"
     (serve default_config ∅ burst).2).1 = true.
Proof.
  destruct (check_rate_limit_sliding_window default_config) as (_ & Hburst & Hlater).
  split.
  - apply (Hburst 5 "10.0.0.1" ∅ burst).
    + repeat (apply Forall_cons; split; [simpl; lia |]). constructor.
    + vm_compute. reflexivity.
  - apply (Hlater 3604 "10.0.0.1" (serve default_config ∅ burst).2); [simpl; lia |].
    change (default [] ((serve default_config ∅ burst).2 !! "10.0.0.1"))
      with [0; 1; 2; 3; 4].
    repeat (apply Forall_cons; split; [simpl; lia |]). constructor.
Defined.

Lemma status_writes_walk_witness :
  status_walk
    (status_writes sample_id (run urlparse_model default_config sample_actions).2).
Proof.
  apply (status_writes_walk urlparse_model default_config sample_actions sample_id).
Defined.

Lemma ready_job_has_result_witness :
  ∃ p, download sample_id
         (jobs (run urlparse_model default_config sample_actions).1)
       = SendFile p (Str.basename p).
Proof.
  destruct (jobs (run urlparse_model default_config sample_actions).1 !! sample_id)
    as [j|] eqn:Hj; [|vm_compute in Hj; discriminate].
  destruct (ready_job_has_result urlparse_model default_config sample_actions
              sample_id j Hj) as (p & _ & _ & _ & _ & Hdownload & _).
  - vm_compute in Hj. injection Hj as <-. reflexivity.
  - by exists p.
Defined.

Lemma rejected_check_leaves_table_witness :
  (check_rate_limit default_config 5 "10.0.0.1"
     (serve default_config ∅ burst).2).2 = (serve default_config ∅ burst).2 ∧
  ∀ times,
    rate_limit (run urlparse_model default_config three_starts).1 !! "10.0.0.1"
    = Some times → Z.of_nat (length times) ≤ 5.
Proof.
  destruct (rejected_check_leaves_table urlparse_model default_config)
    as [Hrejected Hceiling].
  split.
  - apply Hrejected. vm_compute. reflexivity.
  - intros times. apply Hceiling.
Defined.

Lemma foreign_url_fails : netloc_or_path_fails urlparse_model foreign_url.
Proof.
  intros parsed Hparsed. vm_compute in Hparsed. injection Hparsed as <-.
  left. intros Hhost. apply instagram_host_spec in Hhost.
  vm_compute in Hhost. discriminate.
Qed.

(** With an API key configured and none sent, a request with a foreign URL
    is answered 401, not 400. *)
Lemma foreign_url_without_key_401 :
  let h := start urlparse_model keyed_config
             (sample_request foreign_url "10.0.0.1") 100 100 sample_id ∅ ∅ in
  netloc_or_path_fails urlparse_model foreign_url ∧
  response h = ErrorResponse 401 "Invalid or missing API key" ∧
  ¬ ∃ message, response h = ErrorResponse 400 message.
Proof.
  split; [apply foreign_url_fails |].
  split; [vm_compute; reflexivity |].
  intros [message H]. vm_compute in H. discriminate.
Qed.

Lemma invalid_url_rejected_witness :
  let h := start urlparse_model default_config
             (sample_request foreign_url "10.0.0.1") 100 100 sample_id ∅ ∅ in
  jobs_after h = ∅ ∧ response h = ErrorResponse 400 "Invalid Instagram URL".
Proof.
  destruct (invalid_url_rejected urlparse_model default_config
              (sample_request foreign_url "10.0.0.1") 100 100 sample_id
              foreign_url ∅ ∅ eq_refl foreign_url_fails)
    as (Hjobs & _ & _ & _ & Hok & _).
  split; [exact Hjobs |]. apply Hok. left. reflexivity.
Defined.

Lemma login_error_text_witness :
  let w := (run urlparse_model default_config engine_actions).1 in
  let w' := (exec urlparse_model default_config w
               (AWorkerFinish sample_id sample_env_forbidden)).1 in
  job_error <$> jobs w' !! sample_id = Some (Some LOGIN_REQUIRED_TEXT).
Proof.
  intros w w'.
  destruct (jobs w !! sample_id) as [j|] eqn:Hj; [|vm_compute in Hj; discriminate].
  destruct (login_error_text urlparse_model default_config w sample_id "mp4"
              sample_env_forbidden
              (mkExn DownloadError
                 "ERROR: [Instagram] Cabc123: HTTP Error 403 Forbidden") j)
    as (_ & _ & _ & Hjob & _).
  - vm_compute. reflexivity.
  - exact Hj.
  - reflexivity.
  - reflexivity.
  - discriminate.
  - apply (forbidden_is_login_error
             "ERROR: [Instagram] Cabc123: HTTP Error " EmptyString).
  - subst w'. rewrite Hjob. reflexivity.
Defined.

Lemma events_stream_witness :
  let js := jobs (run urlparse_model default_config engine_actions).1 in
  ∃ body,
    events float_repr_model sample_id [js; js; ∅; js]
    = (body ++ [sse_chunk (json_dumps float_repr_model PayloadUnknown)], true) ∧
    sse_chunk (json_dumps float_repr_model PayloadUnknown) ∉ body.
Proof.
  intros js.
  destruct (events_stream float_repr_model sample_id) as (_ & _ & _ & _ & Hgone).
  apply (Hgone [js; js] ∅ [js]); [|reflexivity].
  assert (¬ observed_terminal sample_id js) as Hrunning.
  { rewrite <- payload_terminal_spec. vm_compute. discriminate. }
  repeat (apply Forall_cons; split; [exact Hrunning |]). constructor.
Defined.

Lemma sample_root_holds_job_dirs : holds_job_dirs sample_root.
Proof.
  intros name [e He]. unfold sample_root in He.
  apply lookup_insert_Some in He as [[<- _] | [_ He]]; [reflexivity |].
  apply lookup_singleton_Some in He as [<- _]. reflexivity.
Qed.

Lemma janitor_sweep_on_sample :
  let res := background_cleaner_sweep default_config 10000 sample_root sample_jobs in
  res.1 !! old_id = None ∧ res.2 !! old_id = None ∧
  res.1 !! young_id = Some (mkFsEntry 9000 true) ∧
  res.2 !! young_id = Some (sample_job young_id running None).
Proof.
  destruct (janitor_sweep_effect default_config 10000 sample_root sample_jobs)
    as (Hold & Hjob & Hyoung & Hkept).
  split; [|split; [|split]].
  - apply (Hold old_id (mkFsEntry 0 true)); [reflexivity | simpl; lia].
  - apply (Hjob old_id (mkFsEntry 0 true) old_id
             (sample_job old_id ready
                (Some (temp_dir_of default_config old_id +:+ "/" +:+ "Cold.mp4"))));
      [reflexivity | simpl; lia | reflexivity | left; reflexivity].
  - apply (Hyoung young_id (mkFsEntry 9000 true)); [reflexivity | simpl; lia].
  - apply (Hkept young_id (mkFsEntry 9000 true) young_id
             (sample_job young_id running None));
      [apply sample_root_holds_job_dirs | reflexivity | simpl; lia
      | reflexivity | split; [reflexivity | left; reflexivity]].
Defined.

(** * Further properties of the code *)

(** ** Rate limiter *)

Lemma serve_within_ceiling (cfg : Config) reqs : ∀ rl : RateLimit,
  within_ceiling cfg rl → within_ceiling cfg (serve cfg rl reqs).2.
Proof.
  induction reqs as [|[t ip] reqs IH]; intros rl Hrl; simpl; [done |].
  pose proof (check_rate_limit_within_ceiling cfg t ip rl Hrl) as Hstep.
  destruct (check_rate_limit cfg t ip rl) as [ok rl1]. simpl in Hstep.
  specialize (IH rl1 Hstep). by destruct (serve cfg rl1 reqs).
Qed.

(** X1. The guarantee of the rate limiter: from a table whose lists are
    within the ceiling (the empty one, or any table the limiter has made),
    no client has more than [RATE_LIMIT_COUNT] requests accepted among
    requests that all lie in one window, whatever the other clients do. *)
Theorem rate_limit_bound (cfg : Config) (now : Z) (ip : string)
    (rl : RateLimit) (reqs : list (Z * string)) :
  0 ≤ RATE_LIMIT_COUNT cfg →
  within_ceiling cfg rl →
  Forall (λ r, r.1 ≤ now ∧ now - r.1 < RATE_LIMIT_WINDOW cfg) reqs →
  Z.of_nat (accepted_of ip reqs (serve cfg rl reqs).1) ≤ RATE_LIMIT_COUNT cfg.
Proof.
  intros Hpos Hrl Hall.
  pose proof (serve_keeps_accepted cfg now ip reqs rl Hall) as Hkept.
  pose proof (serve_within_ceiling cfg reqs rl Hrl ip) as Hceil.
  destruct ((serve cfg rl reqs).2 !! ip) as [times|] eqn:Htimes; simpl in Hkept.
  - specialize (Hceil times eq_refl).
    pose proof (length_filter (λ t, now - t < RATE_LIMIT_WINDOW cfg) times). lia.
  - simpl in Hkept. lia.
Qed.

Lemma rate_limit_bound_witness :
  Z.of_nat (accepted_of "10.0.0.1" (burst ++ [(5, "10.0.0.1")])
              (serve default_config ∅ (burst ++ [(5, "10.0.0.1")])).1) ≤ 5.
Proof.
  apply (rate_limit_bound default_config 5 "10.0.0.1" ∅ (burst ++ [(5, "10.0.0.1")])).
  - simpl. lia.
  - apply within_ceiling_empty.
  - repeat (apply Forall_cons; split; [simpl; lia |]). constructor.
Defined.

(** X2. Clients do not interfere: the checks of two different clients
    give the same answers and the same table in either order. *)
Theorem check_rate_limit_commute (cfg : Config) (t1 t2 : Z) (ip1 ip2 : string)
    (rl : RateLimit) :
  ip1 ≠ ip2 →
  let first := check_rate_limit cfg t1 ip1 rl in
  let second := check_rate_limit cfg t2 ip2 first.2 in
  let first' := check_rate_limit cfg t2 ip2 rl in
  let second' := check_rate_limit cfg t1 ip1 first'.2 in
  first.1 = second'.1 ∧ second.1 = first'.1 ∧ second.2 = second'.2.
Proof.
  intros Hne. unfold check_rate_limit.
  destruct (bool_decide (RATE_LIMIT_COUNT cfg ≤ Z.of_nat (length
              (filter (λ t, t1 - t < RATE_LIMIT_WINDOW cfg) (default [] (rl !! ip1))))))
    eqn:H1;
  destruct (bool_decide (RATE_LIMIT_COUNT cfg ≤ Z.of_nat (length
              (filter (λ t, t2 - t < RATE_LIMIT_WINDOW cfg) (default [] (rl !! ip2))))))
    eqn:H2;
  cbn [fst snd]; rewrite ?lookup_insert_ne by done; rewrite ?H1, ?H2;
    cbn [fst snd]; try done.
  split; [done |]. split; [done |]. by apply insert_insert_ne.
Qed.

Lemma check_rate_limit_commute_witness :
  (check_rate_limit default_config 2 "10.0.0.2"
     (check_rate_limit default_config 1 "10.0.0.1" ∅).2).2
  = (check_rate_limit default_config 1 "10.0.0.1"
       (check_rate_limit default_config 2 "10.0.0.2" ∅).2).2.
Proof.
  apply (check_rate_limit_commute default_config 1 2 "10.0.0.1" "10.0.0.2" ∅).
  discriminate.
Defined.

Lemma prune_jobs_empty (path : string) : prune_jobs path ∅ = ∅.
Proof. apply map_eq. intros id. by rewrite prune_jobs_lookup, lookup_empty. Qed.

(** X3. With a ceiling of zero or less the service is closed: every check of
    the rate limiter rejects, no request is answered with a job and, in
    every run, the job table stays empty. *)
Theorem nonpositive_ceiling_closes (urlparse : string → option ParseResult)
    (cfg : Config) :
  RATE_LIMIT_COUNT cfg ≤ 0 →
  (∀ now ip (rl : RateLimit), (check_rate_limit cfg now ip rl).1 = false) ∧
  (∀ req now created_at uuid (js : Jobs) (rl : RateLimit),
     ∃ code message,
       response (start urlparse cfg req now created_at uuid js rl)
       = ErrorResponse code message) ∧
  (∀ acts, jobs (run urlparse cfg acts).1 = ∅).
Proof.
  intros Hzero.
  assert (Hreject : ∀ now ip (rl : RateLimit),
            (check_rate_limit cfg now ip rl).1 = false).
  { intros now ip rl. apply check_rate_limit_rejects. lia. }
  split; [done |]. split.
  - intros req now created_at uuid js rl.
    destruct (start_cases urlparse cfg req now created_at uuid js rl)
      as [(code & msg & ->) | (j & args & _ & _ & _ & _ & Hok)]; [by eauto |].
    by rewrite Hreject in Hok.
  - intros acts.
    apply (run_invariant urlparse cfg (λ w _, jobs w = ∅ ∧ threads w = ∅));
      [done |].
    intros w tr a [Hjobs Hthreads].
    destruct a as [req now created_at uuid | id0 ok | id0 d | id0 env | path0];
      cbn [exec]; rewrite ?Hthreads, ?lookup_empty; try done.
    + case_bool_decide; [done |].
      destruct (start_cases urlparse cfg req now created_at uuid (jobs w)
                  (rate_limit w))
        as [(code & msg & ->) | (j & args & _ & _ & _ & _ & Hok)]; [done |].
      by rewrite Hreject in Hok.
    + simpl. by rewrite Hjobs, prune_jobs_empty.
Qed.

Lemma nonpositive_ceiling_closes_witness :
  jobs (run urlparse_model closed_config sample_actions).1 = ∅.
Proof.
  apply (nonpositive_ceiling_closes urlparse_model closed_config); simpl; lia.
Defined.

(** ** Concurrency count *)

Lemma count_active_fold (ip : string) (l : list Job) : ∀ acc : Z,
  foldl (λ count j, if is_active ip j then count + 1 else count) acc l
  = acc + Z.of_nat (length (filter (λ j, is_active ip j = true) l)).
Proof.
  induction l as [|j l IH]; intros acc; simpl; [lia |].
  rewrite IH, filter_cons.
  destruct (decide (is_active ip j = true)) as [H | H].
  - rewrite H. simpl. lia.
  - apply not_true_is_false in H. rewrite H. lia.
Qed.

Lemma active_jobs_insert_fresh (ip id : string) (j : Job) (js : Jobs) :
  js !! id = None →
  active_jobs ip (<[id := j]> js)
  = ((if is_active ip j then 1 else 0) + active_jobs ip js)%nat.
Proof.
  intros Hid. unfold active_jobs.
  rewrite (map_to_list_insert js id j Hid). rewrite fmap_cons, filter_cons.
  cbn [snd].
  destruct (decide (is_active ip j = true)) as [H | H].
  - by rewrite H.
  - apply not_true_is_false in H. by rewrite H.
Qed.

(** X4. [check_concurrent_limit] answers yes exactly when the client has
    fewer queued or running records than [RATE_LIMIT_CONCURRENT].  Records
    of other clients and records that are ready or failed do not count: a
    job that leaves the queued and running states frees one place, and a
    new record that is not an active one of the client changes nothing. *)
Theorem check_concurrent_limit_counts (cfg : Config) (ip : string) (js : Jobs) :
  (check_concurrent_limit cfg ip js = true ↔
     Z.of_nat (active_jobs ip js) < RATE_LIMIT_CONCURRENT cfg) ∧
  (∀ id j j',
     js !! id = Some j → is_active ip j = true → is_active ip j' = false →
     active_jobs ip js = S (active_jobs ip (<[id := j']> js))) ∧
  (∀ id j,
     js !! id = None → is_active ip j = false →
     active_jobs ip (<[id := j]> js) = active_jobs ip js).
Proof.
  split; [|split].
  - unfold check_concurrent_limit, active_jobs.
    rewrite count_active_fold, bool_decide_eq_true. lia.
  - intros id j j' Hj Hactive Hidle.
    rewrite <- (insert_delete_eq js id j').
    rewrite <- (insert_delete_id js id j Hj) at 1.
    rewrite !active_jobs_insert_fresh by apply lookup_delete_eq.
    by rewrite Hactive, Hidle.
  - intros id j Hid Hidle.
    by rewrite active_jobs_insert_fresh, Hidle.
Qed.

Lemma check_concurrent_limit_counts_witness :
  check_concurrent_limit default_config "10.0.0.1" busy_jobs = true ∧
  active_jobs "10.0.0.1" busy_jobs
  = S (active_jobs "10.0.0.1"
         (<[old_id := sample_job old_id error None]> busy_jobs)).
Proof.
  destruct (check_concurrent_limit_counts default_config "10.0.0.1" busy_jobs)
    as (Hiff & Hfree & _).
  split.
  - apply Hiff. vm_compute. reflexivity.
  - apply (Hfree old_id (sample_job old_id running None)); reflexivity.
Defined.

(** ** URL validation *)

Lemma last_char_app (a b : string) :
  b ≠ EmptyString → last_char (a +:+ b) = last_char b.
Proof.
  intros Hb. induction a as [|c a IH]; [done |].
  change (String c a +:+ b) with (String c (a +:+ b)). cbn [last_char].
  rewrite IH. destruct (a +:+ b) eqn:Hab; [|done].
  destruct a; [by subst | discriminate].
Qed.

(** X5. What [is_valid_instagram_url] accepts: the URL parses, its scheme
    is [http] or [https], its lower-cased [netloc] is [instagram.com] or
    ends with [.instagram.com], and its lower-cased path contains [/reel],
    [/p/] or [/tv/] somewhere.  The tests for a leading marker and for
    [/reels] add nothing to that. *)
Theorem is_valid_instagram_url_iff (urlparse : string → option ParseResult)
    (url : string) :
  is_valid_instagram_url urlparse url = true ↔
  ∃ parsed, urlparse url = Some parsed ∧
    (scheme parsed = "http" ∨ scheme parsed = "https") ∧
    instagram_host (Str.lower (netloc parsed)) ∧
    ∃ k, k ∈ ["/reel"; "/p/"; "/tv/"] ∧
         ∃ pre post, Str.lower (path parsed) = pre +:+ k +:+ post.
Proof.
  rewrite is_valid_instagram_url_spec. split.
  - intros (parsed & Hp & Hs & Hh & k & Hk & pre & post & Hpath).
    exists parsed. repeat (split; [done |]).
    rewrite !elem_of_cons, elem_of_nil in Hk.
    destruct Hk as [-> | [-> | [-> | [-> | []]]]].
    + exists "/reel". split; [rewrite !elem_of_cons; auto |]. eauto.
    + exists "/reel". split; [rewrite !elem_of_cons; auto |].
      exists pre, ("s" +:+ post). by rewrite Hpath.
    + exists "/p/". split; [rewrite !elem_of_cons; auto |]. eauto.
    + exists "/tv/". split; [rewrite !elem_of_cons; auto |]. eauto.
  - intros (parsed & Hp & Hs & Hh & k & Hk & pre & post & Hpath).
    exists parsed. repeat (split; [done |]).
    exists k. split; [|by eauto].
    rewrite !elem_of_cons, elem_of_nil in Hk. rewrite !elem_of_cons.
    destruct Hk as [-> | [-> | [-> | []]]]; auto.
Qed.

(** X6. The host test reads the whole [netloc]: a URL whose [netloc] does
    not end with the letter m, in either case, is rejected.  So is every
    URL that names a port, such as [https://instagram.com:443/p/x/], or
    that ends its host with a dot. *)
Theorem netloc_must_end_in_m (urlparse : string → option ParseResult)
    (url : string) (parsed : ParseResult) (c : ascii) :
  urlparse url = Some parsed →
  last_char (netloc parsed) = Some c →
  Str.lower_char c ≠ "m"%char →
  is_valid_instagram_url urlparse url = false.
Proof.
  intros Hparsed Hlast Hc. apply not_true_is_false.
  rewrite is_valid_instagram_url_spec.
  intros (parsed' & Hp & _ & Hhost & _).
  assert (parsed' = parsed) as -> by congruence.
  assert (last_char (Str.lower (netloc parsed)) = Some (Str.lower_char c)) as Hl.
  { clear -Hlast. induction (netloc parsed) as [|x s IH]; [done |].
    destruct s as [|y s]; [by injection Hlast as -> |].
    by apply IH. }
  destruct Hhost as [Heq | [sub Heq]]; rewrite Heq in Hl.
  - injection Hl as Hl. done.
  - rewrite last_char_app in Hl by done. injection Hl as Hl. done.
Qed.

Lemma netloc_must_end_in_m_witness :
  is_valid_instagram_url urlparse_model "https://instagram.com:443/p/Cabc123/"
  = false.
Proof.
  apply (netloc_must_end_in_m urlparse_model _
           (mkParseResult "https" "instagram.com:443" "/p/Cabc123/") "3"%char).
  - vm_compute. reflexivity.
  - reflexivity.
  - discriminate.
Defined.

(** ** The [/start] handler *)

Lemma truthy_opt_Some (o : option string) :
  Str.truthy_opt o = true ↔ ∃ s, o = Some s ∧ s ≠ EmptyString.
Proof.
  destruct o as [[|c s]|]; simpl; split; try done.
  - intros (s & [= <-] & Hs). done.
  - intros _. by eexists.
  - intros (s & ? & _). done.
Qed.

(** X7. [start] answers with a job exactly when the request passes the key
    check, carries a non-empty URL that [is_valid_instagram_url] accepts,
    and the rate limiter accepts the client.  It then adds one record,
    queued, under the new identifier, with format [mp4] when none is asked
    for, keeps the table of the rate limiter as the check left it, and
    starts one worker with the URL, the format and the proxy. *)
Theorem start_accepts_iff (urlparse : string → option ParseResult)
    (cfg : Config) (req : Request) (now created_at : Z) (uuid : string)
    (js : Jobs) (rl : RateLimit) :
  let h := start urlparse cfg req now created_at uuid js rl in
  (response h = JobStarted uuid ↔
     api_key_accepted cfg req ∧
     (∃ url, req_url req = Some url ∧ url ≠ EmptyString ∧
             is_valid_instagram_url urlparse url = true) ∧
     (check_rate_limit cfg now (get_client_ip req) rl).1 = true) ∧
  (response h = JobStarted uuid →
     ∃ url, req_url req = Some url ∧
       jobs_after h = <[uuid := new_job req url created_at uuid]> js ∧
       rate_limit_after h = (check_rate_limit cfg now (get_client_ip req) rl).2 ∧
       writes h = [StatusWrite uuid queued] ∧
       spawned h = Some (mkThreadArgs uuid url (default "mp4" (req_format req))
                           (req_proxy req))).
Proof.
  intros h. subst h. unfold start.
  pose proof (api_key_accepted_spec cfg req) as Hkey. cbv zeta in Hkey.
  destruct (Str.truthy_opt (API_KEY cfg) && _) eqn:Hguard; cbn [response].
  { split; [|done]. split; [done |]. intros [Hacc _].
    apply Hkey in Hacc. done. }
  assert (api_key_accepted cfg req) as Hacc by by apply Hkey.
  destruct (Str.truthy_opt (req_url req)) eqn:Hurl; cbn [negb orb]; cycle 1.
  { split; [|done]. split; [done |]. intros (_ & (url & Hu & Hne & _) & _).
    assert (Str.truthy_opt (req_url req) = true) as Ht
      by (apply truthy_opt_Some; eauto).
    congruence. }
  apply truthy_opt_Some in Hurl as (url & Hu & Hne). rewrite Hu.
  change (default EmptyString (Some url)) with url.
  destruct (is_valid_instagram_url urlparse url) eqn:Hvalid; cbn [negb]; cycle 1.
  { split; [|done]. split; [done |]. intros (_ & (url' & Hu' & _ & Hv) & _).
    congruence. }
  destruct (check_rate_limit cfg now (get_client_ip req) rl) as [[] rl'] eqn:Hchk;
    cbn [fst snd response]; cycle 1.
  { split; [|done]. split; [done |]. intros (_ & _ & ?). done. }
  unfold create_job. cbn [response jobs_after rate_limit_after writes spawned].
  split.
  - split; [|done]. intros _. split; [done |]. split; [|done]. by exists url.
  - intros _. by exists url.
Qed.

Lemma start_accepts_iff_witness :
  response (start urlparse_model default_config
              (sample_request reel_url "10.0.0.1") 100 100 sample_id ∅ ∅)
  = JobStarted sample_id.
Proof.
  apply (start_accepts_iff urlparse_model default_config
           (sample_request reel_url "10.0.0.1") 100 100 sample_id ∅ ∅).
  split; [left; reflexivity |]. split; [|reflexivity].
  exists reel_url. split; [reflexivity |]. split; [discriminate |].
  vm_compute. reflexivity.
Defined.

(** X8. A request that [start] rejects, with 401, 400 or 429, leaves both
    tables as they were, assigns no status and starts no worker; a request
    with a bad key or a bad URL uses up nothing of the client's budget. *)
Theorem start_rejection_changes_nothing (urlparse : string → option ParseResult)
    (cfg : Config) (req : Request) (now created_at : Z) (uuid : string)
    (js : Jobs) (rl : RateLimit) (code : Z) (message : string) :
  let h := start urlparse cfg req now created_at uuid js rl in
  response h = ErrorResponse code message →
  jobs_after h = js ∧ rate_limit_after h = rl ∧
  writes h = [] ∧ spawned h = None ∧
  (code, message) ∈ [ (401, "Invalid or missing API key");
                      (400, "Invalid Instagram URL");
                      (429, "Rate limit exceeded") ].
Proof.
  intros h. subst h. unfold start. rewrite !elem_of_cons.
  destruct (_ && _); cbn [response];
    [intros [= <- <-]; simpl; by auto 10 |].
  destruct (_ || _); cbn [response];
    [intros [= <- <-]; simpl; by auto 10 |].
  destruct (check_rate_limit _ _ _ _) as [[] rl']; cbn [response];
    [by destruct (create_job _ _ _ _ _ _ _) as [[? ?] ?]
    | intros [= <- <-]; simpl; by auto 10].
Qed.

Lemma start_rejection_changes_nothing_witness :
  rate_limit_after
    (start urlparse_model default_config (sample_request reel_url "10.0.0.1")
       5 5 sample_id ∅ (serve default_config ∅ burst).2)
  = (serve default_config ∅ burst).2.
Proof.
  apply (start_rejection_changes_nothing urlparse_model default_config
           (sample_request reel_url "10.0.0.1") 5 5 sample_id ∅
           (serve default_config ∅ burst).2 429 "Rate limit exceeded").
  vm_compute. reflexivity.
Defined.

(** ** The download worker *)

Lemma scan_files_None root files ext :
  scan_files root files ext None = None ↔
  ∀ f, f ∈ files → Str.endswith (Str.lower f) ext = false.
Proof.
  induction files as [|f files IH]; simpl.
  - split; [by intros _ f ?%elem_of_nil | done].
  - destruct (Str.endswith (Str.lower f) ext) eqn:Hf.
    + split; [done |]. intros H. specialize (H f). rewrite Hf in H.
      discriminate H. by left.
    + rewrite IH. split.
      * intros H f' [-> | Hin]%elem_of_cons; auto.
      * intros H f' Hin. apply H. by right.
Qed.

Lemma scan_files_Some root files ext produced p :
  scan_files root files ext produced = Some p →
  produced = Some p ∨
  ∃ f, f ∈ files ∧ Str.endswith (Str.lower f) ext = true ∧
       p = Str.path_join root f.
Proof.
  induction files as [|f files IH]; simpl; [by left |].
  destruct (Str.endswith (Str.lower f) ext) eqn:Hf.
  - intros [= <-]. right. exists f. split; [by left | done].
  - intros H. destruct (IH H) as [? | (f' & Hin & Hm & ->)]; [by left |].
    right. exists f'. split; [by right | done].
Qed.

Lemma walk_search_None walk ext : ∀ produced,
  walk_search walk ext produced = None ↔
  produced = None ∧
  ∀ root files f, (root, files) ∈ walk → f ∈ files →
                  Str.endswith (Str.lower f) ext = false.
Proof.
  induction walk as [|[root files] walk IH]; intros produced; simpl.
  - split; [intros ->; split; [done | by intros ? ? ? ?%elem_of_nil] | by intros [-> _]].
  - destruct (Str.truthy_opt (scan_files root files ext produced)) eqn:Ht.
    + split.
      * intros H. by rewrite H in Ht.
      * intros [-> H]. exfalso.
        assert (scan_files root files ext None = None) as Hs.
        { apply scan_files_None. intros f Hf. eapply H; [by left | done]. }
        by rewrite Hs in Ht.
    + rewrite IH. split.
      * intros [Hs H].
        assert (produced = None) as ->.
        { destruct produced as [p|]; [|done]. clear -Hs.
          induction files as [|f files IHf]; simpl in Hs; [done |].
          destruct (Str.endswith _ _); [done | auto]. }
        split; [done |]. intros root' files' f [[= -> ->] | Hin]%elem_of_cons Hf.
        -- by eapply scan_files_None.
        -- by eapply H.
      * intros [-> H]. split.
        -- apply scan_files_None. intros f Hf. eapply H; [by left | done].
        -- intros root' files' f Hin Hf. eapply H; [by right | done].
Qed.

Lemma walk_search_Some walk ext : ∀ produced p,
  walk_search walk ext produced = Some p →
  produced = Some p ∨
  ∃ root files f, (root, files) ∈ walk ∧ f ∈ files ∧
                  Str.endswith (Str.lower f) ext = true ∧
                  p = Str.path_join root f.
Proof.
  induction walk as [|[root files] walk IH]; intros produced p; simpl; [by left |].
  assert (∀ q, scan_files root files ext produced = Some q →
               produced = Some q ∨
               ∃ root0 files0 f, (root0, files0) ∈ (root, files) :: walk ∧
                 f ∈ files0 ∧ Str.endswith (Str.lower f) ext = true ∧
                 q = Str.path_join root0 f) as Hscan.
  { intros q Hq. destruct (scan_files_Some _ _ _ _ _ Hq) as [? | (f & ? & ? & ?)];
      [by left |]. right. exists root, files, f. split; [by left | done]. }
  destruct (Str.truthy_opt (scan_files root files ext produced)) eqn:Ht.
  - apply Hscan.
  - intros H. destruct (IH _ _ H) as [Hq | (root' & files' & f & Hin & Hrest)].
    + by apply Hscan.
    + right. exists root', files', f. split; [by right | done].
Qed.

(** X9. The search for the produced file finds nothing exactly when no
    file of the listing has a lower-cased name that ends with the
    extension; what it finds is the path, joined to its directory, of such
    a file of the listing. *)
Theorem walk_search_finds (walk : list (string * list string)) (ext : string) :
  (walk_search walk ext None = None ↔ ¬ listing_has ext walk) ∧
  (∀ p, walk_search walk ext None = Some p →
        ∃ root files f, (root, files) ∈ walk ∧ f ∈ files ∧
          Str.endswith (Str.lower f) ext = true ∧ p = Str.path_join root f).
Proof.
  split.
  - rewrite walk_search_None. unfold listing_has. split.
    + intros [_ H] (root & files & f & Hin & Hf & Hm).
      by rewrite (H root files f Hin Hf) in Hm.
    + intros H. split; [done |]. intros root files f Hin Hf.
      apply not_true_is_false. intros Hm. apply H. by exists root, files, f.
  - intros p Hp. by destruct (walk_search_Some _ _ _ _ Hp).
Qed.

Lemma path_join_truthy (root f : string) :
  f ≠ EmptyString → Str.truthy (Str.path_join root f) = true.
Proof.
  intros Hf. unfold Str.path_join.
  assert (∀ a, Str.truthy (a +:+ f) = true) as Happ.
  { intros [|c a]; [by destruct f | done]. }
  destruct (Str.startswith f "/"); [by destruct f |].
  destruct (_ || _); [apply Happ |].
  destruct root; [done | done].
Qed.

Lemma endswith_nonempty (s ext : string) :
  Str.endswith (Str.lower s) ext = true → ext ≠ EmptyString → s ≠ EmptyString.
Proof.
  intros Hends Hext ->. simpl in Hends.
  rewrite orb_false_r in Hends. apply bool_decide_eq_true in Hends. done.
Qed.

Lemma scan_files_truthy root files ext produced f :
  ext ≠ EmptyString → f ∈ files → Str.endswith (Str.lower f) ext = true →
  Str.truthy_opt (scan_files root files ext produced) = true.
Proof.
  intros Hext Hin Hm. induction files as [|f0 files IH]; simpl.
  - by apply elem_of_nil in Hin.
  - destruct (Str.endswith (Str.lower f0) ext) eqn:Hf0.
    + simpl. apply path_join_truthy. by eapply endswith_nonempty.
    + apply elem_of_cons in Hin as [-> | Hin]; [congruence | auto].
Qed.

Lemma walk_search_truthy walk ext : ∀ produced,
  ext ≠ EmptyString → listing_has ext walk →
  Str.truthy_opt (walk_search walk ext produced) = true.
Proof.
  induction walk as [|[root files] walk IH];
    intros produced Hext (root' & files' & f & Hin & Hf & Hm); simpl.
  - by apply elem_of_nil in Hin.
  - destruct (Str.truthy_opt (scan_files root files ext produced)) eqn:Ht; [done |].
    apply IH; [done |].
    apply elem_of_cons in Hin as [[= -> ->] | Hin]; [|by exists root', files', f].
    by rewrite (scan_files_truthy root files ext produced f) in Ht.
Qed.

Lemma final_ext_nonempty (fmt : string) : final_ext fmt ≠ EmptyString.
Proof. unfold final_ext. by case_bool_decide. Qed.

(** The worker after an engine call that returned. *)
Lemma finish_download_job_engine_ok id fmt env (js : Jobs) (j : Job) :
  js !! id = Some j →
  run_setup env = None →
  run_engine env = None →
  finish_download_job id fmt env js =
    match walk_search (run_walk env) (final_ext fmt) None with
    | Some p =>
        if Str.truthy p
        then (<[id := ready_job p (run_getsize env) j]> js,
              [StatusWrite id ready], inr tt)
        else (<[id := with_error OUTPUT_MISSING_TEXT (with_status error j)]> js,
              [StatusWrite id error], inr tt)
    | None =>
        (<[id := with_error OUTPUT_MISSING_TEXT (with_status error j)]> js,
         [StatusWrite id error], inr tt)
    end.
Proof.
  intros Hj Hsetup Hengine.
  unfold finish_download_job, try_except, bind, raise_if.
  rewrite Hsetup, Hengine. unfold ret. cbn [negb].
  destruct (walk_search _ _ _) as [p|]; cbn [Str.truthy_opt negb default].
  - destruct (Str.truthy p); cbn [negb].
    + by rewrite (set_ready_Some _ _ _ _ j).
    + by rewrite (set_error_Some _ _ _ j).
  - by rewrite (set_error_Some _ _ _ j).
Qed.

(** X10. When the engine call of a job returns and the record of the job is
    in the table, the worker exits leaving the job ready, with the file
    that the search finds, its base name and its size, if the working
    directory lists a file whose lower-cased name ends with [mp3] (format
    [audio]) or [mp4] (any other format); otherwise it leaves the job failed
    with the text for a missing output. *)
Theorem finished_download_outcome (urlparse : string → option ParseResult)
    (cfg : Config) (w : World) (id fmt : string) (env : EngineRun) (j : Job) :
  threads w !! id = Some (InEngine fmt) →
  jobs w !! id = Some j →
  run_setup env = None →
  run_engine env = None →
  let w' := (exec urlparse cfg w (AWorkerFinish id env)).1 in
  let ext := if bool_decide (fmt = "audio") then "mp3" else "mp4" in
  threads w' !! id = Some Exited ∧
  (listing_has ext (run_walk env) →
     ∃ p, walk_search (run_walk env) ext None = Some p ∧
          jobs w' !! id = Some (ready_job p (run_getsize env) j)) ∧
  (¬ listing_has ext (run_walk env) →
     jobs w' !! id = Some (with_error OUTPUT_MISSING_TEXT (with_status error j))).
Proof.
  intros Hpc Hj Hsetup Hengine w' ext. subst w'. cbn [exec]. rewrite Hpc.
  rewrite (finish_download_job_engine_ok id fmt env (jobs w) j) by done.
  fold (final_ext fmt). fold (final_ext fmt) in ext. subst ext.
  split; [|split].
  - destruct (walk_search _ _ _) as [p|]; [destruct (Str.truthy p) |];
      cbn [fst threads]; apply lookup_insert_eq.
  - intros Hhas.
    pose proof (walk_search_truthy (run_walk env) (final_ext fmt) None
                  (final_ext_nonempty fmt) Hhas) as Ht.
    destruct (walk_search _ _ _) as [p|]; [|done]. simpl in Ht. rewrite Ht.
    exists p. split; [done |]. cbn [fst jobs]. apply lookup_insert_eq.
  - intros Hnone.
    assert (walk_search (run_walk env) (final_ext fmt) None = None) as ->.
    { apply walk_search_None. split; [done |]. intros root files f Hin Hf.
      apply not_true_is_false. intros Hm. apply Hnone. by exists root, files, f. }
    cbn [fst jobs]. apply lookup_insert_eq.
Qed.

Lemma finished_download_outcome_witness :
  let w := (run urlparse_model default_config engine_actions).1 in
  ∃ p, jobs (exec urlparse_model default_config w
               (AWorkerFinish sample_id sample_env_ok)).1 !! sample_id
       = Some (ready_job p (Some 1048576)
                 (with_progress ProgStarted
                    (with_status running
                       (with_temp_dir (temp_dir_of default_config sample_id)
                          (new_job (sample_request reel_url "10.0.0.1") reel_url
                             100 sample_id))))).
Proof.
  intros w.
  destruct (finished_download_outcome urlparse_model default_config w sample_id
              "mp4" sample_env_ok
              (with_progress ProgStarted
                 (with_status running
                    (with_temp_dir (temp_dir_of default_config sample_id)
                       (new_job (sample_request reel_url "10.0.0.1") reel_url
                          100 sample_id)))))
    as (_ & Hready & _); try (vm_compute; reflexivity).
  destruct Hready as (p & _ & Hp).
  - exists "/app/downloads/0123456789abcdef0123456789abcdef", ["Cabc123.mp4"],
      "Cabc123.mp4".
    split; [by left |]. split; [by left |]. vm_compute. reflexivity.
  - by exists p.
Defined.

(** X11. A step of the worker of a job (its first block, a progress hook,
    its last blocks) leaves the rate limiter, the records of all other jobs
    and their workers as they were, and neither makes nor removes the
    record of its own job: a record that the janitor has removed is never
    brought back. *)
Theorem worker_step_frame (urlparse : string → option ParseResult)
    (cfg : Config) (w : World) (a : Action) (id0 : string) :
  worker_of a = Some id0 →
  let w' := (exec urlparse cfg w a).1 in
  rate_limit w' = rate_limit w ∧
  (∀ id, id ≠ id0 →
     jobs w' !! id = jobs w !! id ∧ threads w' !! id = threads w !! id) ∧
  (is_Some (jobs w' !! id0) ↔ is_Some (jobs w !! id0)).
Proof.
  intros Ha w'. subst w'.
  destruct a as [req now created_at uuid | id1 ok | id1 d | id1 env | path0];
    cbn [worker_of] in Ha; simplify_eq; cbn [exec].
  - destruct (threads w !! id0) as [[args | fmt |]|] eqn:Hpc; try done.
    destruct ok; cycle 1.
    { simpl. split; [done |]. split; [|done].
      intros id Hne. by rewrite lookup_insert_ne. }
    destruct (jobs w !! id0) as [j|] eqn:Hj.
    + rewrite (mark_running_Some _ _ _ j) by done. simpl.
      split; [done |]. split.
      * intros id Hne. by rewrite !lookup_insert_ne.
      * rewrite ?lookup_insert_eq, ?Hj. split; eauto.
    + rewrite mark_running_None by done. simpl.
      split; [done |]. split; [|by rewrite ?Hj].
      intros id Hne. by rewrite lookup_insert_ne.
  - destruct (threads w !! id0) as [[args | fmt |]|] eqn:Hpc; try done.
    destruct (yt_progress_hook_cases id0 d (jobs w)) as [-> | (j & p & Hj & ->)];
      simpl; [done |].
    split; [done |]. split.
    + intros id Hne. by rewrite lookup_insert_ne.
    + rewrite ?lookup_insert_eq, ?Hj. split; eauto.
  - destruct (threads w !! id0) as [[args | fmt |]|] eqn:Hpc; try done.
    destruct (jobs w !! id0) as [j|] eqn:Hj.
    + destruct (finish_download_job_Some id0 fmt env (jobs w) j Hj)
        as [[r ->] | [[text ->] | (p & sz & Hp & ->)]]; simpl;
        (split; [done |]); (split;
          [intros id Hne; by rewrite ?lookup_insert_ne
          | rewrite ?lookup_insert_eq, ?Hj; split; eauto]).
    + destruct (finish_download_job_None id0 fmt env (jobs w) Hj) as [r ->].
      simpl. split; [done |]. split; [|by rewrite ?Hj].
      intros id Hne. by rewrite lookup_insert_ne.
Qed.

Lemma worker_step_frame_witness :
  let w := (run urlparse_model default_config three_starts).1 in
  jobs (exec urlparse_model default_config w
          (AWorkerBegin "00000000000000000000000000000001" true)).1
    !! "00000000000000000000000000000002"
  = jobs w !! "00000000000000000000000000000002".
Proof.
  intros w.
  destruct (worker_step_frame urlparse_model default_config w
              (AWorkerBegin "00000000000000000000000000000001" true)
              "00000000000000000000000000000001" eq_refl) as (_ & Hothers & _).
  apply Hothers. discriminate.
Defined.

(** X12. When [os.makedirs] fails, the worker dies before its first
    assignment: the record of the job stays exactly as it was, in every
    later state of the system, until the janitor removes it; no step ever
    moves the job on. *)
Theorem makedirs_failure_strands_job (urlparse : string → option ParseResult)
    (cfg : Config) (w : World) (id : string) (args : ThreadArgs) (j : Job) :
  threads w !! id = Some (Spawned args) →
  jobs w !! id = Some j →
  let w' := (exec urlparse cfg w (AWorkerBegin id false)).1 in
  jobs w' !! id = Some j ∧
  ∀ acts tr,
    jobs (run_from urlparse cfg (w', tr) acts).1 !! id = Some j ∨
    jobs (run_from urlparse cfg (w', tr) acts).1 !! id = None.
Proof.
  intros Hpc Hj w'. subst w'. cbn [exec]. rewrite Hpc. cbn [fst jobs].
  split; [done |]. intros acts tr.
  edestruct (run_from_exited urlparse cfg acts) as [_ [H | H]];
    [| left; rewrite H; exact Hj | right; exact H].
  cbn [threads]. apply lookup_insert_eq.
Qed.

Lemma makedirs_failure_strands_job_witness :
  let w := (run urlparse_model default_config
              [AStart (sample_request reel_url "10.0.0.1") 100 100 sample_id]).1 in
  let w' := (exec urlparse_model default_config w (AWorkerBegin sample_id false)).1 in
  job_status <$> jobs (run_from urlparse_model default_config (w', [])
                         [AWorkerBegin sample_id true;
                          AWorkerFinish sample_id sample_env_ok]).1 !! sample_id
  = Some queued.
Proof.
  intros w w'.
  assert (threads w !! sample_id
          = Some (Spawned (mkThreadArgs sample_id reel_url "mp4" None))) as Hpc
    by (vm_compute; reflexivity).
  assert (jobs w !! sample_id
          = Some (new_job (sample_request reel_url "10.0.0.1") reel_url 100 sample_id))
    as Hj by (vm_compute; reflexivity).
  destruct (makedirs_failure_strands_job urlparse_model default_config w sample_id
              _ _ Hpc Hj) as [_ Hlater].
  destruct (Hlater [AWorkerBegin sample_id true; AWorkerFinish sample_id sample_env_ok] [])
    as [H | H]; fold w' in H.
  - rewrite H. reflexivity.
  - vm_compute in H. discriminate.
Defined.

(** ** Records and workers *)

Section Records.

Context (urlparse : string → option ParseResult).
Context (cfg : Config).

Local Arguments mentions_login : simpl never.

Lemma error_texts_login : LOGIN_REQUIRED_TEXT ∈ error_texts.
Proof. unfold error_texts. rewrite !elem_of_cons. auto. Qed.

Lemma error_texts_failed : DOWNLOAD_FAILED_TEXT ∈ error_texts.
Proof. unfold error_texts. rewrite !elem_of_cons. auto. Qed.

Lemma error_texts_missing : OUTPUT_MISSING_TEXT ∈ error_texts.
Proof. unfold error_texts. rewrite !elem_of_cons. auto. Qed.

Lemma error_texts_server : SERVER_ERROR_TEXT ∈ error_texts.
Proof. unfold error_texts. rewrite !elem_of_cons. auto 10. Qed.

Lemma engine_try_Some_texts id env (js : Jobs) (j : Job) :
  js !! id = Some j →
  engine_try id env js = (js, [], inr true) ∨
  (∃ e, engine_try id env js = (js, [], inl e)) ∨
  ∃ text, text ∈ error_texts ∧ engine_try id env js =
    (<[id := with_error text (with_status error j)]> js,
     [StatusWrite id error], inr false).
Proof.
  intros Hj. unfold engine_try, try_except, bind, raise_if.
  destruct (run_engine env) as [[c text]|]; [|by left].
  right. unfold raise.
  destruct c; simpl; unfold bind;
    rewrite ?(set_error_Some _ _ _ j) by exact Hj;
    try (left; by eauto);
    right; (destruct (mentions_login text);
            [exists LOGIN_REQUIRED_TEXT; split; [apply error_texts_login | done]
            |exists DOWNLOAD_FAILED_TEXT; split; [apply error_texts_failed | done]]).
Qed.

Lemma outer_clause_Some_texts id (js : Jobs) (j : Job) (e : Exn) :
  js !! id = Some j →
  finish_outcome_texts id js j
    match select_clause
            [(ExceptException, λ _ : Exn, set_error id SERVER_ERROR_TEXT)] e with
    | Some h => match h e js with (js2, ev2, r) => (js2, [] ++ ev2, r) end
    | None => (js, [], inl e)
    end.
Proof.
  intros Hj. simpl. destruct (negb _); [|left; eauto].
  rewrite (set_error_Some _ _ _ j) by exact Hj. right. left.
  exists SERVER_ERROR_TEXT. split; [apply error_texts_server | done].
Qed.

Lemma finish_download_job_texts id fmt env (js : Jobs) (j : Job) :
  js !! id = Some j →
  finish_outcome_texts id js j (finish_download_job id fmt env js).
Proof.
  intros Hj. rewrite finish_download_job_unfold.
  unfold try_except, bind, raise_if.
  destruct (run_setup env) as [e0|]; [by apply outer_clause_Some_texts |].
  unfold ret at 1.
  destruct (engine_try_Some_texts id env js j Hj)
    as [-> | [[e ->] | (text & Htext & ->)]];
    [| by apply outer_clause_Some_texts | right; left; by exists text].
  cbn [negb].
  destruct (walk_search _ _ _) as [p|] eqn:Hp; cbn [Str.truthy_opt negb default].
  - destruct (Str.truthy p) eqn:Htruthy; cbn [negb].
    + rewrite (set_ready_Some _ _ _ _ j) by exact Hj.
      right. right. by exists p, (run_getsize env).
    + rewrite (set_error_Some _ _ _ j) by exact Hj.
      right. left. exists OUTPUT_MISSING_TEXT.
      split; [apply error_texts_missing | done].
  - rewrite (set_error_Some _ _ _ j) by exact Hj.
    right. left. exists OUTPUT_MISSING_TEXT.
    split; [apply error_texts_missing | done].
Qed.

Lemma record_ok_exited pc id (j : Job) :
  record_ok cfg pc id j → record_ok cfg (Some Exited) id j.
Proof. intros (? & ? & ? & ? & _). unfold record_ok. auto. Qed.

Lemma start_new_record req now created_at uuid (js : Jobs) (rl : RateLimit) :
  (∃ code message,
      start urlparse cfg req now created_at uuid js rl =
        mkHandled (ErrorResponse code message) js rl [] None) ∨
  (∃ url,
      start urlparse cfg req now created_at uuid js rl =
        mkHandled (JobStarted uuid)
          (<[uuid := new_job req url created_at uuid]> js)
          (check_rate_limit cfg now (get_client_ip req) rl).2
          [StatusWrite uuid queued]
          (Some (mkThreadArgs uuid url (default "mp4" (req_format req))
                   (req_proxy req)))).
Proof.
  unfold start.
  destruct (_ && _); [left; eauto |].
  destruct (_ || _); [left; eauto |].
  destruct (check_rate_limit _ _ _ _) as [[] rl']; [|left; eauto].
  right. unfold create_job. cbn [snd]. eauto.
Qed.

(** Every step keeps the records in step with their workers. *)
Lemma exec_record_ok (w : World) (a : Action) :
  (∀ id j, jobs w !! id = Some j → record_ok cfg (threads w !! id) id j) →
  ∀ id j, jobs (exec urlparse cfg w a).1 !! id = Some j →
          record_ok cfg (threads (exec urlparse cfg w a).1 !! id) id j.
Proof.
  intros Hinv id j.
  destruct a as [req now created_at uuid | id0 ok | id0 d | id0 env | path0];
    cbn [exec].
  - case_bool_decide as Hused; [apply Hinv |].
    destruct (start_new_record req now created_at uuid (jobs w) (rate_limit w))
      as [(code & msg & ->) | (url & ->)]; [apply Hinv |].
    cbn [fst jobs threads jobs_after spawned arg_job_id].
    destruct (decide (uuid = id)) as [-> | Hne].
    + rewrite !lookup_insert_eq. intros [= <-].
      repeat split; try done; by intros [? ?].
    + rewrite !lookup_insert_ne by done. apply Hinv.
  - destruct (threads w !! id0) as [[args | fmt |]|] eqn:Hpc; try apply Hinv.
    destruct ok; cycle 1.
    { cbn [fst jobs threads]. intros Hj. specialize (Hinv id j Hj).
      destruct (decide (id0 = id)) as [-> | Hne].
      - rewrite lookup_insert_eq. by eapply record_ok_exited.
      - by rewrite lookup_insert_ne. }
    destruct (jobs w !! id0) as [j0|] eqn:Hj0.
    + rewrite (mark_running_Some _ _ _ j0) by done. cbn [fst jobs threads].
      destruct (decide (id0 = id)) as [-> | Hne].
      * rewrite !lookup_insert_eq. intros [= <-].
        specialize (Hinv id j0 Hj0). rewrite Hpc in Hinv.
        destruct Hinv as (Hid & Herr & Hfile & Htexts & Hq & _). simpl in *.
        repeat split; try done.
        -- intros Hsome. apply Herr in Hsome. congruence.
        -- intros Hsome. apply Hfile in Hsome. congruence.
      * rewrite !lookup_insert_ne by done. apply Hinv.
    + rewrite mark_running_None by done. cbn [fst jobs threads].
      intros Hj. specialize (Hinv id j Hj).
      destruct (decide (id0 = id)) as [-> | Hne].
      * rewrite lookup_insert_eq. by eapply record_ok_exited.
      * by rewrite lookup_insert_ne.
  - destruct (threads w !! id0) as [[args | fmt |]|] eqn:Hpc; try apply Hinv.
    destruct (yt_progress_hook_cases id0 d (jobs w)) as [-> | (j0 & p & Hj0 & ->)];
      cbn [fst jobs threads]; [apply Hinv |].
    destruct (decide (id0 = id)) as [-> | Hne].
    + rewrite lookup_insert_eq. intros [= <-].
      specialize (Hinv id j0 Hj0). rewrite Hpc in *. exact Hinv.
    + rewrite lookup_insert_ne by done. apply Hinv.
  - destruct (threads w !! id0) as [[args | fmt |]|] eqn:Hpc; try apply Hinv.
    assert (Hkeep : ∀ js' : Jobs, js' !! id = Some j →
              (id0 ≠ id → js' !! id = jobs w !! id) →
              (id0 = id → record_ok cfg (Some Exited) id j) →
              record_ok cfg (<[id0 := Exited]> (threads w) !! id) id j).
    { intros js' Hj Hother Hown. destruct (decide (id0 = id)) as [-> | Hne].
      - rewrite lookup_insert_eq. by apply Hown.
      - rewrite lookup_insert_ne by done. apply Hinv. by rewrite <- Hother. }
    destruct (jobs w !! id0) as [j0|] eqn:Hj0.
    + pose proof (Hinv id0 j0 Hj0) as Hj0ok. rewrite Hpc in Hj0ok.
      destruct Hj0ok as (Hid & Herr & Hfile & Htexts & Hrun & _).
      destruct (finish_download_job_texts id0 fmt env (jobs w) j0 Hj0)
        as [[r ->] | [(text & Htext & ->) | (p & sz & Hp & ->)]];
        cbn [fst jobs threads]; intros Hj; apply (Hkeep _ Hj).
      * done.
      * intros ->. eapply record_ok_exited. apply Hinv.
        rewrite Hj0 in Hj |- *. exact Hj.
      * intros Hne. by rewrite lookup_insert_ne.
      * intros ->. rewrite lookup_insert_eq in Hj. injection Hj as <-.
        simpl. repeat split; try done.
        -- intros Hsome. apply Hfile in Hsome. congruence.
        -- by intros t [= <-].
      * intros Hne. by rewrite lookup_insert_ne.
      * intros ->. rewrite lookup_insert_eq in Hj. injection Hj as <-.
        unfold ready_job. simpl. repeat split; try done.
        -- intros Hsome. apply Herr in Hsome. congruence.
    + destruct (finish_download_job_None id0 fmt env (jobs w) Hj0) as [r ->].
      cbn [fst jobs threads]. intros Hj. apply (Hkeep _ Hj); [done |].
      intros ->. congruence.
  - cbn [fst jobs threads]. rewrite prune_jobs_lookup.
    destruct (jobs w !! id) as [j'|] eqn:Hj'; [|done].
    destruct (job_under path0 j'); [done |]. intros [= <-]. by apply Hinv.
Qed.

Lemma run_record_ok acts id (j : Job) :
  jobs (run urlparse cfg acts).1 !! id = Some j →
  record_ok cfg (threads (run urlparse cfg acts).1 !! id) id j.
Proof.
  revert id j.
  apply (run_invariant urlparse cfg
           (λ w _, ∀ id j, jobs w !! id = Some j →
                           record_ok cfg (threads w !! id) id j)).
  - intros id j. simpl. by rewrite lookup_empty.
  - intros w _ a Hinv. by apply exec_record_ok.
Qed.

End Records.

(** X13. In every run of the system a record is stored under its own
    identifier and has a worker thread.  While the worker has not begun,
    the record is queued and has no working directory; while the worker is
    in the engine, the record is running and its working directory is
    [BASE_DOWNLOAD_DIR/<job id>]; a record that is ready or failed belongs
    to a worker that has exited. *)
Theorem record_follows_worker (urlparse : string → option ParseResult)
    (cfg : Config) (acts : list Action) (id : string) (j : Job) :
  let w := (run urlparse cfg acts).1 in
  jobs w !! id = Some j →
  job_id j = id ∧
  ∃ pc, threads w !! id = Some pc ∧
    match pc with
    | Spawned _ => job_status j = queued ∧ job_temp_dir j = None
    | InEngine _ =>
        job_status j = running ∧ job_temp_dir j = Some (temp_dir_of cfg id)
    | Exited => True
    end ∧
    (terminal (job_status j) → pc = Exited).
Proof.
  intros w Hj. subst w.
  destruct (run_record_ok urlparse cfg acts id j Hj) as (Hid & _ & _ & _ & Hpc).
  split; [exact Hid |].
  destruct (threads (run urlparse cfg acts).1 !! id) as [pc|]; [|done].
  exists pc. split; [done |].
  destruct pc as [args | fmt |]; (split; [exact Hpc |]); try done.
  - destruct Hpc as [Hq _]. intros [H | H]; congruence.
  - destruct Hpc as [Hr _]. intros [H | H]; congruence.
Qed.

Lemma record_follows_worker_witness :
  ∃ j, jobs (run urlparse_model default_config engine_actions).1 !! sample_id
       = Some j ∧
       job_temp_dir j = Some "/app/downloads/0123456789abcdef0123456789abcdef".
Proof.
  destruct (jobs (run urlparse_model default_config engine_actions).1 !! sample_id)
    as [j|] eqn:Hj; [|vm_compute in Hj; discriminate].
  exists j. split; [reflexivity |].
  destruct (record_follows_worker urlparse_model default_config engine_actions
              sample_id j Hj) as (_ & pc & Hpc & Hstate & _).
  assert (pc = InEngine "mp4") as -> by (vm_compute in Hpc; congruence).
  destruct Hstate as [_ ->]. reflexivity.
Defined.

(** X14. In every run of the system a record carries an error text exactly
    when its status is [error], and a file path exactly when its status is
    [ready].  The error text is one of four: the login text, the general
    download text, the missing-output text or the server-error text; the
    texts about [ffmpeg] and about an unexpected error are never stored. *)
Theorem error_and_result_fields (urlparse : string → option ParseResult)
    (cfg : Config) (acts : list Action) (id : string) (j : Job) :
  jobs (run urlparse cfg acts).1 !! id = Some j →
  (is_Some (job_error j) ↔ job_status j = error) ∧
  (is_Some (job_filepath j) ↔ job_status j = ready) ∧
  (∀ t, job_error j = Some t →
        t = LOGIN_REQUIRED_TEXT ∨ t = DOWNLOAD_FAILED_TEXT ∨
        t = OUTPUT_MISSING_TEXT ∨ t = SERVER_ERROR_TEXT) ∧
  job_error j ≠ Some FFMPEG_MISSING_TEXT ∧
  job_error j ≠ Some UNEXPECTED_TEXT.
Proof.
  intros Hj.
  destruct (run_record_ok urlparse cfg acts id j Hj)
    as (_ & Herr & Hfile & Htexts & _).
  split; [exact Herr |]. split; [exact Hfile |].
  assert (∀ t, job_error j = Some t →
            t = LOGIN_REQUIRED_TEXT ∨ t = DOWNLOAD_FAILED_TEXT ∨
            t = OUTPUT_MISSING_TEXT ∨ t = SERVER_ERROR_TEXT) as Hfour.
  { intros t Ht. apply Htexts in Ht. unfold error_texts in Ht.
    rewrite !elem_of_cons, elem_of_nil in Ht. tauto. }
  split; [exact Hfour |].
  split; intros Ht; apply Hfour in Ht;
    destruct Ht as [H | [H | [H | H]]]; vm_compute in H; discriminate.
Qed.

Lemma error_and_result_fields_witness :
  ∃ j, jobs (run urlparse_model default_config
               (engine_actions ++ [AWorkerFinish sample_id sample_env_no_ffmpeg])).1
         !! sample_id = Some j ∧
       job_status j = error ∧
       job_error j ≠ Some FFMPEG_MISSING_TEXT.
Proof.
  destruct (jobs (run urlparse_model default_config
                    (engine_actions ++ [AWorkerFinish sample_id sample_env_no_ffmpeg])).1
              !! sample_id) as [j|] eqn:Hj; [|vm_compute in Hj; discriminate].
  exists j. split; [reflexivity |].
  destruct (error_and_result_fields urlparse_model default_config _ sample_id j Hj)
    as (Herr & _ & _ & Hffmpeg & _).
  split; [|exact Hffmpeg].
  apply Herr. vm_compute in Hj. injection Hj as <-. by eexists.
Defined.

(** ** The progress hook *)



(** ** The event stream *)

Section Stream.

Context (float_repr : Q → string).

Lemma last_received_cons c chunks before :
  last_received (c :: chunks) before = last_received chunks (Some c).
Proof.
  unfold last_received. destruct chunks as [|c' chunks]; [done |].
  change (last (c :: c' :: chunks)) with (last (c' :: chunks)).
  destruct (last (c' :: chunks)) eqn:Hlast; [done |].
  by apply last_None in Hlast.
Qed.

Lemma gen_last_received id pre js : ∀ last,
  Forall (λ p, ¬ observed_terminal id p) pre →
  last_received (gen float_repr id last (pre ++ [js])).1 (sse_chunk <$> last)
  = Some (sse_chunk (json_dumps float_repr (poll_payload id js))).
Proof.
  intros last Hpre. revert last.
  induction Hpre as [|p pre Hp Hpre IH]; intros last; cbn [gen app].
  - case_bool_decide as Hsame; cbn [negb].
    + destruct (payload_terminal _); simpl; by rewrite <- Hsame.
    + by destruct (payload_terminal _).
  - rewrite <- payload_terminal_spec in Hp.
    destruct (payload_terminal (poll_payload id p)); [done |].
    case_bool_decide as Hsame; cbn [negb].
    + specialize (IH last).
      by destruct (gen float_repr id last (pre ++ [js])) as [rest closed].
    + specialize (IH (Some (json_dumps float_repr (poll_payload id p)))).
      destruct (gen float_repr id _ (pre ++ [js])) as [rest closed].
      cbn [fst app] in *. by rewrite last_received_cons.
Qed.

Lemma gen_length id polls : ∀ last,
  (length (gen float_repr id last polls).1 ≤ length polls)%nat.
Proof.
  induction polls as [|js polls IH]; intros last; cbn [gen]; [done |].
  match goal with |- context [gen float_repr id ?l polls] =>
    specialize (IH l); destruct (gen float_repr id l polls) as [rest closed]
  end.
  cbn [fst] in IH.
  destruct (payload_terminal _), (negb _); simpl; lia.
Qed.

End Stream.

(** X16. A client of [/events] is never behind: as long as no earlier poll
    has ended the stream, the chunk sent last is the snapshot of the most
    recent poll, whatever was skipped as unchanged in between.  In
    particular the first poll always sends its snapshot, and a stream that
    has ended has the final state of the job as its last chunk.  The
    stream never has more chunks than polls. *)
Theorem events_up_to_date (float_repr : Q → string) (id : string)
    (pre : list Jobs) (js : Jobs) :
  Forall (λ p, ¬ observed_terminal id p) pre →
  last (events float_repr id (pre ++ [js])).1
  = Some (sse_chunk (json_dumps float_repr (poll_payload id js))) ∧
  head (events float_repr id (pre ++ [js])).1
  = Some (sse_chunk (json_dumps float_repr
                       (poll_payload id (default js (head pre))))) ∧
  (length (events float_repr id (pre ++ [js])).1 ≤ S (length pre))%nat.
Proof.
  intros Hpre. split; [|split].
  - pose proof (gen_last_received float_repr id pre js None Hpre) as Hlast.
    unfold events, last_received in *.
    destruct (last (gen float_repr id None (pre ++ [js])).1); [done |].
    discriminate.
  - unfold events. destruct pre as [|p pre]; cbn [gen app head default].
    + rewrite bool_decide_eq_false_2 by discriminate. cbn [negb].
      by destruct (payload_terminal _).
    + rewrite bool_decide_eq_false_2 by discriminate. cbn [negb].
      destruct (payload_terminal _); [done |].
      by destruct (gen float_repr id _ (pre ++ [js])).
  - unfold events.
    pose proof (gen_length float_repr id (pre ++ [js]) None) as Hlen.
    rewrite length_app in Hlen. simpl in Hlen. lia.
Qed.

Lemma events_up_to_date_witness :
  let js := jobs (run urlparse_model default_config engine_actions).1 in
  let done := jobs (run urlparse_model default_config sample_actions).1 in
  last (events float_repr_model sample_id [js; js; done]).1
  = Some (sse_chunk (json_dumps float_repr_model (poll_payload sample_id done))).
Proof.
  intros js done.
  apply (events_up_to_date float_repr_model sample_id [js; js] done).
  assert (¬ observed_terminal sample_id js) as Hrunning.
  { rewrite <- payload_terminal_spec. vm_compute. discriminate. }
  repeat (apply Forall_cons; split; [exact Hrunning |]). constructor.
Defined.

(** ** Fetching the file *)

(** X17. What [/download] answers in any state the system can reach: 404
    exactly when the table has no record of the job; 400 exactly when the
    record is there and its status is not [ready], so a job that is queued,
    running or failed never yields a file; and otherwise the file of the
    record under the base name of its path, from a job whose worker has
    exited. *)
Theorem download_answers (urlparse : string → option ParseResult)
    (cfg : Config) (acts : list Action) (id : string) :
  let w := (run urlparse cfg acts).1 in
  (download id (jobs w) = JobNotFound ↔ jobs w !! id = None) ∧
  (download id (jobs w) = FileNotReady ↔
     ∃ j, jobs w !! id = Some j ∧ job_status j ≠ ready) ∧
  (∀ p name, download id (jobs w) = SendFile p name ↔
     ∃ j, jobs w !! id = Some j ∧ job_status j = ready ∧
          job_filepath j = Some p ∧ name = Str.basename p) ∧
  (∀ p name, download id (jobs w) = SendFile p name →
     threads w !! id = Some Exited).
Proof.
  intros w. subst w.
  assert (∀ j, jobs (run urlparse cfg acts).1 !! id = Some j →
            job_status j = ready →
            ∃ p, job_filepath j = Some p ∧
                 download id (jobs (run urlparse cfg acts).1)
                 = SendFile p (Str.basename p)) as Hready.
  { intros j Hj Hr.
    destruct (run_ready_jobs_have_file urlparse cfg acts id j Hj Hr)
      as (p & Hp & Htruthy & Hname & _).
    exists p. split; [done |].
    unfold download. rewrite Hj, Hr, Hp, Hname. simpl. rewrite Htruthy. simpl.
    unfold Str.or_else. simpl. by destruct (Str.truthy (Str.basename p)). }
  assert (∀ j, jobs (run urlparse cfg acts).1 !! id = Some j →
            job_status j ≠ ready →
            download id (jobs (run urlparse cfg acts).1) = FileNotReady) as Hnot.
  { intros j Hj Hr. unfold download. rewrite Hj.
    by rewrite bool_decide_eq_false_2. }
  assert (∀ p name, download id (jobs (run urlparse cfg acts).1) = SendFile p name →
            ∃ j, jobs (run urlparse cfg acts).1 !! id = Some j ∧
                 job_status j = ready ∧
                 job_filepath j = Some p ∧ name = Str.basename p) as Hsend.
  { intros p name Hd.
    destruct (jobs (run urlparse cfg acts).1 !! id) as [j|] eqn:Hj; cycle 1.
    { unfold download in Hd. by rewrite Hj in Hd. }
    destruct (decide (job_status j = ready)) as [Hr | Hr].
    - destruct (Hready j eq_refl Hr) as (p' & Hp' & Hd').
      rewrite Hd' in Hd. injection Hd as <- <-. by exists j.
    - rewrite (Hnot j eq_refl Hr) in Hd. discriminate. }
  split; [|split; [|split]].
  - destruct (jobs (run urlparse cfg acts).1 !! id) as [j|] eqn:Hj.
    + split; [|done]. intros Hd.
      destruct (decide (job_status j = ready)) as [Hr | Hr].
      * destruct (Hready j eq_refl Hr) as (p & _ & Hd'). congruence.
      * rewrite (Hnot j eq_refl Hr) in Hd. discriminate.
    + split; [done |]. intros _. unfold download. by rewrite Hj.
  - split.
    + intros Hd.
      destruct (jobs (run urlparse cfg acts).1 !! id) as [j|] eqn:Hj; cycle 1.
      { unfold download in Hd. by rewrite Hj in Hd. }
      exists j. split; [done |]. intros Hr.
      destruct (Hready j eq_refl Hr) as (p & _ & Hd'). congruence.
    + intros (j & Hj & Hr). by apply (Hnot j).
  - intros p name. split; [apply Hsend |].
    intros (j & Hj & Hr & Hp & ->).
    destruct (Hready j Hj Hr) as (p' & Hp' & Hd). congruence.
  - intros p name Hd. destruct (Hsend p name Hd) as (j & Hj & Hr & _).
    destruct (run_record_ok urlparse cfg acts id j Hj) as (_ & _ & _ & _ & Hpc).
    destruct (threads (run urlparse cfg acts).1 !! id) as [[args | fmt |]|];
      [| | done | done]; destruct Hpc as [Hs _]; congruence.
Qed.

(** ** The janitor, once more *)

Section Sweep.

Context (cfg : Config) (cutoff : Z).

Local Abbreviation sweep st names := (foldl (sweep_entry cfg cutoff) st names).
Local Abbreviation path_of name := (Str.path_join (BASE_DOWNLOAD_DIR cfg) name).

(** A sweep puts no record into the table and changes none. *)
Lemma sweep_jobs_Some names : ∀ (st : Root * Jobs) id j,
  (sweep st names).2 !! id = Some j → st.2 !! id = Some j.
Proof.
  induction names as [|x names IH]; intros st id j Hj; simpl in Hj; [done |].
  apply IH in Hj. unfold sweep_entry in Hj.
  destruct (st.1 !! x) as [e|]; [|done].
  case_bool_decide; [|done]. simpl in Hj.
  rewrite prune_jobs_lookup in Hj.
  destruct (st.2 !! id) as [j'|]; [|done].
  by destruct (job_under _ j').
Qed.

(** Where nothing is old, a sweep changes nothing. *)
Lemma sweep_nothing_old names : ∀ (st : Root * Jobs),
  (∀ n, ¬ old_entry st.1 cutoff n) → sweep st names = st.
Proof.
  induction names as [|x names IH]; intros st Hnone; simpl; [done |].
  rewrite sweep_entry_not_old by apply Hnone. by apply IH.
Qed.

Lemma path_join_nonempty (a b : string) :
  a ≠ EmptyString → Str.path_join a b ≠ EmptyString.
Proof.
  intros Ha. unfold Str.path_join.
  destruct (Str.startswith b "/") eqn:Hb; [by destruct b |].
  destruct (_ || _); by destruct a.
Qed.

(** A record that names no path is under no entry of a named root. *)
Lemma job_under_no_paths name (j : Job) :
  BASE_DOWNLOAD_DIR cfg ≠ EmptyString →
  job_temp_dir j = None → job_filepath j = None →
  job_under (path_of name) j = false.
Proof.
  intros Hbase Hdir Hfile. unfold job_under. rewrite Hdir, Hfile. simpl.
  pose proof (path_join_nonempty (BASE_DOWNLOAD_DIR cfg) name Hbase) as Hne.
  by destruct (path_of name).
Qed.

End Sweep.

(** X18. What is left after a sweep of the janitor at time [now], exactly.
    An entry of the download root is left, unchanged, when its modification
    time is at most thirty minutes back, and no other.  A record is left,
    unchanged, when no entry removed by the sweep is its working directory
    or a prefix of its result path, and no other.  Sweeping again at the same
    time changes nothing. *)
Theorem sweep_survivors (cfg : Config) (now : Z) (root : Root) (jobs : Jobs) :
  let cutoff := now - 30 * 60 in
  let res := background_cleaner_sweep cfg now root jobs in
  (∀ name e, res.1 !! name = Some e ↔ root !! name = Some e ∧ cutoff ≤ mtime e) ∧
  (∀ id j, res.2 !! id = Some j ↔
     jobs !! id = Some j ∧
     ∀ name, old_entry root cutoff name →
             job_under (Str.path_join (BASE_DOWNLOAD_DIR cfg) name) j = false) ∧
  background_cleaner_sweep cfg now res.1 res.2 = res.
Proof.
  intros cutoff res.
  assert (∀ name e, res.1 !! name = Some e ↔
            root !! name = Some e ∧ cutoff ≤ mtime e) as Hroot.
  { intros name e. subst res. unfold background_cleaner_sweep. fold cutoff.
    destruct (old_entry_cases cutoff root name) as [Hold | Hyoung].
    - rewrite (sweep_root_drop cfg cutoff (listdir root) (root, jobs) name);
        [| apply listdir_elem; destruct Hold as (e' & He' & _); by exists e'
         | exact Hold].
      split; [done |]. intros [He Hle]. destruct Hold as (e' & He' & Hlt).
      assert (e' = e) by congruence. subst. lia.
    - rewrite (sweep_root_keep cfg cutoff (listdir root) (root, jobs) name)
        by exact Hyoung.
      simpl. split; [|by intros [? _]]. intros He. split; [done |].
      destruct (decide (mtime e < cutoff)) as [Hlt |]; [|lia].
      exfalso. apply Hyoung. by exists e. }
  split; [exact Hroot |]. split.
  - intros id j. subst res. unfold background_cleaner_sweep. fold cutoff. split.
    + intros Hj. pose proof Hj as Hbefore.
      apply sweep_jobs_Some in Hbefore. simpl in Hbefore.
      split; [exact Hbefore |]. intros name Hold.
      destruct (job_under _ j) eqn:Hunder; [|done].
      rewrite (sweep_jobs_drop cfg cutoff (listdir root) (root, jobs) id j name)
        in Hj; [done | | exact Hold | exact Hbefore | exact Hunder].
      apply listdir_elem. destruct Hold as (e & He & _). by exists e.
    + intros [Hj Hfree]. apply sweep_jobs_keep; [|exact Hj].
      intros n _ Hold. by apply Hfree.
  - subst res. unfold background_cleaner_sweep at 1. fold cutoff.
    rewrite sweep_nothing_old; [by destruct (background_cleaner_sweep _ _ _ _) |].
    intros n (e & He & Hlt). apply Hroot in He as [_ Hle]. lia.
Qed.

(** X19. The janitor never removes the record of a job that has no working
    directory yet, at any time and whatever the download root holds, when
    [BASE_DOWNLOAD_DIR] is not empty: the record of a job that is waiting
    for its worker does not expire. *)
Theorem unstarted_record_never_swept (cfg : Config) (now : Z) (root : Root)
    (jobs : Jobs) (id : string) (j : Job) :
  BASE_DOWNLOAD_DIR cfg ≠ EmptyString →
  jobs !! id = Some j →
  job_temp_dir j = None → job_filepath j = None →
  (background_cleaner_sweep cfg now root jobs).2 !! id = Some j.
Proof.
  intros Hbase Hj Hdir Hfile. unfold background_cleaner_sweep.
  apply sweep_jobs_keep; [|exact Hj].
  intros n _ _. by apply job_under_no_paths.
Qed.

Lemma unstarted_record_never_swept_witness :
  (background_cleaner_sweep default_config 10000 sample_root
     (jobs (run urlparse_model default_config three_starts).1)).2
    !! "00000000000000000000000000000001"
  = Some (new_job (sample_request reel_url "10.0.0.1") reel_url 100
            "00000000000000000000000000000001").
Proof.
  apply (unstarted_record_never_swept default_config 10000 sample_root);
    [discriminate | vm_compute; reflexivity | reflexivity | reflexivity].
Defined.

(** ** The client of a request *)

Lemma start_accepted_if (urlparse : string → option ParseResult)
    (cfg : Config) (req : Request) (now created_at : Z) (uuid url : string)
    (js : Jobs) (rl : RateLimit) :
  api_key_accepted cfg req →
  req_url req = Some url → url ≠ EmptyString →
  is_valid_instagram_url urlparse url = true →
  (check_rate_limit cfg now (get_client_ip req) rl).1 = true →
  response (start urlparse cfg req now created_at uuid js rl) = JobStarted uuid.
Proof.
  intros Hkey Hu Hne Hvalid Hchk. unfold start.
  apply api_key_accepted_spec in Hkey. cbv zeta in Hkey. rewrite Hkey.
  assert (Str.truthy_opt (req_url req) = true) as ->
    by (apply truthy_opt_Some; eauto).
  rewrite Hu. change (default EmptyString (Some url)) with url.
  rewrite Hvalid. cbn [negb orb].
  destruct (check_rate_limit cfg now (get_client_ip req) rl) as [[] rl'];
    [done | discriminate].
Qed.

(** X20. The limiter takes the client of a request from the header
    [X-Forwarded-For] when the request has one: the text before the first
    comma, stripped, whatever the address the request comes from.  Hence,
    with a positive ceiling, a request that [start] would otherwise accept
    is accepted under any header value that the table of the limiter does
    not know, also for a sender whose own budget is used up. *)
Theorem forwarded_header_names_client (urlparse : string → option ParseResult)
    (cfg : Config) (req : Request) (f : string) (now created_at : Z)
    (uuid url : string) (js : Jobs) (rl : RateLimit) :
  f ≠ EmptyString →
  0 < RATE_LIMIT_COUNT cfg →
  rl !! Str.strip (Str.before_comma f) = None →
  api_key_accepted cfg req →
  req_url req = Some url → url ≠ EmptyString →
  is_valid_instagram_url urlparse url = true →
  get_client_ip (with_forwarded_for f req) = Str.strip (Str.before_comma f) ∧
  response (start urlparse cfg (with_forwarded_for f req) now created_at uuid js rl)
  = JobStarted uuid.
Proof.
  intros Hf Hpos Hfresh Hkey Hu Hne Hvalid.
  assert (get_client_ip (with_forwarded_for f req)
          = Str.strip (Str.before_comma f)) as Hip.
  { unfold get_client_ip, with_forwarded_for. cbn [req_forwarded_for].
    by destruct f. }
  split; [exact Hip |].
  apply (start_accepted_if urlparse cfg _ now created_at uuid url); try done.
  rewrite Hip. unfold check_rate_limit. rewrite Hfresh. simpl.
  rewrite bool_decide_eq_false_2 by lia. done.
Qed.

Lemma forwarded_header_names_client_witness :
  let rl := (serve default_config ∅ burst).2 in
  let req := sample_request reel_url "10.0.0.1" in
  response (start urlparse_model default_config req 5 5 sample_id ∅ rl)
  = ErrorResponse 429 "Rate limit exceeded" ∧
  response (start urlparse_model default_config
              (with_forwarded_for "203.0.113.7, 10.0.0.1" req) 5 5 sample_id ∅ rl)
  = JobStarted sample_id.
Proof.
  intros rl req. split; [vm_compute; reflexivity |].
  apply (forwarded_header_names_client urlparse_model default_config req
           "203.0.113.7, 10.0.0.1" 5 5 sample_id reel_url ∅ rl).
  - discriminate.
  - reflexivity.
  - vm_compute. reflexivity.
  - left. reflexivity.
  - reflexivity.
  - discriminate.
  - vm_compute. reflexivity.
Defined.

(** ** Cookie files *)

Section Cookies.

Local Arguments String.append !_ _ / : simpl nomatch.

Local Abbreviation no_tab :=
  (all_chars (λ c, negb (bool_decide (c = "009"%char)))).

Lemma app_empty_r (s : string) : s +:+ EmptyString = s.
Proof. induction s as [|c s IH]; simpl; [done | by rewrite IH]. Qed.

Lemma rev_app_acc (a acc : string) :
  String.rev_app a acc = String.rev a +:+ acc.
Proof.
  unfold String.rev. revert acc.
  induction a as [|c a IH]; intros acc; simpl; [done |].
  rewrite (IH (String c acc)), (IH (String c EmptyString)).
  by rewrite StrFacts.app_assoc.
Qed.

Lemma rev_app (a b : string) : String.rev (a +:+ b) = String.rev b +:+ String.rev a.
Proof.
  induction a as [|c a IH]; simpl.
  - by rewrite app_empty_r.
  - unfold String.rev at 1 3. simpl.
    rewrite !rev_app_acc, IH. by rewrite StrFacts.app_assoc.
Qed.

Lemma rev_rev (s : string) : String.rev (String.rev s) = s.
Proof.
  induction s as [|c s IH]; [done |].
  unfold String.rev at 2. simpl. rewrite rev_app_acc, rev_app, IH. done.
Qed.

Lemma all_chars_app p (a b : string) :
  all_chars p (a +:+ b) = all_chars p a && all_chars p b.
Proof. induction a as [|c a IH]; simpl; [done |]. by rewrite IH, andb_assoc. Qed.

Lemma all_chars_rev p (s : string) : all_chars p (String.rev s) = all_chars p s.
Proof.
  induction s as [|c s IH]; [done |].
  unfold String.rev. simpl. rewrite rev_app_acc, all_chars_app, IH. simpl.
  by rewrite andb_true_r, andb_comm.
Qed.

Lemma rev_last_char (s : string) c :
  last_char s = Some c → ∃ r, String.rev s = String c r.
Proof.
  induction s as [|x s IH]; [done |]. intros Hlast.
  unfold String.rev. simpl. rewrite rev_app_acc.
  destruct s as [|y s]; [injection Hlast as <-; by eexists |].
  destruct (IH Hlast) as [r ->]. by eexists.
Qed.

Lemma lstrip_spaces (w s : string) :
  all_chars Str.is_space w = true → Str.lstrip (w +:+ s) = Str.lstrip s.
Proof.
  induction w as [|c w IH]; simpl; [done |].
  intros [Hc Hw]%andb_true_iff. rewrite Hc. by apply IH.
Qed.

(** Stripping a text that is blank at neither end, followed by blanks. *)
Lemma strip_clean (c : ascii) (r w : string) (d : ascii) :
  Str.is_space c = false →
  last_char (String c r) = Some d → Str.is_space d = false →
  all_chars Str.is_space w = true →
  Str.strip (String c r +:+ w) = String c r.
Proof.
  intros Hc Hlast Hd Hw. unfold Str.strip.
  assert (Str.lstrip (String c r +:+ w) = String c r +:+ w) as ->
    by (simpl; by rewrite Hc).
  rewrite rev_app, lstrip_spaces by by rewrite all_chars_rev.
  destruct (rev_last_char _ _ Hlast) as [r' Hrev].
  assert (Str.lstrip (String.rev (String c r)) = String.rev (String c r)) as ->
    by (rewrite Hrev; simpl; by rewrite Hd).
  apply rev_rev.
Qed.

Lemma split_char_field (x : string) :
  no_tab x = true → split_char "009" x = [x].
Proof.
  induction x as [|c x IH]; simpl; [done |].
  intros [Hc Hx]%andb_true_iff. apply negb_true_iff in Hc. rewrite Hc.
  by rewrite IH.
Qed.

Lemma split_char_app (x rest : string) :
  no_tab x = true →
  split_char "009" (x +:+ tab +:+ rest) = x :: split_char "009" rest.
Proof.
  change (tab +:+ rest) with (String "009" rest).
  induction x as [|c x IH]; simpl; [done |].
  intros [Hc Hx]%andb_true_iff. apply negb_true_iff in Hc. rewrite Hc.
  by rewrite IH.
Qed.

Lemma split_join (fields : list string) :
  fields ≠ [] → Forall (λ x, no_tab x = true) fields →
  split_char "009" (join tab fields) = fields.
Proof.
  intros Hne Hall. induction Hall as [|x fields Hx Hall IH]; [done |].
  destruct fields as [|y fields]; [by apply split_char_field |].
  change (join tab (x :: y :: fields)) with (x +:+ tab +:+ join tab (y :: fields)).
  rewrite split_char_app by done. by rewrite IH.
Qed.

Lemma join_head (fields : list string) c r :
  head fields = Some (String c r) → ∃ r', join tab fields = String c r'.
Proof.
  destruct fields as [|x [|y fields]]; [done | |]; intros [= ->]; by eexists.
Qed.

Lemma join_last_char (fields : list string) x c :
  last fields = Some x → last_char x = Some c →
  last_char (join tab fields) = Some c.
Proof.
  intros Hlast Hc. induction fields as [|y fields IH]; [done |].
  destruct fields as [|z fields]; [by injection Hlast as -> |].
  change (join tab (y :: z :: fields)) with (y +:+ tab +:+ join tab (z :: fields)).
  specialize (IH Hlast).
  assert (join tab (z :: fields) ≠ EmptyString) as Hne by by intros Heq; rewrite Heq in IH.
  rewrite !last_char_app; [done | done |].
  by destruct (join tab (z :: fields)).
Qed.

Lemma join_contains_tab (x y : string) (fields : list string) :
  Str.contains (join tab (x :: y :: fields)) tab = true.
Proof. apply StrFacts.contains_spec. by eexists _, _. Qed.

(** The line that a list of fields makes yields the fields again. *)
Lemma strip_cookie_line (fields : list string) (w : string) :
  line_fields fields → all_chars Str.is_space w = true →
  Str.strip (join tab fields +:+ w) = join tab fields ∧
  ∃ c r, join tab fields = String c r ∧ c ≠ "#"%char.
Proof.
  intros (Hall & (c & r & Hhead & Hc & Hhash) & (x & d & Hlast & Hd & Hsp)) Hw.
  destruct (join_head _ _ _ Hhead) as [r' Hjoin].
  pose proof (join_last_char _ _ _ Hlast Hd) as Hjl.
  rewrite Hjoin in *. split; [by eapply strip_clean | by eauto].
Qed.

Lemma cookie_name_of_line_fields (fields : list string) (w : string) :
  line_fields fields → (2 ≤ length fields)%nat →
  all_chars Str.is_space w = true →
  cookie_name_of_line (join tab fields +:+ w)
  = if bool_decide (7 ≤ length fields)%nat then fields !! 5%nat else None.
Proof.
  intros Hfields Hlen Hw.
  destruct (strip_cookie_line fields w Hfields Hw) as (Hstrip & c & r & Hjoin & Hhash).
  destruct Hfields as (Hall & _).
  unfold cookie_name_of_line. rewrite Hstrip.
  assert (Str.startswith (join tab fields) "#" = false) as ->.
  { rewrite Hjoin. simpl. rewrite bool_decide_eq_false_2; [done | congruence]. }
  assert (Str.truthy (join tab fields) = true) as -> by by rewrite Hjoin.
  cbn [negb orb].
  destruct fields as [|x [|y fields]]; [simpl in Hlen; lia | simpl in Hlen; lia |].
  by rewrite join_contains_tab, split_join.
Qed.

Lemma join_snoc_empty (fields : list string) :
  fields ≠ [] → join tab (fields ++ [EmptyString]) = join tab fields +:+ tab.
Proof.
  intros Hne. induction fields as [|x fields IH]; [done |].
  destruct fields as [|y fields].
  - change (join tab ([x] ++ [EmptyString])) with (x +:+ tab +:+ EmptyString).
    by rewrite app_empty_r.
  - change (join tab ((x :: y :: fields) ++ [EmptyString]))
      with (x +:+ tab +:+ join tab ((y :: fields) ++ [EmptyString])).
    rewrite IH by done.
    change (join tab (x :: y :: fields)) with (x +:+ tab +:+ join tab (y :: fields)).
    by rewrite !StrFacts.app_assoc.
Qed.

Lemma parse_fold_elem (lines : list string) : ∀ (names : gset string) name,
  name ∈ foldl (λ names raw,
                  match cookie_name_of_line raw with
                  | Some name => names ∪ {[ name ]}
                  | None => names
                  end) names lines
  ↔ name ∈ names ∨ ∃ raw, raw ∈ lines ∧ cookie_name_of_line raw = Some name.
Proof.
  induction lines as [|raw lines IH]; intros names name; simpl.
  - split; [by left |]. intros [? | (raw & Hraw & _)]; [done |].
    by apply elem_of_nil in Hraw.
  - rewrite IH. split.
    + intros [Hname | (raw' & Hraw' & Hc)].
      * destruct (cookie_name_of_line raw) as [n|] eqn:Hn; [|by left].
        apply elem_of_union in Hname as [? | ->%elem_of_singleton]; [by left |].
        right. exists raw. split; [by left | done].
      * right. exists raw'. split; [by right | done].
    + intros [Hname | (raw' & Hraw' & Hc)].
      * left. destruct (cookie_name_of_line raw); [|done].
        apply elem_of_union. by left.
      * apply elem_of_cons in Hraw' as [-> | Hraw'].
        -- left. rewrite Hc. apply elem_of_union. right. by apply elem_of_singleton.
        -- right. by exists raw'.
Qed.

End Cookies.

(** X21. [_parse_cookie_names] finds the names of a cookie file in the
    Netscape format: a line of at least seven tab-separated fields, ended by
    a newline, adds its sixth field, whatever lines stand before and after
    it; and the names found are those that some line adds, no other. *)
Theorem netscape_line_gives_name (fields : list string)
    (before after : list string) (name : string) :
  cookie_fields fields →
  fields !! 5%nat = Some name →
  cookie_name_of_line (join tab fields +:+ newline) = Some name ∧
  name ∈ _parse_cookie_names (before ++ [join tab fields +:+ newline] ++ after) ∧
  ∀ n, n ∈ _parse_cookie_names (before ++ [join tab fields +:+ newline] ++ after) ↔
       n = name ∨ n ∈ _parse_cookie_names (before ++ after).
Proof.
  intros [Hlen Hfields] Hname.
  assert (cookie_name_of_line (join tab fields +:+ newline) = Some name) as Hline.
  { rewrite cookie_name_of_line_fields; [| done | lia | done].
    by rewrite bool_decide_eq_true_2. }
  split; [exact Hline |].
  assert (∀ n, n ∈ _parse_cookie_names
                     (before ++ [join tab fields +:+ newline] ++ after) ↔
               n = name ∨ n ∈ _parse_cookie_names (before ++ after)) as Hiff.
  { intros n. unfold _parse_cookie_names. rewrite !parse_fold_elem.
    split.
    - intros [Hn | (raw & Hraw & Hc)]; [by apply elem_of_empty in Hn |].
      rewrite !elem_of_app, list_elem_of_singleton in Hraw.
      destruct Hraw as [Hraw | [-> | Hraw]].
      + right. right. exists raw. rewrite elem_of_app. auto.
      + left. congruence.
      + right. right. exists raw. rewrite elem_of_app. auto.
    - intros [-> | [Hn | (raw & Hraw & Hc)]].
      + right. exists (join tab fields +:+ newline).
        rewrite !elem_of_app, list_elem_of_singleton. auto.
      + by apply elem_of_empty in Hn.
      + right. exists raw. rewrite !elem_of_app, list_elem_of_singleton.
        rewrite elem_of_app in Hraw. split; [tauto | done]. }
  split; [|exact Hiff]. apply Hiff. by left.
Qed.

Lemma netscape_line_gives_name_witness :
  _parse_cookie_names ["# Netscape HTTP Cookie File"; sample_cookie_line]
  = {[ "csrftoken" ]}.
Proof.
  assert (cookie_fields
            [".instagram.com"; "TRUE"; "/"; "TRUE"; "1790000000"; "csrftoken"; "abc"])
    as Hfields.
  { split; [simpl; lia |]. split; [|split].
    - repeat (apply Forall_cons; split; [reflexivity |]). constructor.
    - eexists _, _. split; [reflexivity |]. split; [reflexivity | discriminate].
    - eexists _, _. split; [reflexivity |]. split; reflexivity. }
  destruct (netscape_line_gives_name _ ["# Netscape HTTP Cookie File"] [] "csrftoken"
              Hfields eq_refl) as (_ & _ & Hiff).
  apply set_eq. intros n. unfold sample_cookie_line.
  rewrite (Hiff n), elem_of_singleton.
  split; [intros [-> | Hn]; [done |] | by left].
  vm_compute in Hn. discriminate.
Defined.

(** X22. Lines that add no name: a blank line, a line whose first
    non-blank character is [#] (a comment, and also a line that marks a
    cookie as [#HttpOnly_]), and a line of seven tab-separated fields whose
    value field is empty, since stripping the line takes the last tab away
    and leaves six fields. *)
Theorem cookie_lines_without_name :
  (∀ raw, Str.strip raw = EmptyString → cookie_name_of_line raw = None) ∧
  (∀ raw, Str.startswith (Str.strip raw) "#" = true →
          cookie_name_of_line raw = None) ∧
  (∀ raw before after,
     cookie_name_of_line raw = None →
     _parse_cookie_names (before ++ [raw] ++ after)
     = _parse_cookie_names (before ++ after)) ∧
  (∀ fields, line_fields fields → length fields = 6%nat →
     cookie_name_of_line (join tab (fields ++ [EmptyString]) +:+ newline) = None).
Proof.
  split; [|split; [|split]].
  - intros raw Hraw. unfold cookie_name_of_line. by rewrite Hraw.
  - intros raw Hraw. unfold cookie_name_of_line. rewrite Hraw.
    by rewrite orb_true_r.
  - intros raw before after Hraw. unfold _parse_cookie_names.
    rewrite !foldl_app. simpl. by rewrite Hraw.
  - intros fields Hfields Hlen.
    rewrite join_snoc_empty by by destruct fields.
    rewrite StrFacts.app_assoc.
    rewrite cookie_name_of_line_fields; [| done | lia | reflexivity].
    rewrite bool_decide_eq_false_2; [done | lia].
Qed.

(** ** The end of a job *)

Section Final.

Context (urlparse : string → option ParseResult).
Context (cfg : Config).

Lemma run_app acts more :
  run urlparse cfg (acts ++ more)
  = run_from urlparse cfg (run urlparse cfg acts) more.
Proof. unfold run, run_from. by rewrite foldl_app. Qed.

(** The record of a job that has a thread and no record stays away. *)
Lemma exec_removed (w : World) (a : Action) id :
  is_Some (threads w !! id) → jobs w !! id = None →
  is_Some (threads (exec urlparse cfg w a).1 !! id) ∧
  jobs (exec urlparse cfg w a).1 !! id = None.
Proof.
  intros Hpc Hj.
  assert (∀ id0 pc, is_Some (<[id0 := pc]> (threads w) !! id)) as Hthreads.
  { intros id0 pc. destruct (decide (id0 = id)) as [-> | Hne].
    - rewrite lookup_insert_eq. by eexists.
    - by rewrite lookup_insert_ne. }
  destruct a as [req now created_at uuid | id0 ok | id0 d | id0 env | path0];
    cbn [exec].
  - case_bool_decide as Hused; [done |].
    assert (uuid ≠ id) as Hne by (intros ->; done).
    destruct (start_new_record urlparse cfg req now created_at uuid (jobs w)
                (rate_limit w)) as [(code & msg & ->) | (url & ->)]; [done |].
    cbn [fst jobs threads jobs_after spawned arg_job_id].
    split; [done |]. by rewrite lookup_insert_ne.
  - destruct (threads w !! id0) as [[args | fmt |]|] eqn:Hpc0; try done.
    destruct ok; [|by cbn [fst jobs threads]].
    destruct (jobs w !! id0) as [j0|] eqn:Hj0.
    + rewrite (mark_running_Some _ _ _ j0) by done. cbn [fst jobs threads].
      split; [done |]. rewrite lookup_insert_ne; [done | congruence].
    + rewrite mark_running_None by done. by cbn [fst jobs threads].
  - destruct (threads w !! id0) as [[args | fmt |]|] eqn:Hpc0; try done.
    destruct (yt_progress_hook_cases id0 d (jobs w)) as [-> | (j0 & p & Hj0 & ->)];
      cbn [fst jobs threads]; [done |].
    split; [done |]. rewrite lookup_insert_ne; [done | congruence].
  - destruct (threads w !! id0) as [[args | fmt |]|] eqn:Hpc0; try done.
    destruct (jobs w !! id0) as [j0|] eqn:Hj0.
    + destruct (finish_download_job_texts id0 fmt env (jobs w) j0 Hj0)
        as [[r ->] | [(text & Htext & ->) | (p & sz & Hp & ->)]];
        cbn [fst jobs threads]; (split; [done |]); [done | |];
        (rewrite lookup_insert_ne; [done | congruence]).
    + destruct (finish_download_job_None id0 fmt env (jobs w) Hj0) as [r ->].
      by cbn [fst jobs threads].
  - cbn [fst jobs threads]. split; [done |]. by rewrite prune_jobs_lookup, Hj.
Qed.

Lemma run_from_removed more : ∀ (w : World) tr id,
  is_Some (threads w !! id) → jobs w !! id = None →
  jobs (run_from urlparse cfg (w, tr) more).1 !! id = None.
Proof.
  induction more as [|a more IH]; intros w tr id Hpc Hj; simpl; [done |].
  destruct (exec_removed w a id Hpc Hj) as [Hpc' Hj'].
  destruct (exec urlparse cfg w a) as [w' evs]. simpl in *.
  by apply IH.
Qed.

End Final.

(** X23. A job that is ready or failed is final.  In every run, once the
    record of a job has status [ready] or [error], no later request, worker
    step, progress report or sweep changes it: the record stays exactly as
    it is until the janitor removes it, and a record that is removed never
    comes back. *)
Theorem terminal_record_final (urlparse : string → option ParseResult)
    (cfg : Config) (acts : list Action) (id : string) (j : Job) :
  jobs (run urlparse cfg acts).1 !! id = Some j →
  terminal (job_status j) →
  ∀ more,
    (jobs (run urlparse cfg (acts ++ more)).1 !! id = Some j ∨
     jobs (run urlparse cfg (acts ++ more)).1 !! id = None) ∧
    (jobs (run urlparse cfg (acts ++ more)).1 !! id = None →
     ∀ later, jobs (run urlparse cfg (acts ++ more ++ later)).1 !! id = None).
Proof.
  intros Hj Hterm more.
  assert (threads (run urlparse cfg acts).1 !! id = Some Exited) as Hpc.
  { destruct (run_record_ok urlparse cfg acts id j Hj) as (_ & _ & _ & _ & Hpc).
    destruct (threads (run urlparse cfg acts).1 !! id) as [[args | fmt |]|];
      [| | done | done]; destruct Hpc as [Hs _], Hterm; congruence. }
  rewrite run_app.
  destruct (run urlparse cfg acts) as [w tr] eqn:Hrun. cbn [fst] in *.
  destruct (run_from_exited urlparse cfg more w tr id Hpc) as [Hpc' Hjobs].
  split.
  - destruct Hjobs as [-> | ->]; auto.
  - intros Hgone later. rewrite app_assoc, run_app, run_app, Hrun.
    destruct (run_from urlparse cfg (w, tr) more) as [w' tr'] eqn:Hmore.
    apply run_from_removed; [simpl in Hpc'; by rewrite Hpc' | done].
Qed.

Lemma terminal_record_final_witness :
  let w := (run urlparse_model default_config
              (sample_actions ++ [AHook sample_id
                                    (mkHookInfo (Some "downloading") (Some 1) None
                                       (Some 1) None None);
                                  AWorkerFinish sample_id sample_env_forbidden])).1 in
  jobs w !! sample_id
  = jobs (run urlparse_model default_config sample_actions).1 !! sample_id.
Proof.
  intros w.
  destruct (jobs (run urlparse_model default_config sample_actions).1 !! sample_id)
    as [j|] eqn:Hj; [|vm_compute in Hj; discriminate].
  assert (terminal (job_status j)) as Hterm.
  { left. vm_compute in Hj. injection Hj as <-. reflexivity. }
  destruct (terminal_record_final urlparse_model default_config sample_actions
              sample_id j Hj Hterm
              [AHook sample_id
                 (mkHookInfo (Some "downloading") (Some 1) None (Some 1) None None);
               AWorkerFinish sample_id sample_env_forbidden]) as [[H | H] _];
    fold w in H.
  - exact H.
  - vm_compute in H. discriminate.
Defined.
